(** * mcp-drive: the Drive query compiler ([src/lib/query-builder.ts])

    A shallow embedding of [toDriveQuery] and of the zod schema of its input
    ([src/schemas/drive-query-schema.ts]), followed by the properties of the
    compiler that the specification states.

    JavaScript strings are sequences of UTF-16 code units; they are modelled
    as lists of code units so that [trim], [\s] and the escaping of quotes
    read as they do in the source. *)

From Stdlib Require Import String Ascii List NArith ZArith QArith Qround Bool Arith Lia.
Import ListNotations.
Close Scope Q_scope.
Open Scope list_scope.
Set Warnings "-register-all".

(* ================================================================= *)
(** ** Strings *)

Definition jschar := N.
Definition jsstring := list jschar.

(** An ASCII literal of the source, as code units. *)
Definition lit (s : string) : jsstring :=
  map N_of_ascii (list_ascii_of_string s).

(** ECMAScript [WhiteSpace] and [LineTerminator] code units: the set used
    both by [String.prototype.trim] and by the [\s] class. *)
Definition isWhiteSpace (c : jschar) : bool :=
  (((9 <=? c) && (c <=? 13)) || (c =? 32) || (c =? 160) || (c =? 5760)
   || ((8192 <=? c) && (c <=? 8202)) || (c =? 8232) || (c =? 8233)
   || (c =? 8239) || (c =? 8287) || (c =? 12288) || (c =? 65279))%N.

Fixpoint trimStart (s : jsstring) : jsstring :=
  match s with
  | c :: s' => if isWhiteSpace c then trimStart s' else s
  | [] => []
  end.

Definition trimEnd (s : jsstring) : jsstring := rev (trimStart (rev s)).

Definition trim (s : jsstring) : jsstring := trimEnd (trimStart s).

(** [s.trim() === ''] *)
Definition isBlank (s : jsstring) : bool :=
  match trim s with [] => true | _ :: _ => false end.

(** [arr.join(sep)] *)
Fixpoint join (sep : jsstring) (arr : list jsstring) : jsstring :=
  match arr with
  | [] => []
  | [x] => x
  | x :: rest => x ++ sep ++ join sep rest
  end.

Fixpoint startsWith (pre s : jsstring) : bool :=
  match pre, s with
  | [], _ => true
  | x :: pre', y :: s' => (x =? y)%N && startsWith pre' s'
  | _ :: _, [] => false
  end.

Definition endsWith (suf s : jsstring) : bool := startsWith (rev suf) (rev s).

(** [s.includes(x)] *)
Fixpoint includes (x s : jsstring) : bool :=
  startsWith x s || match s with [] => false | _ :: s' => includes x s' end.

(* ================================================================= *)
(** ** The fragment of regular expressions used by the cleanup step

    A backtracking matcher in continuation-passing style.  The matcher
    receives the index of the current position (for [^]) and the rest of
    the input, and answers with the index at which the match ends. *)

Inductive regex : Type :=
| RClass (f : jschar -> bool)          (* one code unit of a class *)
| RPlus (f : jschar -> bool)           (* [f+], greedy *)
| RSeq (r1 r2 : regex)
| RAlt (r1 r2 : regex)
| RBol                                 (* [^], no [m] flag *)
| REol.                                (* [$], no [m] flag *)

Fixpoint plusGreedy (f : jschar -> bool) (idx : nat) (s : jsstring)
    (k : nat -> jsstring -> option nat) : option nat :=
  match s with
  | c :: s' =>
      if f c then
        match plusGreedy f (S idx) s' k with
        | Some e => Some e
        | None => k (S idx) s'
        end
      else None
  | [] => None
  end.

Fixpoint rmatch (r : regex) (idx : nat) (s : jsstring)
    (k : nat -> jsstring -> option nat) : option nat :=
  match r with
  | RClass f =>
      match s with
      | c :: s' => if f c then k (S idx) s' else None
      | [] => None
      end
  | RPlus f => plusGreedy f idx s k
  | RSeq r1 r2 => rmatch r1 idx s (fun i t => rmatch r2 i t k)
  | RAlt r1 r2 =>
      match rmatch r1 idx s k with
      | Some e => Some e
      | None => rmatch r2 idx s k
      end
  | RBol => if Nat.eqb idx 0 then k idx s else None
  | REol => match s with [] => k idx s | _ :: _ => None end
  end.

(** [s.replace(r, '')] for a global [r]: the leftmost match from each
    position on is removed, matches do not overlap, and an empty match
    removes nothing.  [skip] counts the code units of the current match that
    are still to be dropped. *)
Fixpoint removeAll (r : regex) (idx skip : nat) (s : jsstring) : jsstring :=
  match s with
  | [] => []
  | c :: s' =>
      match skip with
      | S k => removeAll r (S idx) k s'
      | O =>
          match rmatch r idx s (fun e _ => Some e) with
          | Some e =>
              if Nat.leb e idx then c :: removeAll r (S idx) 0 s'
              else removeAll r (S idx) (e - idx - 1) s'
          | None => c :: removeAll r (S idx) 0 s'
          end
      end
  end.

(** Canonicalisation of the [i] flag (no [u] flag): upper-casing of one code
    unit.  A code unit outside ASCII never canonicalises into ASCII, so for
    the ASCII letters of the pattern only the ASCII part matters. *)
Definition canonicalize (c : jschar) : jschar :=
  if ((97 <=? c) && (c <=? 122))%N then (c - 32)%N else c.

Definition ci (ch : ascii) : regex :=
  RClass (fun c => (canonicalize c =? canonicalize (N_of_ascii ch))%N).

Definition ws_plus : regex := RPlus isWhiteSpace.
Definition word_and : regex := RSeq (ci "a") (RSeq (ci "n") (ci "d")).
Definition word_or : regex := RSeq (ci "o") (ci "r").

(** [/\s+and\s+$|\s+or\s+$|^\s+and\s+|^\s+or\s+/gi] *)
Definition cleanupPattern : regex :=
  RAlt (RSeq ws_plus (RSeq word_and (RSeq ws_plus REol)))
 (RAlt (RSeq ws_plus (RSeq word_or (RSeq ws_plus REol)))
 (RAlt (RSeq RBol (RSeq ws_plus (RSeq word_and ws_plus)))
       (RSeq RBol (RSeq ws_plus (RSeq word_or ws_plus))))).

(** [q.replace(/.../gi, '').trim()] *)
Definition cleanQuery (q : jsstring) : jsstring :=
  trim (removeAll cleanupPattern 0 0 q).

(* ================================================================= *)
(** ** Data model ([drive-query-schema.ts])

    An optional key of an object is an [option]: [None] is an absent key. *)

Record FieldOperator : Type := mkFieldOperator {
  any_ : option (list jsstring);       (* $any *)
  all_ : option (list jsstring);       (* $all *)
  none_ : option (list jsstring)       (* $none *)
}.

Record DateRange : Type := mkDateRange {
  gte_ : option jsstring;              (* $gte *)
  lt_ : option jsstring                (* $lt *)
}.

Definition FieldValue : Type := (jsstring + FieldOperator)%type.

Inductive DriveQueryObject : Type := mkQuery {
  and_ : option (list DriveQueryObject);   (* $and *)
  or_ : option (list DriveQueryObject);    (* $or *)
  not_ : option DriveQueryObject;          (* $not *)
  name : option FieldValue;
  mimeType : option FieldValue;
  fullText : option FieldValue;
  parentId : option FieldValue;
  starred : option bool;
  sharedWithMe : option bool;
  trashed : option bool;
  modifiedTime : option DateRange;
  owner : option FieldValue;
  rawDriveQuery : option jsstring
}.

(** [DriveQuery = string | DriveQueryObject] *)
Inductive DriveQuery : Type :=
| QString (s : jsstring)
| QObject (n : DriveQueryObject).

(** [{}] *)
Definition emptyObject : DriveQueryObject :=
  mkQuery None None None None None None None None None None None None None.

Definition isSome {A} (o : option A) : bool :=
  match o with Some _ => true | None => false end.

(** [Object.keys(n).length === 0] *)
Definition noKeys (n : DriveQueryObject) : bool :=
  negb (isSome (and_ n) || isSome (or_ n) || isSome (not_ n)
        || isSome (name n) || isSome (mimeType n) || isSome (fullText n)
        || isSome (parentId n) || isSome (starred n)
        || isSome (sharedWithMe n) || isSome (trashed n)
        || isSome (modifiedTime n) || isSome (owner n)
        || isSome (rawDriveQuery n)).

(** [k in n] and [n[k]] for a leaf-field key [k]. *)
Definition lookupField (k : string) (n : DriveQueryObject) : option FieldValue :=
  if String.eqb k "name" then name n
  else if String.eqb k "mimeType" then mimeType n
  else if String.eqb k "fullText" then fullText n
  else if String.eqb k "parentId" then parentId n
  else if String.eqb k "owner" then owner n
  else None.

(** [n] with the leaf-field key [k] set to [v]. *)
Definition setField (k : string) (v : FieldValue) (n : DriveQueryObject)
  : DriveQueryObject :=
  let 'mkQuery a o nt nm mt ft pid st sh tr md ow raw := n in
  if String.eqb k "name" then mkQuery a o nt (Some v) mt ft pid st sh tr md ow raw
  else if String.eqb k "mimeType" then mkQuery a o nt nm (Some v) ft pid st sh tr md ow raw
  else if String.eqb k "fullText" then mkQuery a o nt nm mt (Some v) pid st sh tr md ow raw
  else if String.eqb k "parentId" then mkQuery a o nt nm mt ft (Some v) st sh tr md ow raw
  else if String.eqb k "owner" then mkQuery a o nt nm mt ft pid st sh tr md (Some v) raw
  else n.

(* ----------------------------------------------------------------- *)
(** *** The zod schema of the input *)

Definition isDigit (c : jschar) : bool := ((48 <=? c) && (c <=? 57))%N.

(** Does [s] consist of one code unit per element of [shape], each in its
    class? *)
Fixpoint matchesShape (shape : list (jschar -> bool)) (s : jsstring) : bool :=
  match shape, s with
  | [], [] => true
  | f :: shape', c :: s' => f c && matchesShape shape' s'
  | _, _ => false
  end.

Definition isChar (ch : ascii) (c : jschar) : bool := (c =? N_of_ascii ch)%N.

Definition dateShape : list (jschar -> bool) :=
  [isDigit; isDigit; isDigit; isDigit; isChar "-"; isDigit; isDigit;
   isChar "-"; isDigit; isDigit].
Definition timeShape : list (jschar -> bool) :=
  [isChar "T"; isDigit; isDigit; isChar ":"; isDigit; isDigit; isChar ":";
   isDigit; isDigit].
Definition millisShape : list (jschar -> bool) :=
  [isChar "."; isDigit; isDigit; isDigit].

(** [/^\d{4}-\d{2}-\d{2}(T\d{2}:\d{2}:\d{2}(\.\d{3})?Z)?$/] *)
Definition isoDate (s : jsstring) : bool :=
  matchesShape dateShape s
  || matchesShape (dateShape ++ timeShape ++ [isChar "Z"]) s
  || matchesShape (dateShape ++ timeShape ++ millisShape ++ [isChar "Z"]) s.

(** [z.string().min(1)] *)
Definition nonEmptyString (s : jsstring) : bool :=
  match s with [] => false | _ :: _ => true end.

Definition optional {A} (check : A -> bool) (o : option A) : bool :=
  match o with Some a => check a | None => true end.

(** [FieldOperatorSchema]: three optional arrays of strings; the type
    already says all of it. *)
Definition FieldOperatorSchema (op : FieldOperator) : bool := true.

(** [z.union([z.string().min(1), FieldOperatorSchema])] *)
Definition FieldValueSchema (v : FieldValue) : bool :=
  match v with
  | inl s => nonEmptyString s
  | inr op => FieldOperatorSchema op
  end.

Definition DateRangeSchema (d : DateRange) : bool :=
  optional isoDate (gte_ d) && optional isoDate (lt_ d).

Fixpoint DriveQueryObjectSchema (n : DriveQueryObject) : bool :=
  optional (forallb DriveQueryObjectSchema) (and_ n)
  && optional (forallb DriveQueryObjectSchema) (or_ n)
  && optional DriveQueryObjectSchema (not_ n)
  && optional FieldValueSchema (name n)
  && optional FieldValueSchema (mimeType n)
  && optional FieldValueSchema (fullText n)
  && optional FieldValueSchema (parentId n)
  && optional DateRangeSchema (modifiedTime n)
  && optional FieldValueSchema (owner n)
  && optional nonEmptyString (rawDriveQuery n).

(** [DriveQuerySchema] *)
Definition DriveQuerySchema (q : DriveQuery) : bool :=
  match q with
  | QString s => nonEmptyString s
  | QObject n => DriveQueryObjectSchema n
  end.

(* ================================================================= *)
(** ** The compiler ([query-builder.ts]) *)

(** The accumulators that [toDriveQuery] declares at each call and that its
    inner functions update. *)
Record Acc : Type := mkAcc {
  nameIncludes : list jsstring;
  mimeTypeIncludes : list jsstring;
  fullTextIncludes : list jsstring;
  parentIdIncludes : list jsstring;
  ownerIncludes : list jsstring;
  starredFlag : option bool;
  sharedWithMeFlag : option bool;
  trashedFlag : option bool
}.

Definition freshAcc : Acc := mkAcc [] [] [] [] [] None None None.

(** The two [throw new Error(...)] of the source, with the value that the
    message prints through [JSON.stringify]. *)
Inductive Error : Type :=
| UnknownFieldOperator (op : FieldOperator)
| UnknownNode (n : DriveQueryObject).

Inductive outcome (A : Type) : Type :=
| Ok (a : A)
| Throw (e : Error).
Arguments Ok {A} a.
Arguments Throw {A} e.

(** Computations over the accumulators that may throw. *)
Definition M (A : Type) : Type := Acc -> outcome (A * Acc).

Definition ret {A} (a : A) : M A := fun st => Ok (a, st).

Definition bind {A B} (c : M A) (k : A -> M B) : M B :=
  fun st =>
    match c st with
    | Ok (a, st') => k a st'
    | Throw e => Throw e
    end.

Definition throw {A} (e : Error) : M A := fun _ => Throw e.

Definition modify (f : Acc -> Acc) : M unit := fun st => Ok (tt, f st).

Notation "x <- c ;; k" := (bind c (fun x => k))
  (at level 61, c at next level, right associativity).
Notation "c ;;; k" := (bind c (fun _ => k))
  (at level 61, right associativity).

(** [arr.map(f)] for an [f] with effects: left to right. *)
Definition mapM {A B} (f : A -> M B) : list A -> M (list B) :=
  fix go (l : list A) : M (list B) :=
    match l with
    | [] => ret []
    | a :: l' => b <- f a ;; bs <- go l' ;; ret (b :: bs)
    end.

(** [arr.push(x)] *)
Definition push {A} (arr : list A) (x : A) : list A := arr ++ [x].

Definition pushName (v : jsstring) (st : Acc) : Acc :=
  let 'mkAcc nm mt ft pid ow sr sh tr := st in
  mkAcc (push nm v) mt ft pid ow sr sh tr.
Definition pushMimeType (v : jsstring) (st : Acc) : Acc :=
  let 'mkAcc nm mt ft pid ow sr sh tr := st in
  mkAcc nm (push mt v) ft pid ow sr sh tr.
Definition pushFullText (v : jsstring) (st : Acc) : Acc :=
  let 'mkAcc nm mt ft pid ow sr sh tr := st in
  mkAcc nm mt (push ft v) pid ow sr sh tr.
Definition pushParentId (v : jsstring) (st : Acc) : Acc :=
  let 'mkAcc nm mt ft pid ow sr sh tr := st in
  mkAcc nm mt ft (push pid v) ow sr sh tr.
Definition pushOwner (v : jsstring) (st : Acc) : Acc :=
  let 'mkAcc nm mt ft pid ow sr sh tr := st in
  mkAcc nm mt ft pid (push ow v) sr sh tr.
Definition setStarred (b : bool) (st : Acc) : Acc :=
  let 'mkAcc nm mt ft pid ow sr sh tr := st in
  mkAcc nm mt ft pid ow (Some b) sh tr.
Definition setSharedWithMe (b : bool) (st : Acc) : Acc :=
  let 'mkAcc nm mt ft pid ow sr sh tr := st in
  mkAcc nm mt ft pid ow sr (Some b) tr.
Definition setTrashed (b : bool) (st : Acc) : Acc :=
  let 'mkAcc nm mt ft pid ow sr sh tr := st in
  mkAcc nm mt ft pid ow sr sh (Some b).

(** [p(s)]: [`(${s})`] *)
Definition p (s : jsstring) : jsstring := lit "(" ++ s ++ lit ")".

(** [str.replace(/'/g, "\\'")] *)
Definition escapeQuotes (str : jsstring) : jsstring :=
  flat_map (fun c => if (c =? 39)%N then [92%N; 39%N] else [c]) str.

Definition quote (s : jsstring) : jsstring :=
  lit "'" ++ escapeQuotes s ++ lit "'".

Definition fv (field : string) (raw : jsstring) : M jsstring :=
  let rawVal := raw in
  let v := quote rawVal in
  if String.eqb field "name" then
    modify (pushName rawVal) ;;; ret (lit "name contains " ++ v)
  else if String.eqb field "mimeType" then
    modify (pushMimeType rawVal) ;;; ret (lit "mimeType = " ++ v)
  else if String.eqb field "fullText" then
    modify (pushFullText rawVal) ;;; ret (lit "fullText contains " ++ v)
  else if String.eqb field "parentId" then
    modify (pushParentId rawVal) ;;; ret (v ++ lit " in parents")
  else if String.eqb field "owner" then
    modify (pushOwner rawVal) ;;; ret (v ++ lit " in owners")
  else ret [].

(** The [op] argument of [chain]: ['and' | 'or']. *)
Inductive ChainOp : Type := OpAnd | OpOr.

Definition opText (op : ChainOp) : jsstring :=
  match op with OpAnd => lit "and" | OpOr => lit "or" end.

Definition notBlank (s : jsstring) : bool := negb (isBlank s).

Definition chain (op : ChainOp) (arr : list jsstring) : jsstring :=
  let filtered := filter notBlank arr in
  match filtered with
  | [] => []
  | [first] => first
  | _ => p (join (lit " " ++ opText op ++ lit " ") filtered)
  end.

(** The three branches of [fieldExpr] share their first two lines. *)
Definition fieldResults (field : string) (values : list jsstring)
  : M (list jsstring) :=
  let nonEmpty := filter notBlank values in
  results <- mapM (fv field) nonEmpty ;;
  ret (filter notBlank results).

Definition fieldExpr (field : string) (op : FieldOperator) : M jsstring :=
  match any_ op with
  | Some values =>
      results <- fieldResults field values ;;
      ret (if 0 <? length results then chain OpOr results else [])
  | None =>
  match all_ op with
  | Some values =>
      results <- fieldResults field values ;;
      ret (if 0 <? length results then chain OpAnd results else [])
  | None =>
  match none_ op with
  | Some values =>
      results <- fieldResults field values ;;
      ret (if 0 <? length results
           then lit "not " ++ p (chain OpOr results) else [])
  | None => throw (UnknownFieldOperator op)
  end end end.

(** A string is truthy when it is not empty. *)
Definition truthy (o : option jsstring) : option jsstring :=
  match o with
  | Some (c :: s) => Some (c :: s)
  | _ => None
  end.

Definition dateExpr (d : DateRange) : jsstring :=
  let parts := [] in
  let parts := match truthy (gte_ d) with
               | Some g => push parts (lit "modifiedTime >= '" ++ g ++ lit "'")
               | None => parts
               end in
  let parts := match truthy (lt_ d) with
               | Some l => push parts (lit "modifiedTime < '" ++ l ++ lit "'")
               | None => parts
               end in
  if 1 <? length parts then p (join (lit " and ") parts)
  else nth 0 parts [].

Definition fieldKeys : list string :=
  ["name"; "mimeType"; "fullText"; "parentId"; "owner"]%string.

(** [`${b}`] *)
Definition boolText (b : bool) : jsstring :=
  if b then lit "true" else lit "false".

(** [typeof op === 'string' ? { $any: [op] } : op] *)
Definition normalizedOp (op : FieldValue) : FieldOperator :=
  match op with
  | inl s => mkFieldOperator (Some [s]) None None
  | inr o => o
  end.

(** The [for (const k of fieldKeys())] loop of [emit]. *)
Fixpoint fieldLoop (n : DriveQueryObject) (keys : list string)
    (expressions : list jsstring) : M (list jsstring) :=
  match keys with
  | [] => ret expressions
  | k :: keys' =>
      match lookupField k n with
      | Some op =>
          result <- fieldExpr k (normalizedOp op) ;;
          fieldLoop n keys'
            (if notBlank result then push expressions result else expressions)
      | None => fieldLoop n keys' expressions
      end
  end.

(** The part of [emit] below its three combinator lines, in two steps:
    the statements that fill [expressions], then the four closing tests. *)
Definition leafExpressions (n : DriveQueryObject) : M (list jsstring) :=
  let expressions := [] in
  expressions <-
    match starred n with
    | Some b => modify (setStarred b) ;;;
                ret (push expressions (lit "starred = " ++ boolText b))
    | None => ret expressions
    end ;;
  expressions <-
    match sharedWithMe n with
    | Some b => modify (setSharedWithMe b) ;;;
                ret (push expressions (lit "sharedWithMe = " ++ boolText b))
    | None => ret expressions
    end ;;
  expressions <-
    match trashed n with
    | Some b => modify (setTrashed b) ;;;
                ret (push expressions (lit "trashed = " ++ boolText b))
    | None => ret expressions
    end ;;
  let expressions :=
    match modifiedTime n with
    | Some d => push expressions (dateExpr d)
    | None => expressions
    end in
  fieldLoop n fieldKeys expressions.

Definition emitLeaf (n : DriveQueryObject) : M jsstring :=
  expressions <- leafExpressions n ;;
  if (length expressions =? 0) && noKeys n then ret []
  else if 1 <? length expressions then ret (chain OpAnd expressions)
  else if length expressions =? 1 then ret (nth 0 expressions [])
  else throw (UnknownNode n).

Fixpoint emit (n : DriveQueryObject) : M jsstring :=
  match and_ n with
  | Some children =>
      parts <- mapM emit children ;; ret (p (join (lit " and ") parts))
  | None =>
  match or_ n with
  | Some children =>
      parts <- mapM emit children ;; ret (p (join (lit " or ") parts))
  | None =>
  match not_ n with
  | Some child => s <- emit child ;; ret (lit "not " ++ s)
  | None => emitLeaf n
  end end end.

(** [n] is an object here, so the [!n] test of the source never fires. *)
Definition emitTop (n : DriveQueryObject) : M jsstring :=
  if noKeys n then ret []
  else
  match and_ n with
  | Some children =>
      parts <- mapM emit children ;; ret (join (lit " and ") parts)
  | None =>
  match or_ n with
  | Some children =>
      parts <- mapM emit children ;; ret (join (lit " or ") parts)
  | None =>
  match not_ n with
  | Some child => s <- emit child ;; ret (lit "not " ++ s)
  | None =>
      result <- emit n ;;
      ret (if isBlank result then [] else result)
  end end end.

Module Filters.
(** [FiltersObject] *)
Record FiltersObject : Type := mk {
  nameIncludes : option (list jsstring);
  mimeTypeIncludes : option (list jsstring);
  fullTextIncludes : option (list jsstring);
  parentIdIncludes : option (list jsstring);
  ownerIncludes : option (list jsstring);
  starred : option bool;
  sharedWithMe : option bool;
  trashed : option bool
}.

(** [{}] *)
Definition empty : FiltersObject := mk None None None None None None None None.
End Filters.

(** [if (arr.length) filters.f = arr] *)
Definition whenNonEmpty (arr : list jsstring) : option (list jsstring) :=
  match arr with [] => None | _ :: _ => Some arr end.

Definition filtersOf (st : Acc) : Filters.FiltersObject :=
  Filters.mk (whenNonEmpty (nameIncludes st))
             (whenNonEmpty (mimeTypeIncludes st))
             (whenNonEmpty (fullTextIncludes st))
             (whenNonEmpty (parentIdIncludes st))
             (whenNonEmpty (ownerIncludes st))
             (starredFlag st) (sharedWithMeFlag st) (trashedFlag st).

Record Output : Type := mkOutput {
  q : jsstring;
  filters : Filters.FiltersObject
}.

Definition toDriveQuery (query : DriveQuery) : outcome Output :=
  match query with
  | QString s => Ok (mkOutput s Filters.empty)
  | QObject n =>
      match emitTop n freshAcc with
      | Ok (q0, st) => Ok (mkOutput (cleanQuery q0) (filtersOf st))
      | Throw e => Throw e
      end
  end.

(* ================================================================= *)
(** ** Notions used by the statements *)

(** What a call hands back to its caller: [None] when it throws. *)
Definition returned {A} (r : outcome A) : option A :=
  match r with Ok a => Some a | Throw _ => None end.

(** The node carries [$and], [$or] or [$not]. *)
Definition hasCombinator (n : DriveQueryObject) : bool :=
  isSome (and_ n) || isSome (or_ n) || isSome (not_ n).

(** The node reduced to its combinator keys. *)
Definition combinatorsOnly (n : DriveQueryObject) : DriveQueryObject :=
  mkQuery (and_ n) (or_ n) (not_ n)
          None None None None None None None None None None.

(** The node without its [rawDriveQuery] key. *)
Definition withoutRaw (n : DriveQueryObject) : DriveQueryObject :=
  mkQuery (and_ n) (or_ n) (not_ n) (name n) (mimeType n) (fullText n)
          (parentId n) (starred n) (sharedWithMe n) (trashed n)
          (modifiedTime n) (owner n) None.

(** [{ rawDriveQuery: raw }] *)
Definition rawOnly (raw : jsstring) : DriveQueryObject :=
  mkQuery None None None None None None None None None None None None
          (Some raw).


Definition hasOperatorKey (op : FieldOperator) : bool :=
  isSome (any_ op) || isSome (all_ op) || isSome (none_ op).

(** [{}] as a field operator. *)
Definition noOperator : FieldOperator := mkFieldOperator None None None.

(** The array of the first present key of the operator. *)
Definition selectedValues (op : FieldOperator) : list jsstring :=
  match any_ op with
  | Some values => values
  | None =>
      match all_ op with
      | Some values => values
      | None => match none_ op with Some values => values | None => [] end
      end
  end.

(** The literals of a leaf field that [fv] receives. *)
Definition compiledValues (o : option FieldValue) : list jsstring :=
  match o with
  | Some v => filter notBlank (selectedValues (normalizedOp v))
  | None => []
  end.

(** The literals of field [k] compiled anywhere in the tree, in the order
    of the traversal: the children of a combinator, whatever the
    combinator, or the field of a node without combinator. *)
Fixpoint referenced (k : string) (n : DriveQueryObject) : list jsstring :=
  match and_ n with
  | Some children => flat_map (referenced k) children
  | None =>
  match or_ n with
  | Some children => flat_map (referenced k) children
  | None =>
  match not_ n with
  | Some child => referenced k child
  | None => compiledValues (lookupField k n)
  end end end.

(** The accumulator of field [k]. *)
Definition includesOf (k : string) (st : Acc) : list jsstring :=
  if String.eqb k "name" then nameIncludes st
  else if String.eqb k "mimeType" then mimeTypeIncludes st
  else if String.eqb k "fullText" then fullTextIncludes st
  else if String.eqb k "parentId" then parentIdIncludes st
  else if String.eqb k "owner" then ownerIncludes st
  else [].

(** A leaf field whose operator has one of the three keys. *)
Definition fieldHasKey (o : option FieldValue) : bool :=
  optional (fun v => hasOperatorKey (normalizedOp v)) o.

(** A leaf field with a value that is not blank. *)
Definition fieldYields (o : option FieldValue) : bool :=
  existsb notBlank (compiledValues o).

(** A node without combinator that [emit] accepts: every leaf field has an
    operator key, and the node is [{}] or fills [expressions]. *)
Definition leafCompilable (n : DriveQueryObject) : bool :=
  forallb (fun k => fieldHasKey (lookupField k n)) fieldKeys
  && (noKeys n || isSome (starred n) || isSome (sharedWithMe n)
      || isSome (trashed n) || isSome (modifiedTime n)
      || existsb (fun k => fieldYields (lookupField k n)) fieldKeys).

Fixpoint compilable (n : DriveQueryObject) : bool :=
  match and_ n with
  | Some children => forallb compilable children
  | None =>
  match or_ n with
  | Some children => forallb compilable children
  | None =>
  match not_ n with
  | Some child => compilable child
  | None => leafCompilable n
  end end end.

(* ----------------------------------------------------------------- *)
(** *** Sample inputs *)

Definition andOf (children : list DriveQueryObject) : DriveQueryObject :=
  mkQuery (Some children) None None
          None None None None None None None None None None.
Definition orOf (children : list DriveQueryObject) : DriveQueryObject :=
  mkQuery None (Some children) None
          None None None None None None None None None None.
Definition notOf (child : DriveQueryObject) : DriveQueryObject :=
  mkQuery None None (Some child)
          None None None None None None None None None None.
Definition nameIs (v : FieldValue) : DriveQueryObject :=
  setField "name" v emptyObject.
Definition starredIs (b : bool) : DriveQueryObject :=
  mkQuery None None None None None None None (Some b) None None None None None.

(** [{ name: "a" }] *)
Definition name_a : DriveQueryObject := nameIs (inl (lit "a")).

(** [{ $and: [{ name: "a" }, { starred: true }] }] *)
Definition and_name_starred : DriveQueryObject :=
  andOf [name_a; starredIs true].

(** [{ $and: [{ name: "a" }], starred: true }] *)
Definition and_with_leaf : DriveQueryObject :=
  mkQuery (Some [name_a]) None None
          None None None None (Some true) None None None None None.

(** [{ $and: [{ $not: { name: "a" } }, { starred: true }] }] *)
Definition and_not_name : DriveQueryObject :=
  andOf [notOf name_a; starredIs true].

(** [{ $and: [{ name: "a" }, {}, {}] }] *)
Definition and_two_empty : DriveQueryObject :=
  andOf [name_a; emptyObject; emptyObject].

(** [{ name: {} }] *)
Definition name_no_operator : DriveQueryObject := nameIs (inr noOperator).

(** [{ name: { $any: ["a"], $all: ["b"] } }] *)
Definition name_any_all : DriveQueryObject :=
  nameIs (inr (mkFieldOperator (Some [lit "a"]) (Some [lit "b"]) None)).

(** [{ $not: { name: { $none: ["x", "x"] } } }] *)
Definition not_none_xx : DriveQueryObject :=
  notOf (nameIs (inr (mkFieldOperator None None (Some [lit "x"; lit "x"])))).

(* ----------------------------------------------------------------- *)
(** *** Dispatch on the combinator keys *)

(** The first combinator key that [emit] and [emitTop] find, with the
    keyword it joins the children by. *)
Definition andOrChildren (n : DriveQueryObject)
  : option (jsstring * list DriveQueryObject) :=
  match and_ n with
  | Some children => Some (lit " and ", children)
  | None =>
      match or_ n with
      | Some children => Some (lit " or ", children)
      | None => None
      end
  end.

(** [{ $not: child }], the only combinator of its node. *)
Definition notChild (n : DriveQueryObject) : option DriveQueryObject :=
  match and_ n, or_ n with
  | None, None => not_ n
  | _, _ => None
  end.


(* ----------------------------------------------------------------- *)
(** *** The two effects of [fv], one by one *)

(** The fragment that [fv] returns. *)
Definition fvText (field : string) (raw : jsstring) : jsstring :=
  if String.eqb field "name" then lit "name contains " ++ quote raw
  else if String.eqb field "mimeType" then lit "mimeType = " ++ quote raw
  else if String.eqb field "fullText" then lit "fullText contains " ++ quote raw
  else if String.eqb field "parentId" then quote raw ++ lit " in parents"
  else if String.eqb field "owner" then quote raw ++ lit " in owners"
  else [].

(** The accumulators after [fv]. *)
Definition pushField (field : string) (raw : jsstring) (st : Acc) : Acc :=
  if String.eqb field "name" then pushName raw st
  else if String.eqb field "mimeType" then pushMimeType raw st
  else if String.eqb field "fullText" then pushFullText raw st
  else if String.eqb field "parentId" then pushParentId raw st
  else if String.eqb field "owner" then pushOwner raw st
  else st.

Definition pushAll (field : string) (values : list jsstring) (st : Acc) : Acc :=
  fold_left (fun s v => pushField field v s) values st.

(** The fragments of the values of one operator key. *)
Definition resultsOf (field : string) (values : list jsstring) : list jsstring :=
  filter notBlank (map (fvText field) (filter notBlank values)).

(** The fragment that [fieldExpr] returns, [None] when it throws. *)
Definition fieldText (field : string) (op : FieldOperator) : option jsstring :=
  match any_ op with
  | Some values =>
      Some (if 0 <? length (resultsOf field values)
            then chain OpOr (resultsOf field values) else [])
  | None =>
  match all_ op with
  | Some values =>
      Some (if 0 <? length (resultsOf field values)
            then chain OpAnd (resultsOf field values) else [])
  | None =>
  match none_ op with
  | Some values =>
      Some (if 0 <? length (resultsOf field values)
            then lit "not " ++ p (chain OpOr (resultsOf field values)) else [])
  | None => None
  end end end.

(** Compiling [c] below the root appends to the accumulator of field [k]
    the literals of [k] that [c] refers to. *)
Definition emitAdds (k : string) (c : DriveQueryObject) : Prop :=
  forall st s st',
    emit c st = Ok (s, st') ->
    includesOf k st' = includesOf k st ++ referenced k c.

(** An accepted [c] compiles below the root without throwing. *)
Definition emitReturns (c : DriveQueryObject) : Prop :=
  compilable c = true -> forall st, exists s st', emit c st = Ok (s, st').

(** Some leaf field of the node has an operator with none of the three
    keys. *)
Definition hasKeylessOperator (n : DriveQueryObject) : bool :=
  existsb (fun k => negb (fieldHasKey (lookupField k n))) fieldKeys.

(** Two values of the leaf field [k] that [fieldExpr] compiles alike, or
    the key absent on both sides. *)
Definition sameField (k : string) (o o' : option FieldValue) : Prop :=
  match o, o' with
  | Some v, Some v' =>
      forall st, fieldExpr k (normalizedOp v) st
                 = fieldExpr k (normalizedOp v') st
  | None, None => True
  | _, _ => False
  end.

(** Two nodes in which [emit] and [emitTop] read the same things: the same
    combinators, flags and date range, leaf fields that compile alike, and
    both with or both without keys. *)
Definition sameReading (n n' : DriveQueryObject) : Prop :=
  and_ n = and_ n' /\ or_ n = or_ n' /\ not_ n = not_ n'
  /\ starred n = starred n' /\ sharedWithMe n = sharedWithMe n'
  /\ trashed n = trashed n' /\ modifiedTime n = modifiedTime n'
  /\ (forall k, sameField k (lookupField k n) (lookupField k n'))
  /\ noKeys n = noKeys n'.

(** [{ $any: [v] }] *)
Definition anyOf (v : jsstring) : FieldOperator :=
  mkFieldOperator (Some [v]) None None.

(** The value of a computation, without the accumulators it leaves. *)
Definition valueOf {A} (r : outcome (A * Acc)) : outcome A :=
  match r with Ok (a, _) => Ok a | Throw e => Throw e end.

(** A computation whose value does not depend on the accumulators it
    starts from. *)
Definition accBlind {A} (c : M A) : Prop :=
  forall st1 st2, valueOf (c st1) = valueOf (c st2).

(* ----------------------------------------------------------------- *)
(** *** Shorthands of the tests *)

Definition noFilters : Filters.FiltersObject := Filters.empty.

Definition onlyNames (values : list jsstring) : Filters.FiltersObject :=
  Filters.mk (Some values) None None None None None None None.

Definition dateIs (d : DateRange) : DriveQueryObject :=
  mkQuery None None None None None None None None None None (Some d) None None.

(* ================================================================= *)
(** ** Further notions: strings without whitespace at their ends *)

(** The string neither starts nor ends with whitespace; the empty string
    qualifies. *)
Definition tidy (s : jsstring) : bool :=
  match s with [] => true | c :: _ => negb (isWhiteSpace c) end
  && match rev s with [] => true | c :: _ => negb (isWhiteSpace c) end.

(** [u] is what is left of [t] after some code units. *)
Definition suffixOf (u t : jsstring) : Prop := exists pre, t = pre ++ u.

(** How the global replace calls the matcher: the answer is the end of the
    match. *)
Definition matchAt (r : regex) (idx : nat) (s : jsstring) : option nat :=
  rmatch r idx s (fun e _ => Some e).

(** The string starts, or ends, with a code unit that is not whitespace. *)
Definition startsSolid (s : jsstring) : bool :=
  match s with c :: _ => negb (isWhiteSpace c) | [] => false end.
Definition endsSolid (s : jsstring) : bool := startsSolid (rev s).

(* ----------------------------------------------------------------- *)
(** *** Quotes *)

(** The code unit of the single quote, and of the backslash. *)
Definition quoteChar : jschar := 39%N.
Definition backslash : jschar := 92%N.

(** The number of single quotes of a string. *)
Definition countQuotes (s : jsstring) : nat :=
  length (filter (fun c => (c =? quoteChar)%N) s).

(* ----------------------------------------------------------------- *)
(** *** Field operators with one key *)

(** [{ $any: values }], [{ $all: values }], [{ $none: values }] *)
Definition anyOp (values : list jsstring) : FieldOperator :=
  mkFieldOperator (Some values) None None.
Definition allOp (values : list jsstring) : FieldOperator :=
  mkFieldOperator None (Some values) None.
Definition noneOp (values : list jsstring) : FieldOperator :=
  mkFieldOperator None None (Some values).

(** The operator with the blank values taken out of its arrays. *)
Definition withoutBlanks (op : FieldOperator) : FieldOperator :=
  mkFieldOperator (option_map (filter notBlank) (any_ op))
                  (option_map (filter notBlank) (all_ op))
                  (option_map (filter notBlank) (none_ op)).

(* ----------------------------------------------------------------- *)
(** *** Filters and flags of a whole tree *)

(** The filters of a result, or its error. *)
Definition filtersOnly (r : outcome Output) : outcome Filters.FiltersObject :=
  match r with Ok out => Ok (filters out) | Throw e => Throw e end.

(** The accumulators that a computation leaves, or its error. *)
Definition accOf {A} (r : outcome (A * Acc)) : outcome Acc :=
  match r with Ok (_, st) => Ok st | Throw e => Throw e end.

(** The values of one boolean flag in the nodes without combinator that
    the traversal compiles, in its order. *)
Fixpoint flagsSeen (flag : DriveQueryObject -> option bool)
    (n : DriveQueryObject) : list bool :=
  match and_ n with
  | Some children => flat_map (flagsSeen flag) children
  | None =>
  match or_ n with
  | Some children => flat_map (flagsSeen flag) children
  | None =>
  match not_ n with
  | Some child => flagsSeen flag child
  | None => match flag n with Some b => [b] | None => [] end
  end end end.

(** The last of a series of assignments to a variable that holds [init]. *)
Definition lastWrite (init : option bool) (writes : list bool) : option bool :=
  fold_left (fun _ b => Some b) writes init.

(** Compiling [c] below the root assigns to a flag variable, read by [get],
    the values of [flag] that the traversal meets. *)
Definition emitWrites (flag : DriveQueryObject -> option bool)
    (get : Acc -> option bool) (c : DriveQueryObject) : Prop :=
  forall st s st',
    emit c st = Ok (s, st') ->
    get st' = lastWrite (get st) (flagsSeen flag c).

(** A list of the filters, when present, is not empty and holds no blank
    value. *)
Definition listedValues (o : option (list jsstring)) : Prop :=
  match o with
  | Some values => values <> [] /\ forallb notBlank values = true
  | None => True
  end.

(** A date range that gives a fragment. *)
Definition dateYields (o : option DateRange) : bool :=
  match o with Some d => notBlank (dateExpr d) | None => false end.

(** A node without combinator that gives [expressions] an entry which is
    not blank. *)
Definition leafYields (n : DriveQueryObject) : bool :=
  isSome (starred n) || isSome (sharedWithMe n) || isSome (trashed n)
  || dateYields (modifiedTime n)
  || existsb (fun k => fieldYields (lookupField k n)) fieldKeys.

(** A node of one of three forms, each of which is emitted as a text that
    is not empty and has no whitespace at its ends: an [$and] or [$or]
    node, whose parentheses are always there, a node without combinator that
    yields a fragment, or a [$not] over a node of these forms.  A [$not]
    over another node, such as [{ $not: {} }], which is emitted as [not ]
    with a space at the end, is not of these forms. *)
Fixpoint emitsText (n : DriveQueryObject) : bool :=
  match and_ n with
  | Some _ => true
  | None =>
  match or_ n with
  | Some _ => true
  | None =>
  match not_ n with
  | Some child => emitsText child
  | None => leafYields n
  end end end.

(** Every child of a root [$and] or [$or], or the child of a root [$not],
    is of the forms of [emitsText]; a root without combinator always
    qualifies. *)
Definition rootSolid (n : DriveQueryObject) : bool :=
  match and_ n with
  | Some children => forallb emitsText children
  | None =>
  match or_ n with
  | Some children => forallb emitsText children
  | None =>
  match not_ n with
  | Some child => emitsText child
  | None => true
  end end end.

(** A text that is not empty and has no whitespace at its ends. *)
Definition solidText (s : jsstring) : bool := startsSolid s && endsSolid s.

(** Compiling a node that emits text gives such a text. *)
Definition emitsSolid (c : DriveQueryObject) : Prop :=
  emitsText c = true ->
  forall st s st', emit c st = Ok (s, st') -> solidText s = true.

(** A node without combinator that has a key and fills [expressions] with
    nothing: no flag, no date range, and leaf fields whose operators have a
    key but no value that is not blank. *)
Definition barren (n : DriveQueryObject) : bool :=
  negb (hasCombinator n) && negb (noKeys n)
  && forallb (fun k => fieldHasKey (lookupField k n)) fieldKeys
  && negb (isSome (starred n) || isSome (sharedWithMe n)
           || isSome (trashed n) || isSome (modifiedTime n)
           || existsb (fun k => fieldYields (lookupField k n)) fieldKeys).

(** [{ name: { $any: ["  "] } }] *)
Definition name_any_blank : DriveQueryObject :=
  nameIs (inr (mkFieldOperator (Some [lit "  "]) None None)).

(* ================================================================= *)
(** ** The search tools ([mcp/tools/files-search.ts], [folder-search.ts])

    Of the two handlers, the statements that build the query string handed
    to [drive.files.list], and nothing else.  The string is built inside
    the [try] block of the handler: [Throw] is an exception of
    [toDriveQuery] that ends these statements and goes to the [catch] block
    of the handler, which is not modelled. *)

(** [files-search.ts], handler: the value of [qStr]. *)
Definition filesSearchQStr (query : DriveQuery) : outcome jsstring :=
  match query with
  | QString s => Ok (lit "(" ++ s ++ lit ") and trashed = false")
  | QObject n =>
      match truthy (rawDriveQuery n) with
      | Some raw => Ok (lit "(" ++ raw ++ lit ") and trashed = false")
      | None =>
          match toDriveQuery query with
          | Ok out =>
              Ok (match q out with
                  | _ :: _ => lit "(" ++ q out ++ lit ") and trashed = false"
                  | [] => lit "trashed = false"
                  end)
          | Throw e => Throw e
          end
      end
  end.

Definition folderMimeType : jsstring := lit "application/vnd.google-apps.folder".

(** [`mimeType='${folderMimeType}' and trashed = false`] *)
Definition folderClause : jsstring :=
  lit "mimeType='" ++ folderMimeType ++ lit "' and trashed = false".

(** [folder-search.ts], handler: the value of [qStr]; the query is
    optional there. *)
Definition folderSearchQStr (query : option DriveQuery) : outcome jsstring :=
  match query with
  | Some (QString s) => Ok (lit "(" ++ s ++ lit ") and " ++ folderClause)
  | Some (QObject n) =>
      match truthy (rawDriveQuery n) with
      | Some raw => Ok (lit "(" ++ raw ++ lit ") and " ++ folderClause)
      | None =>
          match toDriveQuery (QObject n) with
          | Ok out =>
              Ok (match q out with
                  | _ :: _ => lit "(" ++ q out ++ lit ") and " ++ folderClause
                  | [] => folderClause
                  end)
          | Throw e => Throw e
          end
      end
  | None => Ok folderClause
  end.

(** The part of a search string that comes from the caller's query: nothing,
    or a text in parentheses followed by [ and ]. *)
Definition userPart (s : jsstring) : Prop :=
  s = [] \/ exists body, s = lit "(" ++ body ++ lit ") and ".

(* ----------------------------------------------------------------- *)
(** *** The page size

    A JavaScript number is [NaN], an infinity or a finite value; the finite
    doubles are rationals, and [Math.floor], [Math.min] and [Math.max] are
    exact on them. *)

Inductive jsnumber : Type :=
| NaN
| PosInfinity
| NegInfinity
| Finite (x : Q).

(** [x || fallback] on numbers: [NaN] and zero are falsy. *)
Definition numberOr (x fallback : jsnumber) : jsnumber :=
  match x with
  | NaN => fallback
  | Finite v => if Qeq_bool v 0 then fallback else x
  | PosInfinity | NegInfinity => x
  end.

Definition mathFloor (x : jsnumber) : jsnumber :=
  match x with
  | Finite v => Finite (inject_Z (Qfloor v))
  | NaN | PosInfinity | NegInfinity => x
  end.

Definition mathMin (a b : jsnumber) : jsnumber :=
  match a, b with
  | NaN, _ | _, NaN => NaN
  | NegInfinity, _ | _, NegInfinity => NegInfinity
  | PosInfinity, other | other, PosInfinity => other
  | Finite x, Finite y => if Qle_bool x y then a else b
  end.

Definition mathMax (a b : jsnumber) : jsnumber :=
  match a, b with
  | NaN, _ | _, NaN => NaN
  | PosInfinity, _ | _, PosInfinity => PosInfinity
  | NegInfinity, other | other, NegInfinity => other
  | Finite x, Finite y => if Qle_bool x y then b else a
  end.

(** An integer as a number. *)
Definition int (z : Z) : jsnumber := Finite (inject_Z z).

(** Both handlers: the parameter default [pageSize = 50], then
    [Math.max(1, Math.min(1000, Math.floor(pageSize || 50)))]. *)
Definition validPageSize (pageSize : option jsnumber) : jsnumber :=
  let pageSize := match pageSize with Some x => x | None => int 50 end in
  mathMax (int 1) (mathMin (int 1000) (mathFloor (numberOr pageSize (int 50)))).

(* ----------------------------------------------------------------- *)
(** *** The items of a search result ([files-search.ts], handler) *)

Fixpoint jsstring_eqb (a b : jsstring) : bool :=
  match a, b with
  | [], [] => true
  | x :: a', y :: b' => (x =? y)%N && jsstring_eqb a' b'
  | _, _ => false
  end.

(** [x || fallback] on strings that may be missing: the empty string is
    falsy. *)
Definition stringOr (x : option jsstring) (fallback : jsstring) : jsstring :=
  match truthy x with Some s => s | None => fallback end.

(** A [Map<string, string>], read through [get] alone: the entries, the
    latest first. *)
Definition StringMap : Type := list (jsstring * jsstring).


Definition mapGet (m : StringMap) (k : jsstring) : option jsstring :=
  option_map snd (find (fun e => jsstring_eqb (fst e) k) m).


Module Api.
(** [drive_v3.Schema$File] and its owners, as far as the handler reads
    them.  [None] is a property that is missing, [null] or [undefined]. *)
Record Owner : Type := mkOwner {
  displayName : option jsstring;
  emailAddress : option jsstring;
  kind : option jsstring;
  me : option bool;
  permissionId : option jsstring;
  photoLink : option jsstring
}.

Record File : Type := mkFile {
  id : option jsstring;
  name : option jsstring;
  mimeType : option jsstring;
  webViewLink : option jsstring;
  modifiedTime : option jsstring;
  parents : option (list jsstring);
  shared : option bool;
  starred : option bool;
  owners : option (list Owner)
}.
End Api.

Module Parent.
(** An entry of [parents] in an item. *)
Record t : Type := mk {
  id : jsstring;
  name : jsstring
}.
End Parent.

Module Item.
(** [DriveFile], the item of the result. *)
Record DriveFile : Type := mk {
  id : jsstring;
  name : jsstring;
  mimeType : option jsstring;
  webViewLink : option jsstring;
  modifiedTime : option jsstring;
  parents : option (list Parent.t);
  shared : option bool;
  starred : option bool;
  owners : option (list Api.Owner)
}.
End Item.

(** [if (arr && arr.length > 0)] *)
Definition nonEmptyArray {A} (o : option (list A)) : option (list A) :=
  match o with
  | Some (x :: l) => Some (x :: l)
  | _ => None
  end.




(** The function mapped over [f.parents]. *)
Definition parentEntry (parentNameMap : StringMap) (parentId : jsstring)
  : Parent.t :=
  if jsstring_eqb parentId (lit "root")
  then Parent.mk (lit "root") (lit "My Drive")
  else
    let parentName := stringOr (mapGet parentNameMap parentId) parentId in
    Parent.mk parentId parentName.

(** The function mapped over [f.owners]: only truthy strings are kept. *)
Definition ownerEntry (o : Api.Owner) : Api.Owner :=
  Api.mkOwner (truthy (Api.displayName o)) (truthy (Api.emailAddress o))
              (truthy (Api.kind o)) (Api.me o)
              (truthy (Api.permissionId o)) (truthy (Api.photoLink o)).

(** The function mapped over [files]. *)
Definition toItem (parentNameMap : StringMap) (f : Api.File) : Item.DriveFile :=
  let id := stringOr (Api.id f) (lit "unknown") in
  let name := stringOr (Api.name f) id in
  Item.mk id name
    (truthy (Api.mimeType f))
    (truthy (Api.webViewLink f))
    (truthy (Api.modifiedTime f))
    (option_map (map (parentEntry parentNameMap))
       (nonEmptyArray (Api.parents f)))
    (Api.shared f)
    (Api.starred f)
    (option_map (map ownerEntry) (nonEmptyArray (Api.owners f))).


(** A string property that is present is not empty. *)
Definition presentString (o : option jsstring) : Prop :=
  match o with Some s => s <> [] | None => True end.




(* ----------------------------------------------------------------- *)
(** *** The path of a folder ([folder-search.ts], [resolveFolderPath]) *)

















(* ----------------------------------------------------------------- *)
(** *** The combinator that is compiled *)

(** The node reduced to the one key that the three combinator lines of
    [emit] and [emitTop] return from: [$and] when it is present, else [$or],
    else [$not]; a node without combinator is left as it is. *)
Definition firstCombinator (n : DriveQueryObject) : DriveQueryObject :=
  match and_ n with
  | Some children => andOf children
  | None =>
  match or_ n with
  | Some children => orOf children
  | None =>
  match not_ n with
  | Some child => notOf child
  | None => n
  end end end.

(** [{ $and: [{ name: "a" }], $or: [{ starred: true }],
       $not: { trashed: true }, starred: false, name: "b" }] *)
Definition all_combinators_and_leaf : DriveQueryObject :=
  mkQuery (Some [name_a]) (Some [starredIs true])
          (Some (mkQuery None None None None None None None None None
                   (Some true) None None None))
          (Some (inl (lit "b"))) None None None (Some false) None None None
          None None.

(** [{ $or: [{ starred: true }], $not: { name: "a" }, trashed: true }] *)
Definition or_not_and_leaf : DriveQueryObject :=
  mkQuery None (Some [starredIs true]) (Some name_a)
          None None None None None None (Some true) None None None.

(* ----------------------------------------------------------------- *)
(** *** Trees that differ in their [rawDriveQuery] keys *)

(** [n] with every [rawDriveQuery] key of the tree rewritten: the node [m]
    gets the value [edit m], [None] removing the key. *)
Fixpoint mapRaw (edit : DriveQueryObject -> option jsstring)
    (n : DriveQueryObject) : DriveQueryObject :=
  match n with
  | mkQuery a o nt nm mt ft pid st sh tr md ow raw =>
      mkQuery (option_map (map (mapRaw edit)) a)
              (option_map (map (mapRaw edit)) o)
              (option_map (mapRaw edit) nt)
              nm mt ft pid st sh tr md ow (edit n)
  end.

(** The edit gives no key to a node without key and leaves a key to a node
    that has only [rawDriveQuery]. *)
Definition rawKept (edit : DriveQueryObject -> option jsstring) : Prop :=
  forall n, noKeys (withoutRaw n) = true ->
            isSome (edit n) = isSome (rawDriveQuery n).

(** The key dropped wherever the node has another key. *)
Definition dropRaw (n : DriveQueryObject) : option jsstring :=
  if noKeys (withoutRaw n) then rawDriveQuery n else None.

(** The text of the key replaced by [text] wherever the key is present. *)
Definition replaceRaw (text : jsstring) (n : DriveQueryObject)
  : option jsstring :=
  option_map (fun _ => text) (rawDriveQuery n).

(** An outcome with the error, if any, passed through [g]. *)
Definition mapThrown {A} (g : Error -> Error) (r : outcome A) : outcome A :=
  match r with
  | Ok a => Ok a
  | Throw e => Throw (g e)
  end.

(** The error that names a node names the rewritten node. *)
Definition rawError (edit : DriveQueryObject -> option jsstring) (e : Error)
  : Error :=
  match e with
  | UnknownNode m => UnknownNode (mapRaw edit m)
  | UnknownFieldOperator op => UnknownFieldOperator op
  end.

(** [{ $or: [{ name: "a", rawDriveQuery: "x" },
             { $not: { starred: true, rawDriveQuery: "y" } }],
       rawDriveQuery: "z" }] *)
Definition or_with_raw_below : DriveQueryObject :=
  mkQuery None
    (Some [ mkQuery None None None (Some (inl (lit "a"))) None None None
              None None None None None (Some (lit "x"));
            notOf (mkQuery None None None None None None None (Some true)
                     None None None None (Some (lit "y"))) ])
    None None None None None None None None None None (Some (lit "z")).

(* ----------------------------------------------------------------- *)
(** *** Calls that end alike *)

(** The same result, or two errors of the same kind: [Unknown field
    operator] on the same operator, or [Unknown node], whose message
    prints the node and so differs between two writings of one query. *)
Definition alike {A} (r r' : outcome A) : Prop :=
  match r, r' with
  | Ok a, Ok a' => a = a'
  | Throw (UnknownFieldOperator op), Throw (UnknownFieldOperator op') =>
      op = op'
  | Throw (UnknownNode _), Throw (UnknownNode _) => True
  | _, _ => False
  end.


(* ----------------------------------------------------------------- *)
(** *** A call in the store of the program

    [toDriveQuery] creates its five arrays when it is called (lines 52-56)
    and hands them to its caller inside [filters] (lines 208-212).  Here
    the arrays live in a store that outlasts the call, so that what one
    call leaves, and what a caller does to the arrays it was given, is
    there when the next call starts. *)

(** The arrays created so far, by address. *)
Definition Store : Type := list (list jsstring).

Definition readArray (h : Store) (a : nat) : list jsstring := nth a h [].

Fixpoint writeArray (h : Store) (a : nat) (arr : list jsstring) : Store :=
  match h, a with
  | [], _ => []
  | _ :: h', O => arr :: h'
  | x :: h', S a' => x :: writeArray h' a' arr
  end.

(** [[]]: an empty array at the next address. *)
Definition newArray (h : Store) : nat * Store := (length h, h ++ [[]]).

(** The constants [nameIncludes] ... [ownerIncludes] of a call: the
    addresses of its arrays. *)
Record Frame : Type := mkFrame {
  nameIncludesAt : nat;
  mimeTypeIncludesAt : nat;
  fullTextIncludesAt : nat;
  parentIdIncludesAt : nat;
  ownerIncludesAt : nat
}.

(** Lines 52-56. *)
Definition newFrame (h : Store) : Frame * Store :=
  let '(a1, h) := newArray h in
  let '(a2, h) := newArray h in
  let '(a3, h) := newArray h in
  let '(a4, h) := newArray h in
  let '(a5, h) := newArray h in
  (mkFrame a1 a2 a3 a4 a5, h).

(** The accumulators as the closures of the call find them: the arrays at
    the addresses of the frame, and the three flag variables. *)
Definition loadAcc (h : Store) (fr : Frame)
    (starredFlag sharedWithMeFlag trashedFlag : option bool) : Acc :=
  mkAcc (readArray h (nameIncludesAt fr))
        (readArray h (mimeTypeIncludesAt fr))
        (readArray h (fullTextIncludesAt fr))
        (readArray h (parentIdIncludesAt fr))
        (readArray h (ownerIncludesAt fr))
        starredFlag sharedWithMeFlag trashedFlag.

(** The store after the closures have pushed onto the arrays of the
    frame: the other arrays are not within their reach. *)
Definition storeAcc (h : Store) (fr : Frame) (st : Acc) : Store :=
  let h := writeArray h (nameIncludesAt fr) (nameIncludes st) in
  let h := writeArray h (mimeTypeIncludesAt fr) (mimeTypeIncludes st) in
  let h := writeArray h (fullTextIncludesAt fr) (fullTextIncludes st) in
  let h := writeArray h (parentIdIncludesAt fr) (parentIdIncludes st) in
  writeArray h (ownerIncludesAt fr) (ownerIncludes st).

Module Ref.
(** The object that the call returns: its [filters] hold the arrays
    themselves, that is, their addresses. *)
Record FiltersObject : Type := mk {
  nameIncludes : option nat;
  mimeTypeIncludes : option nat;
  fullTextIncludes : option nat;
  parentIdIncludes : option nat;
  ownerIncludes : option nat;
  starred : option bool;
  sharedWithMe : option bool;
  trashed : option bool
}.

Definition empty : FiltersObject := mk None None None None None None None None.

Record Output : Type := mkOutput {
  q : jsstring;
  filters : FiltersObject
}.
End Ref.

(** [if (arr.length) filters.f = arr] *)
Definition whenNonEmptyAt (h : Store) (a : nat) : option nat :=
  match readArray h a with [] => None | _ :: _ => Some a end.

(** Lines 207-216. *)
Definition filtersAt (h : Store) (fr : Frame) (st : Acc) : Ref.FiltersObject :=
  Ref.mk (whenNonEmptyAt h (nameIncludesAt fr))
         (whenNonEmptyAt h (mimeTypeIncludesAt fr))
         (whenNonEmptyAt h (fullTextIncludesAt fr))
         (whenNonEmptyAt h (parentIdIncludesAt fr))
         (whenNonEmptyAt h (ownerIncludesAt fr))
         (starredFlag st) (sharedWithMeFlag st) (trashedFlag st).

(** [toDriveQuery] called in the store [h]: what it returns or throws, and
    the store it leaves.  When the call throws, no reference to its arrays
    is left, and what they hold by then is not recorded. *)
Definition toDriveQueryIn (query : DriveQuery) (h : Store)
  : outcome Ref.Output * Store :=
  match query with
  | QString s => (Ok (Ref.mkOutput s Ref.empty), h)
  | QObject n =>
      let '(fr, h0) := newFrame h in
      match emitTop n (loadAcc h0 fr None None None) with
      | Ok (q0, st) =>
          let h1 := storeAcc h0 fr st in
          (Ok (Ref.mkOutput (cleanQuery q0) (filtersAt h1 fr st)), h1)
      | Throw e => (Throw e, h0)
      end
  end.

(** The returned object with its arrays read from the store. *)
Definition readOutput (h : Store) (o : Ref.Output) : Output :=
  let f := Ref.filters o in
  mkOutput (Ref.q o)
    (Filters.mk (option_map (readArray h) (Ref.nameIncludes f))
                (option_map (readArray h) (Ref.mimeTypeIncludes f))
                (option_map (readArray h) (Ref.fullTextIncludes f))
                (option_map (readArray h) (Ref.parentIdIncludes f))
                (option_map (readArray h) (Ref.ownerIncludes f))
                (Ref.starred f) (Ref.sharedWithMe f) (Ref.trashed f)).

(** What the caller sees when the call ends. *)
Definition seenResult (r : outcome Ref.Output * Store) : outcome Output :=
  match fst r with
  | Ok o => Ok (readOutput (snd r) o)
  | Throw e => Throw e
  end.

(** The addresses of the arrays that a returned object holds. *)
Definition arraysOf (o : Ref.Output) : list nat :=
  let f := Ref.filters o in
  flat_map (fun x => match x with Some a => [a] | None => [] end)
    [Ref.nameIncludes f; Ref.mimeTypeIncludes f; Ref.fullTextIncludes f;
     Ref.parentIdIncludes f; Ref.ownerIncludes f].

(** A caller that pushes onto an array it was given. *)
Definition pushAt (h : Store) (a : nat) (v : jsstring) : Store :=
  writeArray h a (push (readArray h a) v).

(* ================================================================= *)
(** ** Induction on query objects *)

Definition optionAll {A} (P : A -> Prop) (o : option A) : Prop :=
  match o with Some a => P a | None => True end.

Section DriveQueryObject_induction.
Variable P : DriveQueryObject -> Prop.
Hypothesis step :
  forall a o nt nm mt ft pid st sh tr md ow raw,
    optionAll (Forall P) a -> optionAll (Forall P) o -> optionAll P nt ->
    P (mkQuery a o nt nm mt ft pid st sh tr md ow raw).

Fixpoint DriveQueryObject_tree_ind (n : DriveQueryObject) : P n :=
  let children :=
    fix children (cs : list DriveQueryObject) : Forall P cs :=
      match cs with
      | [] => Forall_nil P
      | c :: cs' => Forall_cons c (DriveQueryObject_tree_ind c) (children cs')
      end in
  match n with
  | mkQuery a o nt nm mt ft pid st sh tr md ow raw =>
      step a o nt nm mt ft pid st sh tr md ow raw
        (match a return optionAll (Forall P) a with
         | Some cs => children cs
         | None => I
         end)
        (match o return optionAll (Forall P) o with
         | Some cs => children cs
         | None => I
         end)
        (match nt return optionAll P nt with
         | Some c => DriveQueryObject_tree_ind c
         | None => I
         end)
  end.
End DriveQueryObject_induction.

(* ================================================================= *)
(** ** Blank strings *)

Lemma trimStart_app_keeps (s : jsstring) (c : jschar) :
  isWhiteSpace c = false -> trimStart (s ++ [c]) <> [].
Proof.
  intros Hc. induction s as [|x s IH]; simpl.
  - rewrite Hc. discriminate.
  - destruct (isWhiteSpace x); [exact IH | discriminate].
Qed.

Lemma notBlank_cons (c : jschar) (s : jsstring) :
  isWhiteSpace c = false -> notBlank (c :: s) = true.
Proof.
  intros Hc. unfold notBlank, isBlank, trim, trimEnd.
  simpl trimStart. rewrite Hc. simpl rev.
  pose proof (trimStart_app_keeps (rev s) c Hc) as Hne.
  destruct (trimStart (rev s ++ [c])) as [|y t] eqn:E; [contradiction |].
  simpl. destruct (rev t ++ [y]) eqn:E'; [| reflexivity].
  destruct (rev t); discriminate E'.
Qed.

Lemma filter_all {A} (f : A -> bool) (l : list A) :
  forallb f l = true -> filter f l = l.
Proof.
  induction l as [|a l IH]; simpl; [reflexivity |].
  intros H. apply andb_prop in H as [Ha Hl]. rewrite Ha, IH by exact Hl.
  reflexivity.
Qed.

Lemma forallb_filter {A} (f : A -> bool) (l : list A) :
  forallb f (filter f l) = true.
Proof.
  induction l as [|a l IH]; simpl; [reflexivity |].
  destruct (f a) eqn:E; simpl; [rewrite E; exact IH | exact IH].
Qed.

Lemma p_notBlank (s : jsstring) : notBlank (p s) = true.
Proof. apply (notBlank_cons 40%N). reflexivity. Qed.

Lemma chain_notBlank (op : ChainOp) (arr : list jsstring) :
  forallb notBlank arr = true -> arr <> [] -> notBlank (chain op arr) = true.
Proof.
  intros Hall Hne. unfold chain. rewrite (filter_all _ _ Hall).
  destruct arr as [|x [|y rest]]; [contradiction | |].
  - simpl in Hall. rewrite andb_true_r in Hall. exact Hall.
  - apply p_notBlank.
Qed.

(* ================================================================= *)
(** ** Field values and field operators *)

Lemma fv_spec (field : string) (raw : jsstring) (st : Acc) :
  fv field raw st = Ok (fvText field raw, pushField field raw st).
Proof.
  unfold fv, fvText, pushField.
  repeat (match goal with
          | |- context [String.eqb field ?s] =>
              destruct (String.eqb field s); [reflexivity |]
          end).
  reflexivity.
Qed.

Lemma mapM_cons {A B} (f : A -> M B) (a : A) (l : list A) :
  mapM f (a :: l) = (b <- f a ;; bs <- mapM f l ;; ret (b :: bs)).
Proof. reflexivity. Qed.

Lemma mapM_fv_spec (field : string) (values : list jsstring) (st : Acc) :
  mapM (fv field) values st
  = Ok (map (fvText field) values, pushAll field values st).
Proof.
  revert st. induction values as [|v values IH]; intros st.
  - reflexivity.
  - rewrite mapM_cons. unfold bind at 1. rewrite fv_spec.
    unfold bind at 1. rewrite IH. reflexivity.
Qed.

Lemma fieldResults_spec (field : string) (values : list jsstring) (st : Acc) :
  fieldResults field values st
  = Ok (resultsOf field values, pushAll field (filter notBlank values) st).
Proof.
  unfold fieldResults, bind. rewrite mapM_fv_spec. reflexivity.
Qed.

Lemma fieldExpr_spec (field : string) (op : FieldOperator) (st : Acc) :
  fieldExpr field op st
  = match fieldText field op with
    | Some text =>
        Ok (text, pushAll field (filter notBlank (selectedValues op)) st)
    | None => Throw (UnknownFieldOperator op)
    end.
Proof.
  unfold fieldExpr, fieldText, selectedValues.
  destruct op as [[a|] [b|] [c|]]; cbn [any_ all_ none_];
    try (unfold bind; rewrite fieldResults_spec; reflexivity).
  reflexivity.
Qed.

Lemma fieldText_hasOperatorKey (field : string) (op : FieldOperator) :
  hasOperatorKey op = true -> exists text, fieldText field op = Some text.
Proof.
  unfold hasOperatorKey, fieldText.
  destruct op as [[a|] [b|] [c|]]; cbn; intros H;
    try discriminate H; eexists; reflexivity.
Qed.

Lemma fieldText_noOperator (field : string) (op : FieldOperator) :
  hasOperatorKey op = false -> op = noOperator /\ fieldText field op = None.
Proof.
  unfold hasOperatorKey.
  destruct op as [[a|] [b|] [c|]]; cbn; intros H;
    try discriminate H. split; reflexivity.
Qed.

Lemma fvText_notBlank (field : string) (raw : jsstring) :
  In field fieldKeys -> notBlank (fvText field raw) = true.
Proof.
  intros H. simpl in H.
  repeat (destruct H as [<- | H];
          [ (apply (notBlank_cons 110%N); reflexivity)
            || (apply (notBlank_cons 109%N); reflexivity)
            || (apply (notBlank_cons 102%N); reflexivity)
            || (apply (notBlank_cons 39%N); reflexivity) |]).
  contradiction.
Qed.

Lemma resultsOf_all (field : string) (values : list jsstring) :
  In field fieldKeys ->
  resultsOf field values = map (fvText field) (filter notBlank values).
Proof.
  intros H. unfold resultsOf. apply filter_all.
  induction (filter notBlank values) as [|v l IH]; simpl; [reflexivity |].
  rewrite (fvText_notBlank field v H). exact IH.
Qed.

Lemma resultsOf_notBlank (field : string) (values : list jsstring) :
  forallb notBlank (resultsOf field values) = true.
Proof. apply forallb_filter. Qed.

Lemma existsb_filter_nonempty {A} (f : A -> bool) (l : list A) :
  existsb f l = true -> filter f l <> [].
Proof.
  induction l as [|a l IH]; simpl; [discriminate |].
  destruct (f a); [discriminate | exact IH].
Qed.

Lemma existsb_filter {A} (f : A -> bool) (l : list A) :
  existsb f (filter f l) = existsb f l.
Proof.
  induction l as [|a l IH]; simpl; [reflexivity |].
  destruct (f a) eqn:E; simpl; [rewrite E; reflexivity | exact IH].
Qed.

(** A field with a value that is not blank yields a fragment that is not
    blank. *)
Lemma fieldText_notBlank (field : string) (op : FieldOperator) (text : jsstring) :
  In field fieldKeys ->
  existsb notBlank (selectedValues op) = true ->
  fieldText field op = Some text -> notBlank text = true.
Proof.
  intros Hf Hex Htext.
  assert (Hres : forall values, existsb notBlank values = true ->
                 resultsOf field values <> []).
  { intros values Hv. rewrite (resultsOf_all field values Hf).
    pose proof (existsb_filter_nonempty _ _ Hv) as Hne.
    destruct (filter notBlank values); [contradiction | discriminate]. }
  assert (Hlen : forall values, resultsOf field values <> [] ->
                 (0 <? length (resultsOf field values)) = true).
  { intros values Hne. destruct (resultsOf field values);
      [contradiction | reflexivity]. }
  unfold fieldText, selectedValues in *.
  destruct op as [[a|] [b|] [c|]]; cbn [any_ all_ none_] in *;
    try discriminate Hex;
    injection Htext as <-;
    rewrite (Hlen _ (Hres _ Hex));
    try (apply chain_notBlank;
         [apply resultsOf_notBlank | apply Hres; exact Hex]);
    apply (notBlank_cons 110%N); reflexivity.
Qed.

(* ================================================================= *)
(** ** One step of the recursive definitions *)

Lemma emit_eq (n : DriveQueryObject) :
  emit n
  = match and_ n with
    | Some children =>
        parts <- mapM emit children ;; ret (p (join (lit " and ") parts))
    | None =>
    match or_ n with
    | Some children =>
        parts <- mapM emit children ;; ret (p (join (lit " or ") parts))
    | None =>
    match not_ n with
    | Some child => s <- emit child ;; ret (lit "not " ++ s)
    | None => emitLeaf n
    end end end.
Proof. destruct n; reflexivity. Qed.

Lemma referenced_eq (k : string) (n : DriveQueryObject) :
  referenced k n
  = match and_ n with
    | Some children => flat_map (referenced k) children
    | None =>
    match or_ n with
    | Some children => flat_map (referenced k) children
    | None =>
    match not_ n with
    | Some child => referenced k child
    | None => compiledValues (lookupField k n)
    end end end.
Proof. destruct n; reflexivity. Qed.

Lemma compilable_eq (n : DriveQueryObject) :
  compilable n
  = match and_ n with
    | Some children => forallb compilable children
    | None =>
    match or_ n with
    | Some children => forallb compilable children
    | None =>
    match not_ n with
    | Some child => compilable child
    | None => leafCompilable n
    end end end.
Proof. destruct n; reflexivity. Qed.

(* ================================================================= *)
(** ** What a compilation adds to the accumulators *)

Lemma noKeys_lookupField (n : DriveQueryObject) (k : string) :
  noKeys n = true -> lookupField k n = None.
Proof.
  intros H. destruct n as [a o nt nm mt ft pid sr sh tr md ow raw].
  unfold noKeys in H. cbn in H.
  destruct a; [discriminate H |]. destruct o; [discriminate H |].
  destruct nt; [discriminate H |]. destruct nm; [discriminate H |].
  destruct mt; [discriminate H |]. destruct ft; [discriminate H |].
  destruct pid; [discriminate H |]. destruct sr; [discriminate H |].
  destruct sh; [discriminate H |]. destruct tr; [discriminate H |].
  destruct md; [discriminate H |]. destruct ow; [discriminate H |].
  unfold lookupField. cbn.
  repeat match goal with
         | |- context [if ?c then _ else _] => destruct c
         end; reflexivity.
Qed.

Lemma fieldKeys_in : Forall (fun k => In k fieldKeys) fieldKeys.
Proof. apply Forall_forall. intros k H. exact H. Qed.

Section Includes.
(** The field whose accumulator is followed. *)
Variable k' : string.
Hypothesis Hk' : In k' fieldKeys.

Lemma includesOf_pushField (k : string) (v : jsstring) (st : Acc) :
  In k fieldKeys ->
  includesOf k' (pushField k v st)
  = includesOf k' st ++ (if String.eqb k' k then [v] else []).
Proof.
  intros Hk. pose proof Hk' as H'. simpl in H', Hk. destruct st.
  repeat (destruct H' as [<- | H'];
          [ repeat (destruct Hk as [<- | Hk];
                    [cbn; rewrite ?app_nil_r; reflexivity |]);
            contradiction |]).
  contradiction.
Qed.

Lemma includesOf_pushAll (k : string) (values : list jsstring) (st : Acc) :
  In k fieldKeys ->
  includesOf k' (pushAll k values st)
  = includesOf k' st ++ (if String.eqb k' k then values else []).
Proof.
  intros Hk. revert st. induction values as [|v values IH]; intros st.
  - simpl. destruct (String.eqb k' k); rewrite app_nil_r; reflexivity.
  - change (pushAll k (v :: values) st)
      with (pushAll k values (pushField k v st)).
    rewrite IH, (includesOf_pushField k v st Hk).
    destruct (String.eqb k' k); rewrite <- app_assoc; reflexivity.
Qed.

Lemma includesOf_setStarred (b : bool) (st : Acc) :
  includesOf k' (setStarred b st) = includesOf k' st.
Proof. destruct st. reflexivity. Qed.

Lemma includesOf_setSharedWithMe (b : bool) (st : Acc) :
  includesOf k' (setSharedWithMe b st) = includesOf k' st.
Proof. destruct st. reflexivity. Qed.

Lemma includesOf_setTrashed (b : bool) (st : Acc) :
  includesOf k' (setTrashed b st) = includesOf k' st.
Proof. destruct st. reflexivity. Qed.

Lemma fieldLoop_includes (n : DriveQueryObject) (keys : list string) :
  Forall (fun k => In k fieldKeys) keys ->
  forall ex st ex' st',
    fieldLoop n keys ex st = Ok (ex', st') ->
    includesOf k' st'
    = includesOf k' st
      ++ flat_map (fun k => if String.eqb k' k
                            then compiledValues (lookupField k n) else [])
           keys.
Proof.
  induction 1 as [|k keys Hk Hkeys IH]; intros ex st ex' st' H.
  - injection H as _ <-. rewrite app_nil_r. reflexivity.
  - cbn [fieldLoop flat_map] in H |- *.
    destruct (lookupField k n) as [v|].
    + unfold bind in H. rewrite fieldExpr_spec in H.
      destruct (fieldText k (normalizedOp v)); [| discriminate H].
      apply IH in H. rewrite H, (includesOf_pushAll k _ st Hk).
      cbn [compiledValues].
      destruct (String.eqb k' k); rewrite <- app_assoc; reflexivity.
    + apply IH in H. rewrite H. cbn [compiledValues].
      destruct (String.eqb k' k); reflexivity.
Qed.

Lemma flat_map_fieldKeys (n : DriveQueryObject) :
  flat_map (fun k => if String.eqb k' k
                     then compiledValues (lookupField k n) else [])
    fieldKeys
  = compiledValues (lookupField k' n).
Proof.
  pose proof Hk' as H'. simpl in H'.
  repeat (destruct H' as [<- | H'];
          [cbn; rewrite ?app_nil_r; reflexivity |]).
  contradiction.
Qed.

Lemma leafExpressions_includes (n : DriveQueryObject) :
  forall st ex st',
    leafExpressions n st = Ok (ex, st') ->
    includesOf k' st' = includesOf k' st ++ compiledValues (lookupField k' n).
Proof.
  intros st ex st' H. unfold leafExpressions in H.
  destruct (starred n), (sharedWithMe n), (trashed n);
    cbv beta iota delta [bind modify ret] in H;
    apply (fieldLoop_includes n fieldKeys fieldKeys_in) in H;
    rewrite H, flat_map_fieldKeys;
    rewrite ?includesOf_setTrashed, ?includesOf_setSharedWithMe,
      ?includesOf_setStarred;
    reflexivity.
Qed.

Lemma emitLeaf_includes (n : DriveQueryObject) :
  forall st s st',
    emitLeaf n st = Ok (s, st') ->
    includesOf k' st' = includesOf k' st ++ compiledValues (lookupField k' n).
Proof.
  intros st s st' H. unfold emitLeaf, bind in H.
  destruct (leafExpressions n st) as [[ex st1]|e] eqn:E; [| discriminate H].
  apply leafExpressions_includes in E. rewrite <- E. f_equal.
  repeat match type of H with
         | (if ?c then _ else _) _ = _ => destruct c
         end;
    try discriminate H; injection H as _ <-; reflexivity.
Qed.

Lemma mapM_emit_includes (children : list DriveQueryObject) :
  Forall (emitAdds k') children ->
  forall st parts st',
    mapM emit children st = Ok (parts, st') ->
    includesOf k' st'
    = includesOf k' st ++ flat_map (referenced k') children.
Proof.
  induction 1 as [|c children Hc Hcs IH]; intros st parts st' H.
  - injection H as _ <-. rewrite app_nil_r. reflexivity.
  - rewrite mapM_cons in H. unfold bind at 1 in H.
    destruct (emit c st) as [[s st1]|e] eqn:E; [| discriminate H].
    unfold bind at 1 in H.
    destruct (mapM emit children st1) as [[ss st2]|e] eqn:E2;
      [| discriminate H].
    injection H as _ <-.
    rewrite (IH _ _ _ E2), (Hc _ _ _ E). cbn [flat_map].
    rewrite app_assoc. reflexivity.
Qed.

Lemma emit_includes (n : DriveQueryObject) : emitAdds k' n.
Proof.
  induction n as [a o nt nm mt ft pid sr sh tr md ow raw Ha Ho Hnt]
    using DriveQueryObject_tree_ind.
  intros st s st' H. rewrite emit_eq in H. rewrite referenced_eq.
  cbn [and_ or_ not_] in H |- *.
  destruct a as [cs|]; [| destruct o as [cs|]; [| destruct nt as [c|]]].
  - unfold bind in H.
    destruct (mapM emit cs st) as [[parts st1]|e] eqn:E; [| discriminate H].
    injection H as _ <-. exact (mapM_emit_includes cs Ha _ _ _ E).
  - unfold bind in H.
    destruct (mapM emit cs st) as [[parts st1]|e] eqn:E; [| discriminate H].
    injection H as _ <-. exact (mapM_emit_includes cs Ho _ _ _ E).
  - unfold bind in H.
    destruct (emit c st) as [[s1 st1]|e] eqn:E; [| discriminate H].
    injection H as _ <-. exact (Hnt _ _ _ E).
  - exact (emitLeaf_includes _ _ _ _ H).
Qed.

Lemma noKeys_referenced (n : DriveQueryObject) :
  noKeys n = true -> referenced k' n = [].
Proof.
  intros H. rewrite referenced_eq.
  rewrite (noKeys_lookupField n k' H).
  destruct n as [[a|] [o|] [nt|] nm mt ft pid sr sh tr md ow raw];
    try discriminate H; reflexivity.
Qed.

Lemma emit_children_includes (children : list DriveQueryObject) :
  Forall (emitAdds k') children.
Proof. apply Forall_forall. intros c _. apply emit_includes. Qed.

Lemma emitTop_includes (n : DriveQueryObject) :
  forall st s st',
    emitTop n st = Ok (s, st') ->
    includesOf k' st' = includesOf k' st ++ referenced k' n.
Proof.
  intros st s st' H. unfold emitTop in H.
  destruct (noKeys n) eqn:Hkeys.
  - injection H as _ <-. rewrite (noKeys_referenced n Hkeys), app_nil_r.
    reflexivity.
  - rewrite referenced_eq.
    destruct (and_ n) as [cs|] eqn:Ea;
      [| destruct (or_ n) as [cs|] eqn:Eo;
         [| destruct (not_ n) as [c|] eqn:En]];
      unfold bind in H.
    + destruct (mapM emit cs st) as [[parts st1]|e] eqn:E; [| discriminate H].
      injection H as _ <-.
      exact (mapM_emit_includes cs (emit_children_includes cs) _ _ _ E).
    + destruct (mapM emit cs st) as [[parts st1]|e] eqn:E; [| discriminate H].
      injection H as _ <-.
      exact (mapM_emit_includes cs (emit_children_includes cs) _ _ _ E).
    + destruct (emit c st) as [[s1 st1]|e] eqn:E; [| discriminate H].
      injection H as _ <-. exact (emit_includes c _ _ _ E).
    + destruct (emit n st) as [[r st1]|e] eqn:E; [| discriminate H].
      injection H as _ <-.
      pose proof (emit_includes n _ _ _ E) as Hn.
      rewrite referenced_eq, Ea, Eo, En in Hn. exact Hn.
Qed.
End Includes.

(* ================================================================= *)
(** ** When the compiler returns and when it throws *)

Lemma length_push {A} (arr : list A) (x : A) :
  length (push arr x) = S (length arr).
Proof. unfold push. rewrite length_app. simpl. lia. Qed.

Lemma fieldLoop_ok (n : DriveQueryObject) (keys : list string) :
  Forall (fun k => In k fieldKeys) keys ->
  forallb (fun k => fieldHasKey (lookupField k n)) keys = true ->
  forall ex st, exists ex' st',
    fieldLoop n keys ex st = Ok (ex', st')
    /\ length ex <= length ex'
    /\ (existsb (fun k => fieldYields (lookupField k n)) keys = true ->
        1 <= length ex').
Proof.
  induction 1 as [|k keys Hk Hkeys IH]; intros Hall ex st.
  - exists ex, st. split; [reflexivity | split; [lia | discriminate]].
  - cbn [forallb] in Hall. apply andb_prop in Hall as [Hhead Hrest].
    cbn [fieldLoop existsb].
    destruct (lookupField k n) as [v|].
    + cbn [fieldHasKey optional] in Hhead.
      destruct (fieldText_hasOperatorKey k _ Hhead) as [text Htext].
      unfold bind. rewrite fieldExpr_spec, Htext.
      destruct (IH Hrest (if notBlank text then push ex text else ex)
                  (pushAll k (filter notBlank (selectedValues (normalizedOp v))) st))
        as (ex' & st' & E & Hlen & Hy).
      exists ex', st'. split; [exact E |].
      assert (Hgrow : length ex
                      <= length (if notBlank text then push ex text else ex)).
      { destruct (notBlank text); [rewrite length_push |]; lia. }
      split; [lia |].
      intros Hc. apply orb_prop in Hc as [Hc | Hc]; [| exact (Hy Hc)].
      unfold fieldYields in Hc. cbn [compiledValues] in Hc.
      rewrite existsb_filter in Hc.
      rewrite (fieldText_notBlank k _ text Hk Hc Htext), length_push in Hlen.
      lia.
    + destruct (IH Hrest ex st) as (ex' & st' & E & Hlen & Hy).
      exists ex', st'. split; [exact E | split; [exact Hlen |]].
      intros Hc. apply orb_prop in Hc as [Hc | Hc];
        [discriminate Hc | exact (Hy Hc)].
Qed.

Lemma leafExpressions_ok (n : DriveQueryObject) :
  forallb (fun k => fieldHasKey (lookupField k n)) fieldKeys = true ->
  forall st, exists ex st',
    leafExpressions n st = Ok (ex, st')
    /\ (isSome (starred n) || isSome (sharedWithMe n) || isSome (trashed n)
        || isSome (modifiedTime n)
        || existsb (fun k => fieldYields (lookupField k n)) fieldKeys = true ->
        1 <= length ex).
Proof.
  intros Hall st. unfold leafExpressions.
  destruct (starred n), (sharedWithMe n), (trashed n), (modifiedTime n);
    cbv beta iota delta [bind modify ret];
    match goal with
    | |- context [fieldLoop n fieldKeys ?ex ?st0] =>
        destruct (fieldLoop_ok n fieldKeys fieldKeys_in Hall ex st0)
          as (ex' & st' & E & Hlen & Hy)
    end;
    rewrite E; exists ex', st'; (split; [reflexivity |]); intros Hc;
    rewrite ?length_push in Hlen;
    first [lia | exact (Hy Hc)].
Qed.

Lemma emitLeaf_ok (n : DriveQueryObject) :
  leafCompilable n = true ->
  forall st, exists s st', emitLeaf n st = Ok (s, st').
Proof.
  unfold leafCompilable. intros H st.
  apply andb_prop in H as [Hall Hsome].
  destruct (leafExpressions_ok n Hall st) as (ex & st' & E & Hlen).
  unfold emitLeaf, bind. rewrite E.
  destruct (noKeys n) eqn:Hnk.
  - destruct ex as [|x [|y ex]]; eexists; eexists; reflexivity.
  - cbn [orb] in Hsome. specialize (Hlen Hsome).
    destruct ex as [|x [|y ex]]; [simpl in Hlen; lia | |];
      eexists; eexists; reflexivity.
Qed.

Lemma mapM_emit_ok (children : list DriveQueryObject) :
  Forall emitReturns children ->
  forallb compilable children = true ->
  forall st, exists parts st', mapM emit children st = Ok (parts, st').
Proof.
  induction 1 as [|c children Hc Hcs IH]; intros Hall st.
  - eexists; eexists; reflexivity.
  - cbn [forallb] in Hall. apply andb_prop in Hall as [Hhead Hrest].
    destruct (Hc Hhead st) as (s & st1 & E).
    destruct (IH Hrest st1) as (ss & st2 & E2).
    rewrite mapM_cons. unfold bind. rewrite E, E2.
    eexists; eexists; reflexivity.
Qed.

Lemma emit_ok (n : DriveQueryObject) : emitReturns n.
Proof.
  induction n as [a o nt nm mt ft pid sr sh tr md ow raw Ha Ho Hnt]
    using DriveQueryObject_tree_ind.
  intros H st. rewrite compilable_eq in H. rewrite emit_eq.
  cbn [and_ or_ not_] in H |- *.
  destruct a as [cs|]; [| destruct o as [cs|]; [| destruct nt as [c|]]].
  - destruct (mapM_emit_ok cs Ha H st) as (parts & st' & E).
    unfold bind. rewrite E. eexists; eexists; reflexivity.
  - destruct (mapM_emit_ok cs Ho H st) as (parts & st' & E).
    unfold bind. rewrite E. eexists; eexists; reflexivity.
  - destruct (Hnt H st) as (s & st' & E).
    unfold bind. rewrite E. eexists; eexists; reflexivity.
  - exact (emitLeaf_ok _ H st).
Qed.

Lemma emit_children_ok (children : list DriveQueryObject) :
  Forall emitReturns children.
Proof. apply Forall_forall. intros c _. apply emit_ok. Qed.

Lemma emitTop_ok (n : DriveQueryObject) :
  compilable n = true ->
  forall st, exists s st', emitTop n st = Ok (s, st').
Proof.
  intros H st. unfold emitTop.
  destruct (noKeys n); [eexists; eexists; reflexivity |].
  rewrite compilable_eq in H.
  destruct (and_ n) as [cs|] eqn:Ea;
    [| destruct (or_ n) as [cs|] eqn:Eo; [| destruct (not_ n) as [c|] eqn:En]].
  - destruct (mapM_emit_ok cs (emit_children_ok cs) H st) as (parts & st' & E).
    unfold bind. rewrite E. eexists; eexists; reflexivity.
  - destruct (mapM_emit_ok cs (emit_children_ok cs) H st) as (parts & st' & E).
    unfold bind. rewrite E. eexists; eexists; reflexivity.
  - destruct (emit_ok c H st) as (s & st' & E).
    unfold bind. rewrite E. eexists; eexists; reflexivity.
  - assert (Hn : compilable n = true).
    { rewrite compilable_eq, Ea, Eo, En. exact H. }
    destruct (emit_ok n Hn st) as (s & st' & E).
    unfold bind. rewrite E. eexists; eexists; reflexivity.
Qed.

Lemma fieldLoop_throws (n : DriveQueryObject) (keys : list string) :
  existsb (fun k => negb (fieldHasKey (lookupField k n))) keys = true ->
  forall ex st,
    fieldLoop n keys ex st = Throw (UnknownFieldOperator noOperator).
Proof.
  induction keys as [|k keys IH]; [discriminate |].
  cbn [existsb fieldLoop]. intros H ex st.
  destruct (lookupField k n) as [v|].
  - cbn [fieldHasKey optional] in H. unfold bind. rewrite fieldExpr_spec.
    destruct (hasOperatorKey (normalizedOp v)) eqn:Hkey.
    + destruct (fieldText_hasOperatorKey k _ Hkey) as [text ->].
      apply IH. exact H.
    + destruct (fieldText_noOperator k _ Hkey) as [-> ->]. reflexivity.
  - apply IH. exact H.
Qed.

Lemma emitLeaf_throws (n : DriveQueryObject) :
  hasKeylessOperator n = true ->
  forall st, emitLeaf n st = Throw (UnknownFieldOperator noOperator).
Proof.
  intros H st. unfold emitLeaf, bind, leafExpressions.
  destruct (starred n), (sharedWithMe n), (trashed n);
    cbv beta iota delta [bind modify ret];
    rewrite (fieldLoop_throws n fieldKeys H); reflexivity.
Qed.

Lemma hasKeylessOperator_noKeys (n : DriveQueryObject) :
  hasKeylessOperator n = true -> noKeys n = false.
Proof.
  intros H. destruct (noKeys n) eqn:Hnk; [| reflexivity].
  unfold hasKeylessOperator in H.
  assert (Hnone : forall keys,
            existsb (fun k => negb (fieldHasKey (lookupField k n))) keys
            = false).
  { induction keys as [|k keys IH]; [reflexivity |].
    cbn [existsb]. rewrite (noKeys_lookupField n k Hnk), IH. reflexivity. }
  rewrite Hnone in H. discriminate H.
Qed.

(* ================================================================= *)
(** ** Nodes that are read alike *)

Lemma returned_bind {A B} (c c' : M A) (k : A -> M B) (st : Acc) :
  returned (c st) = returned (c' st) ->
  returned (bind c k st) = returned (bind c' k st).
Proof.
  unfold bind. destruct (c st) as [[a st1]|e], (c' st) as [[a' st1']|e'];
    simpl; intros H; try discriminate H; [| reflexivity].
  injection H as <- <-. reflexivity.
Qed.

Section SameReading.
Variables n n' : DriveQueryObject.
Hypothesis Hsame : sameReading n n'.

Lemma fieldLoop_sameReading (keys : list string) :
  forall ex st, fieldLoop n keys ex st = fieldLoop n' keys ex st.
Proof.
  destruct Hsame as (_ & _ & _ & _ & _ & _ & _ & Hlook & _).
  induction keys as [|k keys IH]; intros ex st; [reflexivity |].
  cbn [fieldLoop]. specialize (Hlook k). unfold sameField in Hlook.
  destruct (lookupField k n) as [v|], (lookupField k n') as [v'|];
    try contradiction.
  - unfold bind. rewrite Hlook.
    destruct (fieldExpr k (normalizedOp v') st) as [[r st1]|e];
      [apply IH | reflexivity].
  - apply IH.
Qed.

Lemma leafExpressions_sameReading (st : Acc) :
  leafExpressions n st = leafExpressions n' st.
Proof.
  unfold leafExpressions.
  destruct Hsame as (_ & _ & _ & <- & <- & <- & <- & _ & _).
  destruct (starred n), (sharedWithMe n), (trashed n), (modifiedTime n);
    cbv beta iota delta [bind modify ret];
    apply fieldLoop_sameReading.
Qed.

Lemma emitLeaf_sameReading (st : Acc) :
  returned (emitLeaf n st) = returned (emitLeaf n' st).
Proof.
  unfold emitLeaf, bind. rewrite leafExpressions_sameReading.
  destruct Hsame as (_ & _ & _ & _ & _ & _ & _ & _ & <-).
  destruct (leafExpressions n' st) as [[ex st1]|e]; [| reflexivity].
  repeat match goal with
         | |- context [if ?c then _ else _] => destruct c
         end; reflexivity.
Qed.

Lemma emit_sameReading (st : Acc) :
  returned (emit n st) = returned (emit n' st).
Proof.
  rewrite (emit_eq n), (emit_eq n').
  pose proof emitLeaf_sameReading as Hleaf.
  destruct Hsame as (<- & <- & <- & _).
  destruct (and_ n); [reflexivity |].
  destruct (or_ n); [reflexivity |].
  destruct (not_ n); [reflexivity |].
  apply Hleaf.
Qed.

Lemma emitTop_sameReading (st : Acc) :
  returned (emitTop n st) = returned (emitTop n' st).
Proof.
  unfold emitTop.
  pose proof emit_sameReading as Hemit.
  destruct Hsame as (<- & <- & <- & _ & _ & _ & _ & _ & <-).
  destruct (noKeys n); [reflexivity |].
  destruct (and_ n); [reflexivity |].
  destruct (or_ n); [reflexivity |].
  destruct (not_ n); [reflexivity |].
  apply returned_bind. apply Hemit.
Qed.

Lemma toDriveQuery_sameReading :
  returned (toDriveQuery (QObject n)) = returned (toDriveQuery (QObject n')).
Proof.
  unfold toDriveQuery. pose proof (emitTop_sameReading freshAcc) as H.
  destruct (emitTop n freshAcc) as [[q0 st]|e],
           (emitTop n' freshAcc) as [[q0' st']|e'];
    simpl in H; try discriminate H; [| reflexivity].
  injection H as <- <-. reflexivity.
Qed.
End SameReading.

Lemma sameField_refl (k : string) (o : option FieldValue) : sameField k o o.
Proof. destruct o; simpl; [reflexivity | exact I]. Qed.

Lemma setField_sameReading (f : string) (v v' : FieldValue)
    (n : DriveQueryObject) :
  (forall k st, fieldExpr k (normalizedOp v) st
                = fieldExpr k (normalizedOp v') st) ->
  sameReading (setField f v n) (setField f v' n).
Proof.
  intros Hv. destruct n as [a o nt nm mt ft pid sr sh tr md ow raw].
  unfold setField.
  repeat match goal with
         | |- context [String.eqb f ?s] => destruct (String.eqb f s)
         end;
    repeat split; try reflexivity;
    intros k; unfold lookupField; cbn;
    repeat match goal with
           | |- context [String.eqb k ?s] => destruct (String.eqb k s)
           end;
    first [exact (Hv k) | apply sameField_refl | exact I].
Qed.

Lemma withoutRaw_sameReading (n : DriveQueryObject) :
  noKeys (withoutRaw n) = false -> sameReading n (withoutRaw n).
Proof.
  intros H. destruct n as [a o nt nm mt ft pid sr sh tr md ow raw].
  repeat split; try reflexivity.
  - intros k. apply sameField_refl.
  - rewrite H. unfold noKeys, withoutRaw in *. cbn in *.
    rewrite orb_false_r in H. apply negb_false_iff in H. rewrite H.
    reflexivity.
Qed.


(* ================================================================= *)
(** ** The accumulators are written, never read *)

Lemma accBlind_ret {A} (a : A) : accBlind (ret a).
Proof. intros st1 st2. reflexivity. Qed.

Lemma accBlind_throw {A} (e : Error) : accBlind (@throw A e).
Proof. intros st1 st2. reflexivity. Qed.

Lemma accBlind_modify (f : Acc -> Acc) : accBlind (modify f).
Proof. intros st1 st2. reflexivity. Qed.

Lemma accBlind_bind {A B} (c : M A) (k : A -> M B) :
  accBlind c -> (forall a, accBlind (k a)) -> accBlind (bind c k).
Proof.
  intros Hc Hk st1 st2. unfold bind. specialize (Hc st1 st2).
  destruct (c st1) as [[a s1]|e], (c st2) as [[a' s2]|e'];
    simpl in Hc; try discriminate Hc.
  - injection Hc as <-. apply Hk.
  - injection Hc as <-. reflexivity.
Qed.

Lemma accBlind_mapM {A B} (f : A -> M B) (l : list A) :
  Forall (fun a => accBlind (f a)) l -> accBlind (mapM f l).
Proof.
  induction 1 as [|a l Ha Hl IH].
  - apply accBlind_ret.
  - rewrite mapM_cons. apply accBlind_bind; [exact Ha |].
    intros b. apply accBlind_bind; [exact IH |].
    intros bs. apply accBlind_ret.
Qed.

Lemma accBlind_fieldExpr (field : string) (op : FieldOperator) :
  accBlind (fieldExpr field op).
Proof.
  intros st1 st2. rewrite !fieldExpr_spec.
  destruct (fieldText field op); reflexivity.
Qed.

Lemma accBlind_fieldLoop (n : DriveQueryObject) (keys : list string) :
  forall ex, accBlind (fieldLoop n keys ex).
Proof.
  induction keys as [|k keys IH]; intros ex; cbn [fieldLoop].
  - apply accBlind_ret.
  - destruct (lookupField k n) as [v|]; [| apply IH].
    apply accBlind_bind; [apply accBlind_fieldExpr |].
    intros result. apply IH.
Qed.

Lemma accBlind_leafExpressions (n : DriveQueryObject) :
  accBlind (leafExpressions n).
Proof.
  unfold leafExpressions.
  repeat (apply accBlind_bind;
          [ match goal with
            | |- accBlind (match ?o with _ => _ end) => destruct o
            end;
            [ apply accBlind_bind; [apply accBlind_modify |];
              intros _; apply accBlind_ret
            | apply accBlind_ret ]
          | intros ? ]).
  apply accBlind_fieldLoop.
Qed.

Lemma accBlind_emitLeaf (n : DriveQueryObject) : accBlind (emitLeaf n).
Proof.
  unfold emitLeaf. apply accBlind_bind; [apply accBlind_leafExpressions |].
  intros ex.
  repeat match goal with
         | |- context [if ?c then _ else _] => destruct c
         end; apply accBlind_ret || apply accBlind_throw.
Qed.

Lemma accBlind_emit (n : DriveQueryObject) : accBlind (emit n).
Proof.
  induction n as [a o nt nm mt ft pid sr sh tr md ow raw Ha Ho Hnt]
    using DriveQueryObject_tree_ind.
  rewrite emit_eq. cbn [and_ or_ not_].
  destruct a as [cs|]; [| destruct o as [cs|]; [| destruct nt as [c|]]].
  - apply accBlind_bind; [apply accBlind_mapM; exact Ha |].
    intros parts. apply accBlind_ret.
  - apply accBlind_bind; [apply accBlind_mapM; exact Ho |].
    intros parts. apply accBlind_ret.
  - apply accBlind_bind; [exact Hnt |]. intros s. apply accBlind_ret.
  - apply accBlind_emitLeaf.
Qed.

Lemma accBlind_emit_children (children : list DriveQueryObject) :
  accBlind (mapM emit children).
Proof.
  apply accBlind_mapM, Forall_forall. intros c _. apply accBlind_emit.
Qed.

Lemma accBlind_emitTop (n : DriveQueryObject) : accBlind (emitTop n).
Proof.
  unfold emitTop. destruct (noKeys n); [apply accBlind_ret |].
  destruct (and_ n) as [cs|]; [| destruct (or_ n) as [cs|];
                                 [| destruct (not_ n) as [c|]]];
    (apply accBlind_bind;
     [first [apply accBlind_emit_children | apply accBlind_emit] |]);
    intros ?; apply accBlind_ret.
Qed.

(* ================================================================= *)
(** ** Nodes with a combinator; fresh accumulators *)

Lemma emit_combinatorsOnly (n : DriveQueryObject) :
  hasCombinator n = true -> emit n = emit (combinatorsOnly n).
Proof.
  destruct n as [[cs|] [cs'|] [c|] nm mt ft pid st sh tr md ow raw];
    intros H; try discriminate H; reflexivity.
Qed.

Lemma emitTop_combinatorsOnly (n : DriveQueryObject) :
  hasCombinator n = true -> emitTop n = emitTop (combinatorsOnly n).
Proof.
  destruct n as [[cs|] [cs'|] [c|] nm mt ft pid st sh tr md ow raw];
    intros H; try discriminate H; reflexivity.
Qed.

Lemma includesOf_freshAcc (k : string) : includesOf k freshAcc = [].
Proof.
  unfold includesOf.
  repeat match goal with
         | |- context [if ?c then _ else _] => destruct c
         end; reflexivity.
Qed.

(* ================================================================= *)
(** ** The [rawDriveQuery] key is not read *)

Lemma isSome_option_map {A B} (f : A -> B) (o : option A) :
  isSome (option_map f o) = isSome o.
Proof. destruct o; reflexivity. Qed.

Lemma mapThrown_bind {A B} (g : Error -> Error) (c c' : M A)
    (k k' : A -> M B) (st : Acc) :
  c' st = mapThrown g (c st) ->
  (forall a st1, k' a st1 = mapThrown g (k a st1)) ->
  bind c' k' st = mapThrown g (bind c k st).
Proof.
  intros Hc Hk. unfold bind. rewrite Hc.
  destruct (c st) as [[a st1]|e]; cbn [mapThrown]; [apply Hk | reflexivity].
Qed.

Lemma fieldLoop_throws_operator (n : DriveQueryObject) (keys : list string) :
  forall ex st e,
    fieldLoop n keys ex st = Throw e -> exists op, e = UnknownFieldOperator op.
Proof.
  induction keys as [|k keys IH]; intros ex st e H; [discriminate H |].
  cbn [fieldLoop] in H. destruct (lookupField k n) as [v|].
  - unfold bind in H. rewrite fieldExpr_spec in H.
    destruct (fieldText k (normalizedOp v)) as [text|].
    + exact (IH _ _ _ H).
    + injection H as <-. eexists. reflexivity.
  - exact (IH _ _ _ H).
Qed.

Lemma leafExpressions_throws_operator (n : DriveQueryObject) (st : Acc)
    (e : Error) :
  leafExpressions n st = Throw e -> exists op, e = UnknownFieldOperator op.
Proof.
  unfold leafExpressions.
  destruct (starred n), (sharedWithMe n), (trashed n), (modifiedTime n);
    cbv beta iota zeta delta [bind modify ret];
    apply fieldLoop_throws_operator.
Qed.

Section MapRaw.
Variable edit : DriveQueryObject -> option jsstring.
Hypothesis Hkept : rawKept edit.

Lemma noKeys_mapRaw (n : DriveQueryObject) :
  noKeys (mapRaw edit n) = noKeys n.
Proof.
  pose proof (Hkept n) as H.
  destruct n as [a o nt nm mt ft pid sr sh tr md ow raw].
  unfold noKeys, withoutRaw in *.
  cbn [mapRaw and_ or_ not_ name mimeType fullText parentId starred
       sharedWithMe trashed modifiedTime owner rawDriveQuery] in *.
  rewrite !isSome_option_map.
  cbn [isSome] in H. rewrite orb_false_r in H.
  destruct (isSome a || isSome o || isSome nt || isSome nm || isSome mt
            || isSome ft || isSome pid || isSome sr || isSome sh
            || isSome tr || isSome md || isSome ow) eqn:E.
  - reflexivity.
  - cbn [orb negb] in H |- *. rewrite (H eq_refl). reflexivity.
Qed.

Lemma sameReading_mapRaw (n : DriveQueryObject) :
  hasCombinator n = false -> sameReading n (mapRaw edit n).
Proof.
  intros Hc. pose proof (noKeys_mapRaw n) as Hk.
  destruct n as [[cs|] [cs'|] [c|] nm mt ft pid sr sh tr md ow raw];
    try discriminate Hc.
  repeat split; try reflexivity.
  - intros k. apply sameField_refl.
  - symmetry. exact Hk.
Qed.

Lemma emitLeaf_mapRaw (n : DriveQueryObject) (st : Acc) :
  hasCombinator n = false ->
  emitLeaf (mapRaw edit n) st = mapThrown (rawError edit) (emitLeaf n st).
Proof.
  intros Hc. unfold emitLeaf, bind.
  rewrite <- (leafExpressions_sameReading n (mapRaw edit n)
                (sameReading_mapRaw n Hc) st).
  rewrite noKeys_mapRaw.
  destruct (leafExpressions n st) as [[ex st1]|e] eqn:E.
  - repeat match goal with
           | |- context [if ?c then _ else _] => destruct c
           end; reflexivity.
  - destruct (leafExpressions_throws_operator n st e E) as [op ->].
    reflexivity.
Qed.

Lemma mapM_emit_mapRaw (children : list DriveQueryObject) :
  Forall (fun c => forall st,
              emit (mapRaw edit c) st
              = mapThrown (rawError edit) (emit c st)) children ->
  forall st,
    mapM emit (map (mapRaw edit) children) st
    = mapThrown (rawError edit) (mapM emit children st).
Proof.
  induction 1 as [|c children Hc Hcs IH]; intros st; [reflexivity |].
  cbn [map]. rewrite !mapM_cons.
  apply mapThrown_bind; [apply Hc |].
  intros a st1. apply mapThrown_bind; [apply IH | reflexivity].
Qed.

Lemma emit_mapRaw (n : DriveQueryObject) :
  forall st,
    emit (mapRaw edit n) st = mapThrown (rawError edit) (emit n st).
Proof.
  induction n as [a o nt nm mt ft pid sr sh tr md ow raw Ha Ho Hnt]
    using DriveQueryObject_tree_ind.
  intros st.
  rewrite (emit_eq (mapRaw edit _)), (emit_eq (mkQuery _ _ _ _ _ _ _ _ _ _ _ _ _)).
  cbn [mapRaw and_ or_ not_ option_map].
  destruct a as [cs|]; [| destruct o as [cs|]; [| destruct nt as [c|]]];
    cbn [option_map].
  - apply mapThrown_bind; [apply (mapM_emit_mapRaw cs Ha) | reflexivity].
  - apply mapThrown_bind; [apply (mapM_emit_mapRaw cs Ho) | reflexivity].
  - apply mapThrown_bind; [apply Hnt | reflexivity].
  - exact (emitLeaf_mapRaw
             (mkQuery None None None nm mt ft pid sr sh tr md ow raw) st
             eq_refl).
Qed.

Lemma emitTop_mapRaw (n : DriveQueryObject) (st : Acc) :
  emitTop (mapRaw edit n) st = mapThrown (rawError edit) (emitTop n st).
Proof.
  unfold emitTop. rewrite noKeys_mapRaw.
  destruct (noKeys n); [reflexivity |].
  pose proof (emit_mapRaw n) as Hn.
  assert (Hcs : forall cs,
            Forall (fun c => forall st,
                        emit (mapRaw edit c) st
                        = mapThrown (rawError edit) (emit c st)) cs).
  { intros cs. apply Forall_forall. intros c _. apply emit_mapRaw. }
  destruct n as [a o nt nm mt ft pid sr sh tr md ow raw].
  cbn [mapRaw and_ or_ not_ option_map] in *.
  destruct a as [cs|]; [| destruct o as [cs|]; [| destruct nt as [c|]]];
    cbn [option_map].
  - apply mapThrown_bind; [apply (mapM_emit_mapRaw cs (Hcs cs)) | reflexivity].
  - apply mapThrown_bind; [apply (mapM_emit_mapRaw cs (Hcs cs)) | reflexivity].
  - apply mapThrown_bind; [apply emit_mapRaw | reflexivity].
  - apply mapThrown_bind; [exact (Hn st) | reflexivity].
Qed.

Lemma toDriveQuery_mapRaw (n : DriveQueryObject) :
  toDriveQuery (QObject (mapRaw edit n))
  = mapThrown (rawError edit) (toDriveQuery (QObject n)).
Proof.
  unfold toDriveQuery. rewrite emitTop_mapRaw.
  destruct (emitTop n freshAcc) as [[q0 st]|e]; reflexivity.
Qed.
End MapRaw.

Lemma rawKept_dropRaw : rawKept dropRaw.
Proof. intros n H. unfold dropRaw. rewrite H. reflexivity. Qed.

Lemma rawKept_replaceRaw (text : jsstring) : rawKept (replaceRaw text).
Proof. intros n _. unfold replaceRaw. apply isSome_option_map. Qed.

(* ================================================================= *)
(** ** The unit tests of the repository, on the model *)

Example test_name_single_value :
  toDriveQuery (QObject (nameIs (inl (lit "budget"))))
  = Ok (mkOutput (lit "name contains 'budget'") (onlyNames [lit "budget"])).
Proof. vm_compute. reflexivity. Qed.

Example test_mimeType_single_value :
  toDriveQuery
    (QObject (setField "mimeType" (inl (lit "application/pdf")) emptyObject))
  = Ok (mkOutput (lit "mimeType = 'application/pdf'")
          (Filters.mk None (Some [lit "application/pdf"]) None None None
                      None None None)).
Proof. vm_compute. reflexivity. Qed.

Example test_fullText_single_value :
  toDriveQuery
    (QObject (setField "fullText" (inl (lit "quarterly report")) emptyObject))
  = Ok (mkOutput (lit "fullText contains 'quarterly report'")
          (Filters.mk None None (Some [lit "quarterly report"]) None None
                      None None None)).
Proof. vm_compute. reflexivity. Qed.

Example test_parentId_single_value :
  toDriveQuery
    (QObject (setField "parentId" (inl (lit "1abc123xyz")) emptyObject))
  = Ok (mkOutput (lit "'1abc123xyz' in parents")
          (Filters.mk None None None (Some [lit "1abc123xyz"]) None
                      None None None)).
Proof. vm_compute. reflexivity. Qed.

Example test_owner_single_value :
  toDriveQuery
    (QObject (setField "owner" (inl (lit "alice@example.com")) emptyObject))
  = Ok (mkOutput (lit "'alice@example.com' in owners")
          (Filters.mk None None None None (Some [lit "alice@example.com"])
                      None None None)).
Proof. vm_compute. reflexivity. Qed.

Example test_starred_false :
  toDriveQuery (QObject (starredIs false))
  = Ok (mkOutput (lit "starred = false")
          (Filters.mk None None None None None (Some false) None None)).
Proof. vm_compute. reflexivity. Qed.

Example test_modifiedTime_gte_only :
  toDriveQuery
    (QObject (dateIs (mkDateRange (Some (lit "2024-01-01")) None)))
  = Ok (mkOutput (lit "modifiedTime >= '2024-01-01'") noFilters).
Proof. vm_compute. reflexivity. Qed.

Example test_modifiedTime_lt_only :
  toDriveQuery
    (QObject (dateIs (mkDateRange None (Some (lit "2024-12-31")))))
  = Ok (mkOutput (lit "modifiedTime < '2024-12-31'") noFilters).
Proof. vm_compute. reflexivity. Qed.

Example test_modifiedTime_range :
  toDriveQuery
    (QObject (dateIs (mkDateRange (Some (lit "2024-01-01"))
                                  (Some (lit "2024-02-01")))))
  = Ok (mkOutput
          (lit "(modifiedTime >= '2024-01-01' and modifiedTime < '2024-02-01')")
          noFilters).
Proof. vm_compute. reflexivity. Qed.

Example test_escapes_single_quotes :
  toDriveQuery (QObject (nameIs (inl (lit "Alice's file"))))
  = Ok (mkOutput (lit "name contains 'Alice\'s file'")
          (onlyNames [lit "Alice's file"])).
Proof. vm_compute. reflexivity. Qed.

Example test_parentheses_kept :
  toDriveQuery (QObject (nameIs (inl (lit "Budget (2024)"))))
  = Ok (mkOutput (lit "name contains 'Budget (2024)'")
          (onlyNames [lit "Budget (2024)"])).
Proof. vm_compute. reflexivity. Qed.

Example test_empty_object :
  toDriveQuery (QObject emptyObject) = Ok (mkOutput [] noFilters).
Proof. vm_compute. reflexivity. Qed.

Example test_single_element_any :
  toDriveQuery (QObject (nameIs (inr (anyOf (lit "budget")))))
  = Ok (mkOutput (lit "name contains 'budget'") (onlyNames [lit "budget"])).
Proof. vm_compute. reflexivity. Qed.

Example test_value_is_not_trimmed :
  toDriveQuery (QObject (nameIs (inl (lit "  budget  "))))
  = Ok (mkOutput (lit "name contains '  budget  '")
          (onlyNames [lit "  budget  "])).
Proof. vm_compute. reflexivity. Qed.

Example test_all_filters :
  returned
    (toDriveQuery
       (QObject
          (mkQuery None None None
             (Some (inl (lit "budget"))) (Some (inl (lit "application/pdf")))
             (Some (inl (lit "quarterly"))) (Some (inl (lit "1abc")))
             (Some true) (Some false) (Some false) None
             (Some (inl (lit "alice@example.com"))) None)))
  = Some
      (mkOutput
         (lit "(starred = true and sharedWithMe = false and trashed = false and name contains 'budget' and mimeType = 'application/pdf' and fullText contains 'quarterly' and '1abc' in parents and 'alice@example.com' in owners)")
         (Filters.mk (Some [lit "budget"]) (Some [lit "application/pdf"])
            (Some [lit "quarterly"]) (Some [lit "1abc"])
            (Some [lit "alice@example.com"])
            (Some true) (Some false) (Some false))).
Proof. vm_compute. reflexivity. Qed.

(** The samples of the specification on field operators. *)
Example sample_any_two_values :
  toDriveQuery
    (QObject (nameIs (inr (mkFieldOperator (Some [lit "a"; lit "b"]) None None))))
  = Ok (mkOutput (lit "(name contains 'a' or name contains 'b')")
          (onlyNames [lit "a"; lit "b"])).
Proof. vm_compute. reflexivity. Qed.

Example sample_none_one_value :
  toDriveQuery
    (QObject (nameIs (inr (mkFieldOperator None None (Some [lit "x"])))))
  = Ok (mkOutput (lit "not (name contains 'x')") (onlyNames [lit "x"])).
Proof. vm_compute. reflexivity. Qed.

Example sample_blanks_dropped :
  toDriveQuery
    (QObject (nameIs (inr (mkFieldOperator
                             (Some [[]; lit "  "; lit "valid"]) None None))))
  = Ok (mkOutput (lit "name contains 'valid'") (onlyNames [lit "valid"])).
Proof. vm_compute. reflexivity. Qed.

(** A node whose only key is a field with blank values alone yields no
    entry of [expressions] and is rejected as an unknown node. *)
Example all_blank_field_alone_is_rejected :
  toDriveQuery
    (QObject (nameIs (inr (mkFieldOperator (Some [[]; lit "  "]) None None))))
  = Throw (UnknownNode
             (nameIs (inr (mkFieldOperator (Some [[]; lit "  "])
                             None None)))).
Proof. vm_compute. reflexivity. Qed.

(** The cleanup on strings with a keyword at an end. *)
Example cleanQuery_leading_and :
  cleanQuery (lit " and name contains 'a'") = lit "name contains 'a'".
Proof. vm_compute. reflexivity. Qed.

Example cleanQuery_trailing_or_any_case :
  cleanQuery (lit "starred = true  OR ") = lit "starred = true".
Proof. vm_compute. reflexivity. Qed.

Example cleanQuery_keeps_inner_keywords :
  cleanQuery (lit "a and b or c") = lit "a and b or c".
Proof. vm_compute. reflexivity. Qed.

(* ================================================================= *)
(** ** The claims of the specification *)

(** C1 (as amended): a node that carries a combinator is compiled as the
    first of [$and], [$or], [$not] that it carries, and as nothing else: the
    later combinators, the boolean flags, [modifiedTime] and the leaf fields
    of the node reach neither the query string nor the filters, at the root
    and below. *)
Theorem combinator_shadows_leaf_conditions
    (n : DriveQueryObject) (H : hasCombinator n = true) :
  (forall st, emit n st = emit (firstCombinator n) st)
  /\ toDriveQuery (QObject n) = toDriveQuery (QObject (firstCombinator n))
  /\ (forall children,
        and_ n = Some children ->
        toDriveQuery (QObject n) = toDriveQuery (QObject (andOf children)))
  /\ (forall children,
        and_ n = None -> or_ n = Some children ->
        toDriveQuery (QObject n) = toDriveQuery (QObject (orOf children)))
  /\ (forall child,
        and_ n = None -> or_ n = None -> not_ n = Some child ->
        toDriveQuery (QObject n) = toDriveQuery (QObject (notOf child)))
  /\ (forall st, emit n st = emit (combinatorsOnly n) st)
  /\ toDriveQuery (QObject n) = toDriveQuery (QObject (combinatorsOnly n)).
Proof.
  assert (Hemit : emit n = emit (firstCombinator n)).
  { destruct n as [[cs|] [cs'|] [c|] nm mt ft pid st sh tr md ow raw];
      try discriminate H; reflexivity. }
  assert (Htop : emitTop n = emitTop (firstCombinator n)).
  { destruct n as [[cs|] [cs'|] [c|] nm mt ft pid st sh tr md ow raw];
      try discriminate H; reflexivity. }
  assert (Hfirst : toDriveQuery (QObject n)
                   = toDriveQuery (QObject (firstCombinator n))).
  { unfold toDriveQuery. rewrite Htop. reflexivity. }
  split; [intros st; rewrite Hemit; reflexivity |].
  split; [exact Hfirst |].
  split; [| split; [| split; [| split]]].
  - intros cs Ea. rewrite Hfirst. unfold firstCombinator. rewrite Ea.
    reflexivity.
  - intros cs Ea Eo. rewrite Hfirst. unfold firstCombinator.
    rewrite Ea, Eo. reflexivity.
  - intros c Ea Eo En. rewrite Hfirst. unfold firstCombinator.
    rewrite Ea, Eo, En. reflexivity.
  - intros st. rewrite (emit_combinatorsOnly n H). reflexivity.
  - unfold toDriveQuery. rewrite (emitTop_combinatorsOnly n H). reflexivity.
Qed.

Lemma combinator_shadows_leaf_conditions_witness :
  hasCombinator all_combinators_and_leaf = true
  /\ toDriveQuery (QObject all_combinators_and_leaf)
     = toDriveQuery (QObject (andOf [name_a]))
  /\ toDriveQuery (QObject or_not_and_leaf)
     = toDriveQuery (QObject (orOf [starredIs true]))
  /\ toDriveQuery (QObject all_combinators_and_leaf)
     = Ok (mkOutput (lit "name contains 'a'")
             (Filters.mk (Some [lit "a"]) None None None None None None None))
  /\ toDriveQuery (QObject or_not_and_leaf)
     = Ok (mkOutput (lit "starred = true")
             (Filters.mk None None None None None (Some true) None None)).
Proof.
  split; [reflexivity |].
  split;
    [exact (proj1 (proj2 (proj2 (combinator_shadows_leaf_conditions
                                   all_combinators_and_leaf eq_refl)))
              [name_a] eq_refl) |].
  split;
    [exact (proj1 (proj2 (proj2 (proj2 (combinator_shadows_leaf_conditions
                                          or_not_and_leaf eq_refl))))
              [starredIs true] eq_refl eq_refl) |].
  split; vm_compute; reflexivity.
Defined.

(** C1 fails as stated: [{ $and: [{ name: "a" }], starred: true }], which
    the schema accepts, compiles to the combinator's text alone;
    [starred = true] is neither in the query string nor in the filters. *)
Lemma combinator_drops_leaf_conditions :
  DriveQuerySchema (QObject and_with_leaf) = true
  /\ toDriveQuery (QObject and_with_leaf)
     = Ok (mkOutput (lit "name contains 'a'")
             (Filters.mk (Some [lit "a"]) None None None None None None None))
  /\ includes (lit "starred = true") (lit "name contains 'a'") = false.
Proof. repeat split; vm_compute; reflexivity. Qed.

(** C2 (as amended): a string input is returned as it is, with empty
    filters.  [toDriveQuery] does not read the [rawDriveQuery] key of any
    node of the tree: a node with this key alone is rejected as an unknown
    node, at the root and below, and rewriting the keys of the tree in any
    way that neither empties a node nor gives a key to an empty one (such as
    dropping the key next to other keys, or replacing its text) changes
    nothing of what is returned; an error that names a node then names the
    rewritten node. *)
Theorem raw_string_passes_raw_field_is_not_read :
  (forall s, toDriveQuery (QString s) = Ok (mkOutput s Filters.empty))
  /\ (forall raw, toDriveQuery (QObject (rawOnly raw))
                  = Throw (UnknownNode (rawOnly raw)))
  /\ (forall raw st, emit (rawOnly raw) st = Throw (UnknownNode (rawOnly raw)))
  /\ (forall n, noKeys (withoutRaw n) = false ->
      returned (toDriveQuery (QObject n))
      = returned (toDriveQuery (QObject (withoutRaw n))))
  /\ (forall edit n,
        rawKept edit ->
        toDriveQuery (QObject (mapRaw edit n))
        = mapThrown (rawError edit) (toDriveQuery (QObject n))
        /\ forall st, emit (mapRaw edit n) st
                      = mapThrown (rawError edit) (emit n st))
  /\ (forall n,
        toDriveQuery (QObject (mapRaw dropRaw n))
        = mapThrown (rawError dropRaw) (toDriveQuery (QObject n)))
  /\ (forall text n,
        toDriveQuery (QObject (mapRaw (replaceRaw text) n))
        = mapThrown (rawError (replaceRaw text)) (toDriveQuery (QObject n))).
Proof.
  split; [reflexivity | split; [reflexivity | split; [reflexivity |]]].
  split; [| split; [| split]].
  - intros n H. apply toDriveQuery_sameReading, withoutRaw_sameReading, H.
  - intros edit n Hkept. split.
    + exact (toDriveQuery_mapRaw edit Hkept n).
    + exact (emit_mapRaw edit Hkept n).
  - intros n. exact (toDriveQuery_mapRaw dropRaw rawKept_dropRaw n).
  - intros text n.
    exact (toDriveQuery_mapRaw (replaceRaw text) (rawKept_replaceRaw text) n).
Qed.

Lemma raw_string_passes_raw_field_is_not_read_witness :
  rawKept dropRaw
  /\ mapRaw dropRaw or_with_raw_below
     = orOf [name_a; notOf (starredIs true)]
  /\ toDriveQuery (QObject or_with_raw_below)
     = toDriveQuery (QObject (orOf [name_a; notOf (starredIs true)]))
  /\ toDriveQuery (QObject or_with_raw_below)
     = Ok (mkOutput (lit "name contains 'a' or not starred = true")
             (Filters.mk (Some [lit "a"]) None None None None
                (Some true) None None)).
Proof.
  split; [exact rawKept_dropRaw |].
  split; [reflexivity |].
  assert (H : toDriveQuery (QObject (mapRaw dropRaw or_with_raw_below))
              = mapThrown (rawError dropRaw)
                  (toDriveQuery (QObject or_with_raw_below))).
  { exact (proj1 (proj1 (proj2 (proj2 (proj2 (proj2
             raw_string_passes_raw_field_is_not_read))))
             dropRaw or_with_raw_below rawKept_dropRaw)). }
  split; [| vm_compute; reflexivity].
  change (mapRaw dropRaw or_with_raw_below)
    with (orOf [name_a; notOf (starredIs true)]) in H.
  rewrite H. vm_compute. reflexivity.
Defined.

(** C2 fails as stated: [{ rawDriveQuery: "trashed = true" }], which the
    schema accepts, is not emitted; [toDriveQuery] throws on it. *)
Lemma raw_field_alone_throws :
  DriveQuerySchema (QObject (rawOnly (lit "trashed = true"))) = true
  /\ toDriveQuery (QObject (rawOnly (lit "trashed = true")))
     = Throw (UnknownNode (rawOnly (lit "trashed = true"))).
Proof. split; vm_compute; reflexivity. Qed.

(** C3 (as amended): [toDriveQuery] returns for every string, and for every
    object in which each node that is compiled either is [{}] or gives
    [expressions] an entry, with an operator key on each of its leaf fields;
    it throws [Unknown field operator] for a node without combinator that
    has a leaf field whose operator has none of [$any], [$all], [$none]. *)
Theorem compile_returns_or_rejects_operator :
  (forall s, toDriveQuery (QString s) = Ok (mkOutput s Filters.empty))
  /\ (forall n, compilable n = true ->
      exists out, toDriveQuery (QObject n) = Ok out)
  /\ (forall n, hasCombinator n = false -> hasKeylessOperator n = true ->
      toDriveQuery (QObject n) = Throw (UnknownFieldOperator noOperator)).
Proof.
  split; [reflexivity | split].
  - intros n H. unfold toDriveQuery.
    destruct (emitTop_ok n H freshAcc) as (s & st & ->).
    eexists. reflexivity.
  - intros n Hc Hk. unfold toDriveQuery, emitTop.
    rewrite (hasKeylessOperator_noKeys n Hk).
    unfold hasCombinator in Hc.
    destruct (and_ n) eqn:Ea; [discriminate Hc |].
    destruct (or_ n) eqn:Eo; [discriminate Hc |].
    destruct (not_ n) eqn:En; [discriminate Hc |].
    unfold bind. rewrite emit_eq, Ea, Eo, En.
    rewrite (emitLeaf_throws n Hk). reflexivity.
Qed.

Lemma compile_returns_or_rejects_operator_witness :
  (compilable and_two_empty = true
   /\ exists out, toDriveQuery (QObject and_two_empty) = Ok out)
  /\ (hasCombinator name_no_operator = false
      /\ hasKeylessOperator name_no_operator = true
      /\ toDriveQuery (QObject name_no_operator)
         = Throw (UnknownFieldOperator noOperator)).
Proof.
  destruct compile_returns_or_rejects_operator as (_ & Hok & Hthrow).
  split.
  - split; [reflexivity |]. apply (Hok and_two_empty). reflexivity.
  - split; [reflexivity | split; [reflexivity |]].
    apply (Hthrow name_no_operator); reflexivity.
Defined.

(** C3 fails as stated: [{ name: {} }] satisfies the schema, whose field
    operator has three optional keys, and [toDriveQuery] throws on it. *)
Lemma schema_valid_input_throws :
  DriveQuerySchema (QObject name_no_operator) = true
  /\ toDriveQuery (QObject name_no_operator)
     = Throw (UnknownFieldOperator noOperator).
Proof. split; vm_compute; reflexivity. Qed.

(** C4 (as amended): a [$not] node emits [not ] followed by the emission of
    its child, at the root and below; the node adds no parenthesis of its
    own.  What follows [not ] is parenthesised when the child is an [$and] or
    [$or] node, whose emission brings its own pair. *)
Theorem not_prefixes_child_emission
    (n child : DriveQueryObject) (H : notChild n = Some child) :
  (forall st, emit n st = (s <- emit child ;; ret (lit "not " ++ s)) st)
  /\ (forall st, emitTop n st = (s <- emit child ;; ret (lit "not " ++ s)) st)
  /\ (forall sep children, andOrChildren child = Some (sep, children) ->
      forall st, emit n st
                 = (parts <- mapM emit children ;;
                    ret (lit "not " ++ p (join sep parts))) st).
Proof.
  destruct n as [[cs|] [cs'|] [c|] nm mt ft pid st0 sh tr md ow raw];
    try discriminate H.
  injection H as ->.
  split; [| split].
  - reflexivity.
  - reflexivity.
  - intros sep children Hc st.
    destruct child as [[a|] [o|] nt nm' mt' ft' pid' st' sh' tr' md' ow' raw'];
      cbn in Hc; try discriminate Hc;
      injection Hc as <- <-;
      cbn [emit and_ or_ not_]; unfold bind, ret;
      destruct (mapM emit _ st) as [[parts st1]|e]; reflexivity.
Qed.

Lemma not_prefixes_child_emission_witness :
  notChild (notOf name_a) = Some name_a
  /\ (forall st, emit (notOf name_a) st
                 = (s <- emit name_a ;; ret (lit "not " ++ s)) st).
Proof.
  split; [reflexivity |].
  apply (not_prefixes_child_emission (notOf name_a) name_a). reflexivity.
Defined.

(** C4 fails as stated: below the root, [$not] over [{ name: "a" }] yields
    [not name contains 'a'], with no parenthesis after [not]. *)
Lemma not_adds_no_parentheses :
  DriveQuerySchema (QObject and_not_name) = true
  /\ toDriveQuery (QObject and_not_name)
     = Ok (mkOutput (lit "not name contains 'a' and starred = true")
             (Filters.mk (Some [lit "a"]) None None None None
                         (Some true) None None))
  /\ includes (lit "not (")
       (lit "not name contains 'a' and starred = true") = false.
Proof. repeat split; vm_compute; reflexivity. Qed.

(** C5: at the root the emissions of the children of [$and] or [$or] are
    joined by the keyword and nothing is put around them, while [emit], which
    compiles the same node anywhere below the root, puts one pair of
    parentheses around the same joined text.  The sample of the
    specification compiles to [name contains 'a' and starred = true], and to
    the parenthesised text as the child of an [$or]. *)
Theorem root_join_is_not_parenthesised
    (n : DriveQueryObject) (sep : jsstring) (children : list DriveQueryObject)
    (H : andOrChildren n = Some (sep, children)) :
  (forall st, emitTop n st
              = (parts <- mapM emit children ;; ret (join sep parts)) st)
  /\ (forall st, emit n st
                 = (parts <- mapM emit children ;; ret (p (join sep parts))) st)
  /\ toDriveQuery (QObject n)
     = match mapM emit children freshAcc with
       | Ok (parts, st) =>
           Ok (mkOutput (cleanQuery (join sep parts)) (filtersOf st))
       | Throw e => Throw e
       end
  /\ returned (toDriveQuery (QObject and_name_starred))
     = Some (mkOutput (lit "name contains 'a' and starred = true")
               (Filters.mk (Some [lit "a"]) None None None None
                           (Some true) None None))
  /\ returned (toDriveQuery (QObject (orOf [and_name_starred])))
     = Some (mkOutput (lit "(name contains 'a' and starred = true)")
               (Filters.mk (Some [lit "a"]) None None None None
                           (Some true) None None)).
Proof.
  assert (Htop : forall st, emitTop n st
            = (parts <- mapM emit children ;; ret (join sep parts)) st).
  { destruct n as [[a|] [o|] nt nm mt ft pid st0 sh tr md ow raw];
      cbn in H; try discriminate H; injection H as <- <-; reflexivity. }
  split; [exact Htop | split; [| split; [| split]]].
  - destruct n as [[a|] [o|] nt nm mt ft pid st0 sh tr md ow raw];
      cbn in H; try discriminate H; injection H as <- <-; reflexivity.
  - unfold toDriveQuery. rewrite Htop. unfold bind, ret.
    destruct (mapM emit children freshAcc) as [[parts st]|e]; reflexivity.
  - vm_compute. reflexivity.
  - vm_compute. reflexivity.
Qed.

Lemma root_join_is_not_parenthesised_witness :
  andOrChildren and_name_starred = Some (lit " and ", [name_a; starredIs true])
  /\ (forall st, emitTop and_name_starred st
                 = (parts <- mapM emit [name_a; starredIs true] ;;
                    ret (join (lit " and ") parts)) st).
Proof.
  split; [reflexivity |].
  apply (root_join_is_not_parenthesised and_name_starred (lit " and ")
           [name_a; starredIs true]).
  reflexivity.
Defined.

(** C6, the code at the failing input: [{ $and: [{ name: "a" }, {}, {}] }],
    which the schema accepts, joins to [name contains 'a' and  and ]; the
    cleanup removes one trailing keyword only, and the query string returned
    ends with [ and]. *)
Theorem cleanup_leaves_dangling_and :
  DriveQuerySchema (QObject and_two_empty) = true
  /\ emitTop and_two_empty freshAcc
     = Ok (lit "name contains 'a' and  and ",
           mkAcc [lit "a"] [] [] [] [] None None None)
  /\ toDriveQuery (QObject and_two_empty)
     = Ok (mkOutput (lit "name contains 'a' and")
             (Filters.mk (Some [lit "a"]) None None None None None None None))
  /\ endsWith (lit " and") (lit "name contains 'a' and") = true.
Proof. repeat split; vm_compute; reflexivity. Qed.



(** C8: each call of [fv] on one of the five fields appends its literal at
    the end of the list of that field, whatever encloses the value.  So the
    filters that [toDriveQuery] returns list, per field, the literals
    compiled into fragments, in the order of their compilation and as often
    as they occur, also below [$not] and in [$none]. *)
Theorem compiled_literals_are_recorded
    (n : DriveQueryObject) (out : Output)
    (H : toDriveQuery (QObject n) = Ok out) :
  Filters.nameIncludes (filters out) = whenNonEmpty (referenced "name" n)
  /\ Filters.mimeTypeIncludes (filters out)
     = whenNonEmpty (referenced "mimeType" n)
  /\ Filters.fullTextIncludes (filters out)
     = whenNonEmpty (referenced "fullText" n)
  /\ Filters.parentIdIncludes (filters out)
     = whenNonEmpty (referenced "parentId" n)
  /\ Filters.ownerIncludes (filters out) = whenNonEmpty (referenced "owner" n)
  /\ (forall field raw st, In field fieldKeys ->
      exists st', fv field raw st = Ok (fvText field raw, st')
                  /\ includesOf field st' = includesOf field st ++ [raw])
  /\ referenced "name" not_none_xx = [lit "x"; lit "x"].
Proof.
  unfold toDriveQuery in H.
  destruct (emitTop n freshAcc) as [[q0 st]|e] eqn:E; [| discriminate H].
  injection H as <-. cbn [filters filtersOf Filters.nameIncludes
    Filters.mimeTypeIncludes Filters.fullTextIncludes
    Filters.parentIdIncludes Filters.ownerIncludes].
  assert (Hk : forall k, In k fieldKeys ->
                         includesOf k st = referenced k n).
  { intros k Hk. rewrite (emitTop_includes k Hk n _ _ _ E).
    rewrite includesOf_freshAcc. reflexivity. }
  split; [| split; [| split; [| split; [| split; [| split]]]]].
  - rewrite <- (Hk "name"%string); [reflexivity | simpl; tauto].
  - rewrite <- (Hk "mimeType"%string); [reflexivity | simpl; tauto].
  - rewrite <- (Hk "fullText"%string); [reflexivity | simpl; tauto].
  - rewrite <- (Hk "parentId"%string); [reflexivity | simpl; tauto].
  - rewrite <- (Hk "owner"%string); [reflexivity | simpl; tauto].
  - intros field raw st0 Hf. exists (pushField field raw st0).
    split; [apply fv_spec |].
    rewrite (includesOf_pushField field Hf field raw st0 Hf).
    rewrite String.eqb_refl. reflexivity.
  - vm_compute. reflexivity.
Qed.

Lemma compiled_literals_are_recorded_witness :
  toDriveQuery (QObject not_none_xx)
  = Ok (mkOutput (lit "not not ((name contains 'x' or name contains 'x'))")
          (Filters.mk (Some [lit "x"; lit "x"]) None None None None
                      None None None))
  /\ Filters.nameIncludes
       (filters
          (mkOutput (lit "not not ((name contains 'x' or name contains 'x'))")
             (Filters.mk (Some [lit "x"; lit "x"]) None None None None
                         None None None)))
     = whenNonEmpty (referenced "name" not_none_xx).
Proof.
  assert (E : toDriveQuery (QObject not_none_xx)
    = Ok (mkOutput (lit "not not ((name contains 'x' or name contains 'x'))")
            (Filters.mk (Some [lit "x"; lit "x"]) None None None None
                        None None None))) by (vm_compute; reflexivity).
  split; [exact E |].
  apply (compiled_literals_are_recorded not_none_xx _ E).
Defined.

(* ================================================================= *)
(** ** Trimming *)

Lemma trimStart_split (s : jsstring) :
  exists w, s = w ++ trimStart s /\ forallb isWhiteSpace w = true.
Proof.
  induction s as [|c s IH]; simpl.
  - exists []. split; reflexivity.
  - destruct (isWhiteSpace c) eqn:E.
    + destruct IH as (w & Hs & Hw). exists (c :: w). simpl.
      rewrite E, <- Hs. split; [reflexivity | exact Hw].
    + exists []. split; reflexivity.
Qed.

Lemma trimStart_head (s : jsstring) :
  match trimStart s with [] => True | c :: _ => isWhiteSpace c = false end.
Proof.
  induction s as [|c s IH]; simpl; [exact I |].
  destruct (isWhiteSpace c) eqn:E; [exact IH | exact E].
Qed.

Lemma trimStart_fixed (c : jschar) (s : jsstring) :
  isWhiteSpace c = false -> trimStart (c :: s) = c :: s.
Proof. intros H. simpl. rewrite H. reflexivity. Qed.

Lemma trimStart_blank (w : jsstring) :
  forallb isWhiteSpace w = true -> trimStart w = [].
Proof.
  induction w as [|c w IH]; simpl; [reflexivity |].
  intros H. apply andb_prop in H as [Hc Hw]. rewrite Hc. exact (IH Hw).
Qed.

Lemma trimStart_app_blank (w s : jsstring) :
  forallb isWhiteSpace w = true -> trimStart (w ++ s) = trimStart s.
Proof.
  induction w as [|c w IH]; simpl; [reflexivity |].
  intros H. apply andb_prop in H as [Hc Hw]. rewrite Hc. exact (IH Hw).
Qed.

Lemma tidy_cons_iff (c : jschar) (s : jsstring) :
  tidy (c :: s) = true <->
  isWhiteSpace c = false
  /\ exists t d, c :: s = t ++ [d] /\ isWhiteSpace d = false.
Proof.
  unfold tidy. rewrite andb_true_iff, negb_true_iff. split.
  - intros [Hc Hl]. split; [exact Hc |].
    destruct (rev (c :: s)) as [|d r] eqn:E.
    + apply (f_equal (@rev _)) in E. rewrite rev_involutive in E.
      discriminate E.
    + exists (rev r), d. apply negb_true_iff in Hl. split; [| exact Hl].
      apply (f_equal (@rev _)) in E. rewrite rev_involutive in E.
      exact E.
  - intros [Hc (t & d & Ht & Hd)]. split; [exact Hc |].
    rewrite Ht, rev_app_distr. simpl. rewrite Hd. reflexivity.
Qed.

Lemma trim_tidy (s : jsstring) : tidy s = true -> trim s = s.
Proof.
  destruct s as [|c s]; [reflexivity |].
  intros H. apply tidy_cons_iff in H as [Hc (t & d & Ht & Hd)].
  unfold trim, trimEnd. rewrite (trimStart_fixed c s Hc), Ht.
  rewrite rev_app_distr. simpl rev at 2. simpl app.
  rewrite (trimStart_fixed d (rev t) Hd).
  change (d :: rev t) with ([d] ++ rev t).
  rewrite rev_app_distr, rev_involutive. reflexivity.
Qed.

Lemma tidy_trim (s : jsstring) : tidy (trim s) = true.
Proof.
  unfold trim, trimEnd.
  pose proof (trimStart_head s) as Hu.
  destruct (trimStart_split (rev (trimStart s))) as (w & Hsplit & Hw).
  pose proof (trimStart_head (rev (trimStart s))) as Hv.
  destruct (trimStart (rev (trimStart s))) as [|d v] eqn:Ev; [reflexivity |].
  destruct (trimStart s) as [|c u] eqn:Eu.
  { destruct w; discriminate Hsplit. }
  assert (Hrev : c :: u = rev v ++ d :: rev w).
  { rewrite <- (rev_involutive (c :: u)), Hsplit, rev_app_distr.
    simpl. rewrite <- app_assoc. reflexivity. }
  assert (Hc' : exists t, rev (d :: v) = c :: t).
  { simpl. destruct (rev v) as [|x t] eqn:Erv.
    - simpl in Hrev. injection Hrev as -> _. exists []. reflexivity.
    - simpl in Hrev. injection Hrev as -> _. exists (t ++ [d]). reflexivity. }
  destruct Hc' as [t Ht]. rewrite Ht. apply tidy_cons_iff.
  split; [exact Hu |]. exists (rev v), d. split; [| exact Hv].
  rewrite <- Ht. reflexivity.
Qed.

(* ================================================================= *)
(** ** The matcher *)

Lemma suffixOf_refl (t : jsstring) : suffixOf t t.
Proof. exists []. reflexivity. Qed.

Lemma suffixOf_tail (u : jsstring) (c : jschar) (t : jsstring) :
  suffixOf u t -> suffixOf u (c :: t).
Proof. intros [pre ->]. exists (c :: pre). reflexivity. Qed.

Lemma suffixOf_trans (u v t : jsstring) :
  suffixOf u v -> suffixOf v t -> suffixOf u t.
Proof.
  intros [p1 ->] [p2 ->]. exists (p2 ++ p1). rewrite app_assoc. reflexivity.
Qed.

(** The greedy loop hands to its continuation what follows a run, not
    empty, of code units of the class. *)
Lemma plusGreedy_sound (f : jschar -> bool) (s : jsstring) :
  forall idx k e,
    plusGreedy f idx s k = Some e ->
    exists w u, s = w ++ u /\ w <> [] /\ forallb f w = true
                /\ k (idx + length w) u = Some e.
Proof.
  induction s as [|c s IH]; intros idx k e H; simpl in H; [discriminate H |].
  destruct (f c) eqn:Ec; [| discriminate H].
  destruct (plusGreedy f (S idx) s k) as [e'|] eqn:E.
  - injection H as ->. destruct (IH _ _ _ E) as (w & u & -> & _ & Hw & Hk).
    exists (c :: w), u. simpl. rewrite Ec.
    repeat split; try discriminate; [exact Hw |].
    rewrite <- Hk. f_equal. lia.
  - exists [c], s. simpl. rewrite Ec.
    repeat split; try discriminate.
    rewrite <- H. f_equal. lia.
Qed.

(** A matcher cannot succeed when its continuation fails on all that can
    be left of the input. *)
Lemma rmatch_fails (r : regex) :
  forall idx s k,
    (forall i u, suffixOf u s -> k i u = None) ->
    rmatch r idx s k = None.
Proof.
  induction r as [f | f | r1 IH1 r2 IH2 | r1 IH1 r2 IH2 | |];
    intros idx s k Hk; simpl.
  - destruct s as [|c s]; [reflexivity |].
    destruct (f c); [| reflexivity].
    apply Hk. apply suffixOf_tail, suffixOf_refl.
  - destruct (plusGreedy f idx s k) as [e|] eqn:E; [| reflexivity].
    destruct (plusGreedy_sound f s _ _ _ E) as (w & u & -> & _ & _ & Hu).
    rewrite Hk in Hu; [discriminate Hu | exists w; reflexivity].
  - apply IH1. intros i u Hu. apply IH2. intros i' u' Hu'.
    apply Hk. exact (suffixOf_trans _ _ _ Hu' Hu).
  - rewrite (IH1 _ _ _ Hk). exact (IH2 _ _ _ Hk).
  - destruct (Nat.eqb idx 0); [| reflexivity]. apply Hk, suffixOf_refl.
  - destruct s; [| reflexivity]. apply Hk, suffixOf_refl.
Qed.

(** [\s+$] needs whitespace at the end of the input. *)
Lemma ws_eol_fails (u : jsstring) (d : jschar) (i : nat)
    (k : nat -> jsstring -> option nat) :
  isWhiteSpace d = false ->
  rmatch (RSeq ws_plus REol) i (u ++ [d]) k = None.
Proof.
  intros Hd. simpl.
  destruct (plusGreedy isWhiteSpace i (u ++ [d]) _) as [e|] eqn:E;
    [| reflexivity].
  destruct (plusGreedy_sound _ _ _ _ _ E) as (w & v & Hs & Hne & Hw & Hk).
  destruct v as [|x v]; [| discriminate Hk].
  rewrite app_nil_r in Hs. subst w.
  rewrite forallb_app in Hw. apply andb_prop in Hw as [_ Hw].
  simpl in Hw. rewrite Hd in Hw. discriminate Hw.
Qed.

Lemma suffixOf_snoc (v u : jsstring) (d : jschar) :
  suffixOf v (u ++ [d]) -> v = [] \/ exists u', v = u' ++ [d].
Proof.
  intros [pre H]. destruct v as [|x v] using rev_ind; [left; reflexivity |].
  right. rewrite app_assoc in H. apply app_inj_tail in H as [_ ->].
  exists v. reflexivity.
Qed.

(** The two alternatives that end with [$]. *)
Lemma trailing_alternative_fails (word : regex) (u : jsstring) (d : jschar)
    (idx : nat) (k : nat -> jsstring -> option nat) :
  isWhiteSpace d = false ->
  rmatch (RSeq ws_plus (RSeq word (RSeq ws_plus REol))) idx (u ++ [d]) k
  = None.
Proof.
  intros Hd.
  change (rmatch (RSeq ws_plus (RSeq word (RSeq ws_plus REol))) idx (u ++ [d]) k)
    with (rmatch (RSeq ws_plus word) idx (u ++ [d])
            (fun i t => rmatch (RSeq ws_plus REol) i t k)).
  apply rmatch_fails. intros i v Hv.
  destruct (suffixOf_snoc _ _ _ Hv) as [-> | [u' ->]].
  - reflexivity.
  - apply ws_eol_fails. exact Hd.
Qed.

(** The two alternatives that start with [^]. *)
Lemma leading_alternative_fails (rest : regex) (c : jschar) (s : jsstring)
    (idx : nat) (k : nat -> jsstring -> option nat) :
  (idx = 0 -> isWhiteSpace c = false) ->
  rmatch (RSeq RBol (RSeq ws_plus rest)) idx (c :: s) k = None.
Proof.
  intros Hc. simpl. destruct (Nat.eqb idx 0) eqn:E; [| reflexivity].
  apply Nat.eqb_eq in E. rewrite (Hc E). reflexivity.
Qed.

Lemma rmatch_alt_none (r1 r2 : regex) (idx : nat) (s : jsstring)
    (k : nat -> jsstring -> option nat) :
  rmatch r1 idx s k = None ->
  rmatch (RAlt r1 r2) idx s k = rmatch r2 idx s k.
Proof. intros H. simpl. rewrite H. reflexivity. Qed.

Lemma cleanupPattern_fails (c : jschar) (s u : jsstring) (d : jschar)
    (idx : nat) :
  (idx = 0 -> isWhiteSpace c = false) ->
  c :: s = u ++ [d] -> isWhiteSpace d = false ->
  matchAt cleanupPattern idx (c :: s) = None.
Proof.
  intros Hc Hs Hd. unfold matchAt, cleanupPattern.
  rewrite rmatch_alt_none
    by (rewrite Hs; apply trailing_alternative_fails; exact Hd).
  rewrite rmatch_alt_none
    by (rewrite Hs; apply trailing_alternative_fails; exact Hd).
  rewrite rmatch_alt_none
    by (apply leading_alternative_fails; exact Hc).
  apply leading_alternative_fails. exact Hc.
Qed.

Lemma removeAll_nothing (s : jsstring) :
  forall idx,
    (forall c s', s = c :: s' -> idx = 0 -> isWhiteSpace c = false) ->
    (forall u d, s = u ++ [d] -> isWhiteSpace d = false) ->
    removeAll cleanupPattern idx 0 s = s.
Proof.
  induction s as [|c s IH]; intros idx Hhead Hlast; [reflexivity |].
  cbn [removeAll].
  destruct (@exists_last _ (c :: s)) as (u & d & Hu); [discriminate |].
  change (rmatch cleanupPattern idx (c :: s) (fun e _ => Some e))
    with (matchAt cleanupPattern idx (c :: s)).
  rewrite (cleanupPattern_fails c s u d idx (Hhead c s eq_refl) Hu
             (Hlast u d Hu)).
  f_equal. apply IH.
  - intros c' s' _ H0. discriminate H0.
  - intros u' d' Hs. apply (Hlast (c :: u') d'). rewrite Hs. reflexivity.
Qed.

(** The cleanup of [toDriveQuery] changes no string that has no whitespace
    at its ends. *)
Lemma cleanQuery_tidy (s : jsstring) : tidy s = true -> cleanQuery s = s.
Proof.
  intros H. unfold cleanQuery.
  rewrite removeAll_nothing; [apply trim_tidy; exact H | |].
  - intros c s' -> _. apply tidy_cons_iff in H. apply H.
  - intros u d ->. destruct u as [|c u].
    + apply tidy_cons_iff in H. apply H.
    + apply (tidy_cons_iff c (u ++ [d])) in H as [_ (t & d' & Ht & Hd')].
      change (c :: u ++ [d]) with ((c :: u) ++ [d]) in Ht.
      apply app_inj_tail in Ht as [_ ->]. exact Hd'.
Qed.

(* ================================================================= *)
(** ** Escaping *)

Lemma escapeQuotes_cons (c : jschar) (s : jsstring) :
  escapeQuotes (c :: s)
  = (if (c =? 39)%N then [backslash; quoteChar] else [c]) ++ escapeQuotes s.
Proof. reflexivity. Qed.

(** X1: in the escaped text every single quote stands right after a
    backslash that the escaping put there: no quote of the value reaches the
    fragment bare. *)
Theorem escaped_quotes_follow_backslash (s pre post : jsstring)
    (H : escapeQuotes s = pre ++ quoteChar :: post) :
  exists pre', pre = pre' ++ [backslash].
Proof.
  revert pre H. induction s as [|c s IH]; intros pre H.
  - destruct pre; discriminate H.
  - rewrite escapeQuotes_cons in H. destruct (c =? 39)%N eqn:Ec.
    + destruct pre as [|x [|y pre]].
      * discriminate H.
      * injection H as Hx _. subst x. exists []. reflexivity.
      * injection H as Hx Hy H. subst x y.
        destruct (IH pre H) as [pre' ->].
        exists (backslash :: quoteChar :: pre'). reflexivity.
    + destruct pre as [|x pre].
      * injection H as Hc _. subst c. discriminate Ec.
      * injection H as Hx H. subst x. destruct (IH pre H) as [pre' ->].
        exists (c :: pre'). reflexivity.
Qed.

Lemma escaped_quotes_follow_backslash_witness :
  escapeQuotes (lit "O'Brien") = lit "O\" ++ quoteChar :: lit "Brien"
  /\ exists pre', lit "O\" = pre' ++ [backslash].
Proof.
  split; [reflexivity |].
  apply (escaped_quotes_follow_backslash (lit "O'Brien") (lit "O\")
           (lit "Brien")).
  reflexivity.
Defined.

Lemma escapeQuotes_not_quote_first (s : jsstring) :
  match escapeQuotes s with
  | c :: _ => (c =? 39)%N = false
  | [] => True
  end.
Proof.
  destruct s as [|c s]; [exact I |].
  rewrite escapeQuotes_cons. destruct (c =? 39)%N eqn:E; [reflexivity | exact E].
Qed.

Lemma escapeQuotes_inj (s1 : jsstring) :
  forall s2, escapeQuotes s1 = escapeQuotes s2 -> s1 = s2.
Proof.
  induction s1 as [|c1 s1 IH]; intros [|c2 s2] H.
  - reflexivity.
  - rewrite escapeQuotes_cons in H. destruct (c2 =? 39)%N; discriminate H.
  - rewrite escapeQuotes_cons in H. destruct (c1 =? 39)%N; discriminate H.
  - rewrite !escapeQuotes_cons in H.
    destruct (c1 =? 39)%N eqn:E1, (c2 =? 39)%N eqn:E2.
    + apply N.eqb_eq in E1, E2. subst. injection H as H.
      f_equal. exact (IH _ H).
    + injection H as Hc H. subst c2.
      pose proof (escapeQuotes_not_quote_first s2) as Hq.
      rewrite <- H in Hq. discriminate Hq.
    + injection H as Hc H. subst c1.
      pose proof (escapeQuotes_not_quote_first s1) as Hq.
      rewrite H in Hq. discriminate Hq.
    + injection H as Hc H. subst c2. f_equal. exact (IH _ H).
Qed.

Lemma quote_inj (s1 s2 : jsstring) : quote s1 = quote s2 -> s1 = s2.
Proof.
  unfold quote. intros H. apply app_inv_head in H.
  apply app_inv_tail in H. exact (escapeQuotes_inj _ _ H).
Qed.

(** X2: a fragment tells the field and the literal it was compiled from:
    two calls of [fv] on the five fields return the same fragment only for
    the same field and the same value. *)
Theorem fragment_determines_field_and_value
    (f1 f2 : string) (v1 v2 : jsstring)
    (H1 : In f1 fieldKeys) (H2 : In f2 fieldKeys)
    (H : fvText f1 v1 = fvText f2 v2) :
  f1 = f2 /\ v1 = v2.
Proof.
  simpl in H1, H2.
  repeat (destruct H1 as [<- | H1];
          [ repeat (destruct H2 as [<- | H2];
                    [ first
                        [ (* the same field *)
                          split; [reflexivity |];
                          first [ apply app_inv_head in H; exact (quote_inj _ _ H)
                                | apply app_inv_tail in H; exact (quote_inj _ _ H) ]
                        | (* fields with different first code units *)
                          discriminate H
                        | (* parentId against owner: different ends *)
                          exfalso;
                          apply (f_equal (@rev _)) in H;
                          unfold fvText in H; cbn [String.eqb Ascii.eqb Bool.eqb] in H;
                          rewrite !rev_app_distr in H; discriminate H ] |]);
            contradiction |]).
  contradiction.
Qed.

Lemma fragment_determines_field_and_value_witness :
  In "parentId"%string fieldKeys /\ In "parentId"%string fieldKeys
  /\ fvText "parentId" (lit "a'b") = fvText "parentId" (lit "a'b")
  /\ ("parentId"%string = "parentId"%string /\ lit "a'b" = lit "a'b").
Proof.
  split; [simpl; tauto | split; [simpl; tauto | split; [reflexivity |]]].
  apply (fragment_determines_field_and_value "parentId" "parentId"
           (lit "a'b") (lit "a'b")); [simpl; tauto | simpl; tauto | reflexivity].
Defined.

Lemma escapeQuotes_length (s : jsstring) :
  length (escapeQuotes s) = length s + countQuotes s.
Proof.
  unfold countQuotes. induction s as [|c s IH]; [reflexivity |].
  rewrite escapeQuotes_cons, length_app, IH. cbn [filter length].
  unfold quoteChar. destruct (c =? 39)%N; simpl; lia.
Qed.

(** X3: escaping touches quotes only.  The escaped text is longer than the
    value by one code unit per quote, and a value without quote is returned
    as it is, its backslashes included. *)
Theorem escaping_adds_one_unit_per_quote (s : jsstring) :
  length (quote s) = length s + countQuotes s + 2
  /\ (countQuotes s = 0 -> quote s = quoteChar :: s ++ [quoteChar]).
Proof.
  split.
  - unfold quote. rewrite !length_app, escapeQuotes_length. simpl. lia.
  - intros H0. unfold quote. change (lit "'") with [quoteChar].
    simpl app. f_equal. f_equal.
    unfold countQuotes in H0. induction s as [|c s IH]; [reflexivity |].
    rewrite escapeQuotes_cons. cbn [filter] in H0. unfold quoteChar in H0.
    destruct (c =? 39)%N; [discriminate H0 |].
    simpl. f_equal. exact (IH H0).
Qed.

Lemma escaping_adds_one_unit_per_quote_witness :
  countQuotes (lit "a\b") = 0
  /\ quote (lit "a\b") = quoteChar :: lit "a\b" ++ [quoteChar].
Proof.
  split; [reflexivity |].
  apply (escaping_adds_one_unit_per_quote (lit "a\b")). reflexivity.
Defined.

(* ================================================================= *)
(** ** Blank fragments and blank values *)

Lemma filter_notBlank_nil (arr : list jsstring) :
  filter notBlank arr = [] <-> forallb isBlank arr = true.
Proof.
  induction arr as [|x arr IH]; simpl; [tauto |].
  unfold notBlank at 1. destruct (isBlank x); simpl; [exact IH |].
  split; discriminate.
Qed.

Lemma filter_filter_same {A} (f : A -> bool) (l : list A) :
  filter f (filter f l) = filter f l.
Proof. apply filter_all, forallb_filter. Qed.

Lemma chain_isBlank (op : ChainOp) (arr : list jsstring) :
  isBlank (chain op arr) = forallb isBlank arr.
Proof.
  destruct (forallb isBlank arr) eqn:E.
  - apply filter_notBlank_nil in E. unfold chain. rewrite E. reflexivity.
  - assert (Hne : filter notBlank arr <> []).
    { intros H. apply filter_notBlank_nil in H. rewrite H in E.
      discriminate E. }
    pose proof (chain_notBlank op (filter notBlank arr)
                  (forallb_filter _ _) Hne) as H.
    unfold chain in H |- *. rewrite filter_filter_same in H.
    unfold notBlank in H. apply negb_true_iff in H. exact H.
Qed.

(** X4: [chain] does not see blank fragments.  A blank fragment anywhere in
    the array changes nothing of the result; the result is blank only when
    every fragment is, and then it is the empty string: no keyword is joined
    to a missing operand. *)
Theorem chain_skips_blank_fragments (op : ChainOp) (arr : list jsstring) :
  (forall before blank after,
      arr = before ++ blank :: after -> isBlank blank = true ->
      chain op arr = chain op (before ++ after))
  /\ isBlank (chain op arr) = forallb isBlank arr
  /\ (forallb isBlank arr = true -> chain op arr = []).
Proof.
  split; [| split].
  - intros before blank after -> Hb. unfold chain.
    assert (Hnb : notBlank blank = false)
      by (unfold notBlank; rewrite Hb; reflexivity).
    rewrite !filter_app. cbn [filter]. rewrite Hnb. reflexivity.
  - apply chain_isBlank.
  - intros E. apply filter_notBlank_nil in E. unfold chain. rewrite E.
    reflexivity.
Qed.

Lemma chain_skips_blank_fragments_witness :
  [lit "a"; lit "  "; lit "b"] = [lit "a"] ++ lit "  " :: [lit "b"]
  /\ isBlank (lit "  ") = true
  /\ chain OpAnd [lit "a"; lit "  "; lit "b"]
     = chain OpAnd ([lit "a"] ++ [lit "b"]).
Proof.
  split; [reflexivity | split; [reflexivity |]].
  destruct (chain_skips_blank_fragments OpAnd [lit "a"; lit "  "; lit "b"])
    as [H _].
  apply (H [lit "a"] (lit "  ") [lit "b"]); reflexivity.
Defined.

Lemma resultsOf_withoutBlanks (field : string) (values : list jsstring) :
  resultsOf field (filter notBlank values) = resultsOf field values.
Proof. unfold resultsOf. rewrite filter_filter_same. reflexivity. Qed.

Lemma fieldExpr_withoutBlanks (field : string) (op : FieldOperator)
    (st : Acc) :
  fieldExpr field (withoutBlanks op) st = fieldExpr field op st.
Proof.
  rewrite !fieldExpr_spec.
  destruct op as [[a|] [b|] [c|]];
    cbn [withoutBlanks fieldText selectedValues option_map any_ all_ none_];
    rewrite ?resultsOf_withoutBlanks, ?filter_filter_same; reflexivity.
Qed.

(** X5: blank values of a field operator are dropped before anything is
    done with them: with or without them, the node compiles to the same
    query string and the same filters, or throws in both cases. *)
Theorem blank_values_are_ignored
    (f : string) (op : FieldOperator) (n : DriveQueryObject) :
  (forall st, fieldExpr f (withoutBlanks op) st = fieldExpr f op st)
  /\ returned (toDriveQuery (QObject (setField f (inr (withoutBlanks op)) n)))
     = returned (toDriveQuery (QObject (setField f (inr op) n))).
Proof.
  split; [intros st; apply fieldExpr_withoutBlanks |].
  apply toDriveQuery_sameReading, setField_sameReading.
  intros k st. apply fieldExpr_withoutBlanks.
Qed.

Lemma resultsOf_chain_notBlank (op : ChainOp) (field : string)
    (values : list jsstring) :
  resultsOf field values <> [] ->
  isBlank (chain op (resultsOf field values)) = false.
Proof.
  intros Hne. apply negb_true_iff.
  exact (chain_notBlank op _ (resultsOf_notBlank field values) Hne).
Qed.

(** X6: [$none] is the negation of [$any] on the same values: it compiles
    what [$any] compiles, records the same literals, and puts [not (...)]
    around the fragment, or returns the empty string where [$any] does. *)
Theorem none_negates_any (field : string) (values : list jsstring) (st : Acc) :
  fieldExpr field (noneOp values) st
  = (r <- fieldExpr field (anyOp values) ;;
     ret (if isBlank r then [] else lit "not " ++ p r)) st.
Proof.
  unfold bind. rewrite !fieldExpr_spec.
  cbn [fieldText noneOp anyOp any_ all_ none_ selectedValues]. unfold ret.
  destruct (resultsOf field values) as [|x rest] eqn:E.
  - reflexivity.
  - cbn [length Nat.ltb Nat.leb]. rewrite <- E.
    rewrite resultsOf_chain_notBlank; [reflexivity |].
    rewrite E. discriminate.
Qed.

Lemma chain_single (op : ChainOp) (arr : list jsstring) :
  length arr <= 1 -> chain op arr = chain OpOr arr.
Proof.
  intros H. unfold chain.
  assert (Hlen : length (filter notBlank arr) <= 1).
  { destruct arr as [|x [|y arr]]; simpl in *; try lia.
    destruct (notBlank x); simpl; lia. }
  destruct (filter notBlank arr) as [|x [|y l]]; try reflexivity.
  simpl in Hlen. lia.
Qed.

Lemma filter_length_le {A} (f : A -> bool) (l : list A) :
  length (filter f l) <= length l.
Proof.
  induction l as [|a l IH]; simpl; [lia |].
  destruct (f a); simpl; lia.
Qed.

Lemma fieldExpr_all_any (field : string) (values : list jsstring) (st : Acc) :
  length (filter notBlank values) <= 1 ->
  fieldExpr field (allOp values) st = fieldExpr field (anyOp values) st.
Proof.
  intros H. rewrite !fieldExpr_spec.
  cbn [fieldText allOp anyOp any_ all_ none_ selectedValues].
  rewrite (chain_single OpAnd); [reflexivity |].
  unfold resultsOf.
  pose proof (filter_length_le notBlank
                (map (fvText field) (filter notBlank values))) as Hle.
  rewrite length_map in Hle. lia.
Qed.

(** X7: with at most one value that is not blank, [$all] compiles as
    [$any] does; so a plain string [v], [{ $any: [v] }] and [{ $all: [v] }]
    on a leaf field are three writings of one condition. *)
Theorem all_of_one_value_is_any
    (f : string) (values : list jsstring) (n : DriveQueryObject)
    (H : length (filter notBlank values) <= 1) :
  (forall st, fieldExpr f (allOp values) st = fieldExpr f (anyOp values) st)
  /\ returned (toDriveQuery (QObject (setField f (inr (allOp values)) n)))
     = returned (toDriveQuery (QObject (setField f (inr (anyOp values)) n))).
Proof.
  split; [intros st; apply fieldExpr_all_any; exact H |].
  apply toDriveQuery_sameReading, setField_sameReading.
  intros k st. apply fieldExpr_all_any. exact H.
Qed.

Lemma all_of_one_value_is_any_witness :
  length (filter notBlank [lit "budget"; lit " "]) <= 1
  /\ returned (toDriveQuery
                 (QObject (setField "name"
                             (inr (allOp [lit "budget"; lit " "]))
                             (starredIs true))))
     = returned (toDriveQuery
                   (QObject (setField "name"
                               (inr (anyOp [lit "budget"; lit " "]))
                               (starredIs true)))).
Proof.
  split; [vm_compute; lia |].
  apply (all_of_one_value_is_any "name" [lit "budget"; lit " "]
           (starredIs true)).
  vm_compute. lia.
Defined.

(* ================================================================= *)
(** ** No fragment has whitespace at its ends *)

Lemma tidy_of_ends (s : jsstring) :
  startsSolid s = true -> endsSolid s = true -> tidy s = true.
Proof.
  unfold tidy, endsSolid, startsSolid.
  destruct s as [|c s]; [discriminate |]. intros -> H.
  destruct (rev (c :: s)); [discriminate H | exact H].
Qed.

Lemma tidy_ends (s : jsstring) :
  tidy s = true -> s = [] \/ (startsSolid s = true /\ endsSolid s = true).
Proof.
  unfold tidy, endsSolid, startsSolid.
  destruct s as [|c s]; [left; reflexivity |]. intros H. right.
  apply andb_prop in H as [H1 H2]. split; [exact H1 |].
  destruct (rev (c :: s)) as [|d r] eqn:E; [| exact H2].
  apply (f_equal (@rev _)) in E. rewrite rev_involutive in E. discriminate E.
Qed.

Lemma startsSolid_app (a x : jsstring) :
  startsSolid a = true -> startsSolid (a ++ x) = true.
Proof. destruct a; [discriminate | intros H; exact H]. Qed.

Lemma endsSolid_app (x b : jsstring) :
  endsSolid b = true -> endsSolid (x ++ b) = true.
Proof.
  unfold endsSolid. rewrite rev_app_distr. apply startsSolid_app.
Qed.

Lemma startsSolid_notBlank (s : jsstring) :
  startsSolid s = true -> notBlank s = true.
Proof.
  destruct s as [|c s]; [discriminate |]. simpl. intros H.
  apply notBlank_cons. apply negb_true_iff. exact H.
Qed.

Lemma tidy_blank_nil (s : jsstring) :
  tidy s = true -> isBlank s = true -> s = [].
Proof.
  intros Ht Hb. destruct (tidy_ends s Ht) as [-> | [Hs _]]; [reflexivity |].
  apply startsSolid_notBlank in Hs. unfold notBlank in Hs.
  rewrite Hb in Hs. discriminate Hs.
Qed.

Lemma endsSolid_cons (c : jschar) (b : jsstring) :
  endsSolid b = true -> endsSolid (c :: b) = true.
Proof. apply (endsSolid_app [c] b). Qed.

Ltac solid_ends :=
  solve [ apply tidy_of_ends;
          [ repeat first [reflexivity | apply startsSolid_app]
          | repeat first [ reflexivity | apply endsSolid_app
                         | apply endsSolid_cons ] ] ].

Lemma p_tidy (s : jsstring) : tidy (p s) = true.
Proof. unfold p. solid_ends. Qed.

Lemma fvText_tidy (field : string) (raw : jsstring) :
  tidy (fvText field raw) = true.
Proof.
  unfold fvText, quote.
  repeat match goal with
         | |- context [String.eqb field ?s] => destruct (String.eqb field s)
         end; first [solid_ends | reflexivity].
Qed.

Lemma chain_tidy (op : ChainOp) (arr : list jsstring) :
  forallb tidy arr = true -> tidy (chain op arr) = true.
Proof.
  intros H. unfold chain.
  assert (Hf : forallb tidy (filter notBlank arr) = true).
  { induction arr as [|x arr IH]; simpl in *; [reflexivity |].
    apply andb_prop in H as [Hx Harr].
    destruct (notBlank x); simpl; [rewrite Hx |]; exact (IH Harr). }
  destruct (filter notBlank arr) as [|x [|y l]].
  - reflexivity.
  - simpl in Hf. rewrite andb_true_r in Hf. exact Hf.
  - apply p_tidy.
Qed.

Lemma resultsOf_tidy (field : string) (values : list jsstring) :
  forallb tidy (resultsOf field values) = true.
Proof.
  unfold resultsOf.
  induction (filter notBlank values) as [|v l IH]; simpl; [reflexivity |].
  destruct (notBlank (fvText field v)); simpl;
    [rewrite fvText_tidy |]; exact IH.
Qed.

Lemma fieldText_tidy (field : string) (op : FieldOperator) (text : jsstring) :
  fieldText field op = Some text -> tidy text = true.
Proof.
  unfold fieldText.
  destruct op as [[a|] [b|] [c|]]; cbn [any_ all_ none_]; intros H;
    try discriminate H; injection H as <-;
    match goal with
    | |- context [0 <? ?n] => destruct (0 <? n)
    end;
    first [ reflexivity
          | apply chain_tidy, resultsOf_tidy
          | solid_ends ].
Qed.

Lemma dateExpr_tidy (d : DateRange) : tidy (dateExpr d) = true.
Proof.
  unfold dateExpr.
  destruct (truthy (gte_ d)), (truthy (lt_ d)); cbn [push app length Nat.ltb Nat.leb nth];
    first [reflexivity | apply p_tidy | solid_ends].
Qed.

Lemma boolText_flag_tidy (label : jsstring) (b : bool) :
  startsSolid label = true -> tidy (label ++ boolText b) = true.
Proof.
  intros H. apply tidy_of_ends; [apply startsSolid_app; exact H |].
  apply endsSolid_app. destruct b; reflexivity.
Qed.

Lemma forallb_push {A} (f : A -> bool) (arr : list A) (x : A) :
  forallb f (push arr x) = forallb f arr && f x.
Proof. unfold push. rewrite forallb_app. simpl. rewrite andb_true_r. reflexivity. Qed.

Lemma fieldLoop_tidy (n : DriveQueryObject) (keys : list string) :
  forall ex st ex' st',
    forallb tidy ex = true ->
    fieldLoop n keys ex st = Ok (ex', st') ->
    forallb tidy ex' = true.
Proof.
  induction keys as [|k keys IH]; intros ex st ex' st' Hex H.
  - injection H as <- _. exact Hex.
  - cbn [fieldLoop] in H. destruct (lookupField k n) as [v|].
    + unfold bind in H. rewrite fieldExpr_spec in H.
      destruct (fieldText k (normalizedOp v)) as [text|] eqn:Et;
        [| discriminate H].
      apply (IH _ _ _ _) in H; [exact H |].
      destruct (notBlank text); [| exact Hex].
      rewrite forallb_push, Hex, (fieldText_tidy _ _ _ Et). reflexivity.
    + exact (IH _ _ _ _ Hex H).
Qed.

Lemma leafExpressions_tidy (n : DriveQueryObject) :
  forall st ex st',
    leafExpressions n st = Ok (ex, st') -> forallb tidy ex = true.
Proof.
  intros st ex st' H. unfold leafExpressions in H.
  destruct (starred n) as [b1|], (sharedWithMe n) as [b2|],
           (trashed n) as [b3|], (modifiedTime n) as [d|];
    cbv beta iota delta [bind modify ret] in H;
    apply fieldLoop_tidy in H; try exact H;
    rewrite ?forallb_push, ?dateExpr_tidy, ?boolText_flag_tidy by reflexivity;
    reflexivity.
Qed.

(** What a node without combinator emits has no whitespace at its ends. *)
Lemma emitLeaf_tidy (n : DriveQueryObject) :
  forall st s st', emitLeaf n st = Ok (s, st') -> tidy s = true.
Proof.
  intros st s st' H. unfold emitLeaf, bind in H.
  destruct (leafExpressions n st) as [[ex st1]|e] eqn:E; [| discriminate H].
  apply leafExpressions_tidy in E.
  destruct ((length ex =? 0) && noKeys n).
  { injection H as <- _. reflexivity. }
  destruct (1 <? length ex).
  { injection H as <- _. apply chain_tidy. exact E. }
  destruct (length ex =? 1); [| discriminate H].
  injection H as <- _. destruct ex as [|x ex]; [reflexivity |].
  simpl in E |- *. apply andb_prop in E as [Hx _]. exact Hx.
Qed.

(* ================================================================= *)
(** ** The root and the levels below it *)

Lemma noKeys_empty (n : DriveQueryObject) :
  noKeys n = true -> n = emptyObject.
Proof.
  intros H. destruct n as [a o nt nm mt ft pid sr sh tr md ow raw].
  unfold noKeys in H. cbn in H.
  destruct a; [discriminate H |]. destruct o; [discriminate H |].
  destruct nt; [discriminate H |]. destruct nm; [discriminate H |].
  destruct mt; [discriminate H |]. destruct ft; [discriminate H |].
  destruct pid; [discriminate H |]. destruct sr; [discriminate H |].
  destruct sh; [discriminate H |]. destruct tr; [discriminate H |].
  destruct md; [discriminate H |]. destruct ow; [discriminate H |].
  destruct raw; [discriminate H |]. reflexivity.
Qed.

Lemma hasCombinator_false (n : DriveQueryObject) :
  hasCombinator n = false ->
  and_ n = None /\ or_ n = None /\ not_ n = None.
Proof.
  unfold hasCombinator.
  destruct (and_ n), (or_ n), (not_ n); simpl; intros H;
    try discriminate H. repeat split.
Qed.

Lemma emit_leaf (n : DriveQueryObject) :
  hasCombinator n = false -> emit n = emitLeaf n.
Proof.
  intros H. destruct (hasCombinator_false n H) as (Ha & Ho & Hn).
  rewrite emit_eq, Ha, Ho, Hn. reflexivity.
Qed.

Lemma toDriveQuery_leaf (n : DriveQueryObject) :
  hasCombinator n = false ->
  toDriveQuery (QObject n)
  = match emit n freshAcc with
    | Ok (s, st) => Ok (mkOutput s (filtersOf st))
    | Throw e => Throw e
    end.
Proof.
  intros H. unfold toDriveQuery, emitTop.
  destruct (noKeys n) eqn:Hk.
  - rewrite (noKeys_empty n Hk). vm_compute. reflexivity.
  - destruct (hasCombinator_false n H) as (-> & -> & ->).
    unfold bind, ret. rewrite (emit_leaf n H).
    destruct (emitLeaf n freshAcc) as [[s st]|e] eqn:E; [| reflexivity].
    pose proof (emitLeaf_tidy n _ _ _ E) as Ht.
    destruct (isBlank s) eqn:Hb.
    + rewrite (tidy_blank_nil s Ht Hb). reflexivity.
    + rewrite (cleanQuery_tidy s Ht). reflexivity.
Qed.

(** X8: for a node without combinator the cleanup does nothing: the query
    string returned is the very text that [emit] builds for the node, and
    the call throws when [emit] does. *)
Theorem leaf_query_is_the_emitted_text
    (n : DriveQueryObject) (H : hasCombinator n = false) :
  toDriveQuery (QObject n)
  = match emit n freshAcc with
    | Ok (s, st) => Ok (mkOutput s (filtersOf st))
    | Throw e => Throw e
    end.
Proof. exact (toDriveQuery_leaf n H). Qed.

Lemma leaf_query_is_the_emitted_text_witness :
  hasCombinator name_any_all = false
  /\ toDriveQuery (QObject name_any_all)
     = match emit name_any_all freshAcc with
       | Ok (s, st) => Ok (mkOutput s (filtersOf st))
       | Throw e => Throw e
       end.
Proof.
  split; [reflexivity |].
  apply (leaf_query_is_the_emitted_text name_any_all). reflexivity.
Defined.

Lemma emitTop_singleton (sep : jsstring) (n : DriveQueryObject) (st : Acc) :
  (parts <- mapM emit [n] ;; ret (join sep parts)) st = emit n st.
Proof.
  rewrite mapM_cons. unfold bind, ret.
  destruct (emit n st) as [[s st']|e]; reflexivity.
Qed.

Lemma emitTop_andOf (n : DriveQueryObject) (st : Acc) :
  emitTop (andOf [n]) st = emit n st.
Proof. exact (emitTop_singleton (lit " and ") n st). Qed.

Lemma emitTop_orOf (n : DriveQueryObject) (st : Acc) :
  emitTop (orOf [n]) st = emit n st.
Proof. exact (emitTop_singleton (lit " or ") n st). Qed.

Lemma emitTop_emit_acc (n : DriveQueryObject) (st : Acc) :
  accOf (emitTop n st) = accOf (emit n st).
Proof.
  unfold emitTop. destruct (noKeys n) eqn:Hk.
  - rewrite (noKeys_empty n Hk). reflexivity.
  - rewrite (emit_eq n).
    destruct (and_ n) as [cs|]; [| destruct (or_ n) as [cs|];
                                   [| destruct (not_ n) as [c|]]];
      unfold bind, ret.
    + destruct (mapM emit cs st) as [[parts st']|e]; reflexivity.
    + destruct (mapM emit cs st) as [[parts st']|e]; reflexivity.
    + reflexivity.
    + destruct (emitLeaf n st) as [[r st']|e]; reflexivity.
Qed.

Lemma toDriveQuery_andOf (n : DriveQueryObject) :
  toDriveQuery (QObject (andOf [n]))
  = match emit n freshAcc with
    | Ok (s, st) => Ok (mkOutput (cleanQuery s) (filtersOf st))
    | Throw e => Throw e
    end.
Proof. unfold toDriveQuery. rewrite emitTop_andOf. reflexivity. Qed.

Lemma toDriveQuery_orOf (n : DriveQueryObject) :
  toDriveQuery (QObject (orOf [n]))
  = match emit n freshAcc with
    | Ok (s, st) => Ok (mkOutput (cleanQuery s) (filtersOf st))
    | Throw e => Throw e
    end.
Proof. unfold toDriveQuery. rewrite emitTop_orOf. reflexivity. Qed.

Lemma filtersOnly_toDriveQuery (n : DriveQueryObject) :
  filtersOnly (toDriveQuery (QObject n))
  = match accOf (emitTop n freshAcc) with
    | Ok st => Ok (filtersOf st)
    | Throw e => Throw e
    end.
Proof.
  unfold toDriveQuery.
  destruct (emitTop n freshAcc) as [[s st]|e]; reflexivity.
Qed.

(** X9: the filters do not depend on the depth at which a node is
    compiled.  Putting a query alone into [$and] or [$or] changes neither
    the filters returned nor whether, and with which error, the call
    throws. *)
Theorem wrapping_keeps_filters (n : DriveQueryObject) :
  filtersOnly (toDriveQuery (QObject (andOf [n])))
  = filtersOnly (toDriveQuery (QObject n))
  /\ filtersOnly (toDriveQuery (QObject (orOf [n])))
     = filtersOnly (toDriveQuery (QObject n)).
Proof.
  rewrite !filtersOnly_toDriveQuery.
  rewrite (emitTop_emit_acc n freshAcc).
  split.
  - replace (emitTop (andOf [n]) freshAcc) with (emit n freshAcc)
      by (symmetry; apply emitTop_andOf).
    reflexivity.
  - replace (emitTop (orOf [n]) freshAcc) with (emit n freshAcc)
      by (symmetry; apply emitTop_orOf).
    reflexivity.
Qed.

Lemma andOrChildren_None (n : DriveQueryObject) :
  andOrChildren n = None -> and_ n = None /\ or_ n = None.
Proof.
  unfold andOrChildren. destruct (and_ n), (or_ n); intros H;
    try discriminate H. split; reflexivity.
Qed.

Lemma toDriveQuery_via_emit (n : DriveQueryObject) :
  andOrChildren n = None ->
  toDriveQuery (QObject n)
  = match emit n freshAcc with
    | Ok (s, st) => Ok (mkOutput (cleanQuery s) (filtersOf st))
    | Throw e => Throw e
    end.
Proof.
  intros H. destruct (andOrChildren_None n H) as [Ha Ho].
  destruct (not_ n) as [c|] eqn:En.
  - unfold toDriveQuery, emitTop.
    assert (Hk : noKeys n = false).
    { unfold noKeys. rewrite En. rewrite !orb_true_r.
      destruct (isSome (and_ n) || isSome (or_ n)); reflexivity. }
    rewrite Hk, Ha, Ho, En, (emit_eq n), Ha, Ho, En. reflexivity.
  - assert (Hc : hasCombinator n = false).
    { unfold hasCombinator. rewrite Ha, Ho, En. reflexivity. }
    rewrite (toDriveQuery_leaf n Hc).
    rewrite (emit_leaf n Hc).
    destruct (emitLeaf n freshAcc) as [[s st]|e] eqn:E; [| reflexivity].
    rewrite (cleanQuery_tidy s (emitLeaf_tidy n _ _ _ E)). reflexivity.
Qed.

(** X10: a query that is not itself an [$and] or [$or] node compiles to the
    same result when it is put alone into [$and] or into [$or]: the same
    query string and filters, or the same error. *)
Theorem singleton_wrapper_is_transparent
    (n : DriveQueryObject) (H : andOrChildren n = None) :
  toDriveQuery (QObject (andOf [n])) = toDriveQuery (QObject n)
  /\ toDriveQuery (QObject (orOf [n])) = toDriveQuery (QObject n).
Proof.
  rewrite toDriveQuery_andOf, toDriveQuery_orOf, (toDriveQuery_via_emit n H).
  split; reflexivity.
Qed.

Lemma singleton_wrapper_is_transparent_witness :
  andOrChildren (notOf name_a) = None
  /\ toDriveQuery (QObject (andOf [notOf name_a]))
     = toDriveQuery (QObject (notOf name_a)).
Proof.
  split; [reflexivity |].
  apply (singleton_wrapper_is_transparent (notOf name_a)). reflexivity.
Defined.

Lemma emit_andOr (n : DriveQueryObject) (sep : jsstring)
    (children : list DriveQueryObject) (st : Acc) :
  andOrChildren n = Some (sep, children) ->
  emit n st = (parts <- mapM emit children ;; ret (p (join sep parts))) st.
Proof.
  intros H. rewrite emit_eq. unfold andOrChildren in H.
  destruct (and_ n) as [cs|]; [| destruct (or_ n) as [cs|]];
    try discriminate H; injection H as <- <-; reflexivity.
Qed.

(** X11: an [$and] or [$or] node put alone into [$and] or [$or] compiles
    to exactly its children's emissions, joined by its keyword, in one pair
    of parentheses: the cleanup leaves a parenthesised text alone. *)
Theorem nested_join_is_exactly_parenthesised
    (n : DriveQueryObject) (sep : jsstring) (children : list DriveQueryObject)
    (H : andOrChildren n = Some (sep, children)) :
  toDriveQuery (QObject (andOf [n]))
  = match mapM emit children freshAcc with
    | Ok (parts, st) => Ok (mkOutput (p (join sep parts)) (filtersOf st))
    | Throw e => Throw e
    end
  /\ toDriveQuery (QObject (orOf [n])) = toDriveQuery (QObject (andOf [n])).
Proof.
  rewrite toDriveQuery_andOf, toDriveQuery_orOf.
  split; [| reflexivity].
  rewrite (emit_andOr n sep children freshAcc H). unfold bind, ret.
  destruct (mapM emit children freshAcc) as [[parts st]|e]; [| reflexivity].
  rewrite (cleanQuery_tidy _ (p_tidy _)). reflexivity.
Qed.

Lemma nested_join_is_exactly_parenthesised_witness :
  andOrChildren and_two_empty
  = Some (lit " and ", [name_a; emptyObject; emptyObject])
  /\ toDriveQuery (QObject (andOf [and_two_empty]))
     = match mapM emit [name_a; emptyObject; emptyObject] freshAcc with
       | Ok (parts, st) =>
           Ok (mkOutput (p (join (lit " and ") parts)) (filtersOf st))
       | Throw e => Throw e
       end.
Proof.
  split; [reflexivity |].
  apply (nested_join_is_exactly_parenthesised and_two_empty (lit " and ")
           [name_a; emptyObject; emptyObject]).
  reflexivity.
Defined.

(* ================================================================= *)
(** ** The boolean flags *)

Lemma flagsSeen_eq (flag : DriveQueryObject -> option bool)
    (n : DriveQueryObject) :
  flagsSeen flag n
  = match and_ n with
    | Some children => flat_map (flagsSeen flag) children
    | None =>
    match or_ n with
    | Some children => flat_map (flagsSeen flag) children
    | None =>
    match not_ n with
    | Some child => flagsSeen flag child
    | None => match flag n with Some b => [b] | None => [] end
    end end end.
Proof. destruct n; reflexivity. Qed.

Lemma lastWrite_app (init : option bool) (l1 l2 : list bool) :
  lastWrite init (l1 ++ l2) = lastWrite (lastWrite init l1) l2.
Proof. apply fold_left_app. Qed.

Section Flags.
Variable flag : DriveQueryObject -> option bool.
Variable get : Acc -> option bool.
Hypothesis leaf_writes :
  forall n st ex st',
    leafExpressions n st = Ok (ex, st') ->
    get st' = lastWrite (get st)
                (match flag n with Some b => [b] | None => [] end).

Lemma emitLeaf_writes (n : DriveQueryObject) :
  forall st s st',
    emitLeaf n st = Ok (s, st') ->
    get st' = lastWrite (get st)
                (match flag n with Some b => [b] | None => [] end).
Proof.
  intros st s st' H. unfold emitLeaf, bind in H.
  destruct (leafExpressions n st) as [[ex st1]|e] eqn:E; [| discriminate H].
  apply leaf_writes in E. rewrite <- E. f_equal.
  repeat match type of H with
         | (if ?c then _ else _) _ = _ => destruct c
         end;
    try discriminate H; injection H as _ <-; reflexivity.
Qed.

Lemma mapM_emit_writes (children : list DriveQueryObject) :
  Forall (emitWrites flag get) children ->
  forall st parts st',
    mapM emit children st = Ok (parts, st') ->
    get st' = lastWrite (get st) (flat_map (flagsSeen flag) children).
Proof.
  induction 1 as [|c children Hc Hcs IH]; intros st parts st' H.
  - injection H as _ <-. reflexivity.
  - rewrite mapM_cons in H. unfold bind at 1 in H.
    destruct (emit c st) as [[s st1]|e] eqn:E; [| discriminate H].
    unfold bind at 1 in H.
    destruct (mapM emit children st1) as [[ss st2]|e] eqn:E2;
      [| discriminate H].
    injection H as _ <-.
    cbn [flat_map]. rewrite lastWrite_app, <- (Hc _ _ _ E).
    exact (IH _ _ _ E2).
Qed.

Lemma emit_writes (n : DriveQueryObject) : emitWrites flag get n.
Proof.
  induction n as [a o nt nm mt ft pid sr sh tr md ow raw Ha Ho Hnt]
    using DriveQueryObject_tree_ind.
  intros st s st' H. rewrite emit_eq in H. rewrite flagsSeen_eq.
  cbn [and_ or_ not_] in H |- *.
  destruct a as [cs|]; [| destruct o as [cs|]; [| destruct nt as [c|]]].
  - unfold bind in H.
    destruct (mapM emit cs st) as [[parts st1]|e] eqn:E; [| discriminate H].
    injection H as _ <-. exact (mapM_emit_writes cs Ha _ _ _ E).
  - unfold bind in H.
    destruct (mapM emit cs st) as [[parts st1]|e] eqn:E; [| discriminate H].
    injection H as _ <-. exact (mapM_emit_writes cs Ho _ _ _ E).
  - unfold bind in H.
    destruct (emit c st) as [[s1 st1]|e] eqn:E; [| discriminate H].
    injection H as _ <-. exact (Hnt _ _ _ E).
  - exact (emitLeaf_writes _ _ _ _ H).
Qed.

Lemma emitTop_writes (n : DriveQueryObject) :
  forall st s st',
    emitTop n st = Ok (s, st') ->
    get st' = lastWrite (get st) (flagsSeen flag n).
Proof.
  intros st s st' H.
  pose proof (emitTop_emit_acc n st) as Hacc. rewrite H in Hacc.
  destruct (emit n st) as [[s1 st1]|e] eqn:E; [| discriminate Hacc].
  injection Hacc as ->. exact (emit_writes n _ _ _ E).
Qed.
End Flags.

Lemma pushField_flags (k : string) (v : jsstring) (st : Acc) :
  starredFlag (pushField k v st) = starredFlag st
  /\ sharedWithMeFlag (pushField k v st) = sharedWithMeFlag st
  /\ trashedFlag (pushField k v st) = trashedFlag st.
Proof.
  unfold pushField. destruct st.
  repeat match goal with
         | |- context [String.eqb k ?s] => destruct (String.eqb k s)
         end; repeat split.
Qed.

Lemma pushAll_flags (k : string) (values : list jsstring) (st : Acc) :
  starredFlag (pushAll k values st) = starredFlag st
  /\ sharedWithMeFlag (pushAll k values st) = sharedWithMeFlag st
  /\ trashedFlag (pushAll k values st) = trashedFlag st.
Proof.
  revert st. induction values as [|v values IH]; intros st.
  - repeat split.
  - change (pushAll k (v :: values) st)
      with (pushAll k values (pushField k v st)).
    destruct (IH (pushField k v st)) as (-> & -> & ->).
    apply pushField_flags.
Qed.

Lemma fieldLoop_flags (n : DriveQueryObject) (keys : list string) :
  forall ex st ex' st',
    fieldLoop n keys ex st = Ok (ex', st') ->
    starredFlag st' = starredFlag st
    /\ sharedWithMeFlag st' = sharedWithMeFlag st
    /\ trashedFlag st' = trashedFlag st.
Proof.
  induction keys as [|k keys IH]; intros ex st ex' st' H.
  - injection H as _ <-. repeat split.
  - cbn [fieldLoop] in H. destruct (lookupField k n) as [v|].
    + unfold bind in H. rewrite fieldExpr_spec in H.
      destruct (fieldText k (normalizedOp v)); [| discriminate H].
      destruct (IH _ _ _ _ H) as (-> & -> & ->). apply pushAll_flags.
    + exact (IH _ _ _ _ H).
Qed.

Lemma leafExpressions_flags (n : DriveQueryObject) :
  forall st ex st',
    leafExpressions n st = Ok (ex, st') ->
    starredFlag st'
    = lastWrite (starredFlag st)
        (match starred n with Some b => [b] | None => [] end)
    /\ sharedWithMeFlag st'
       = lastWrite (sharedWithMeFlag st)
           (match sharedWithMe n with Some b => [b] | None => [] end)
    /\ trashedFlag st'
       = lastWrite (trashedFlag st)
           (match trashed n with Some b => [b] | None => [] end).
Proof.
  intros st ex st' H. unfold leafExpressions in H.
  destruct (starred n), (sharedWithMe n), (trashed n);
    cbv beta iota delta [bind modify ret] in H;
    destruct (fieldLoop_flags _ _ _ _ _ _ H) as (-> & -> & ->);
    destruct st; repeat split.
Qed.

Lemma toDriveQuery_flags (n : DriveQueryObject) (out : Output) :
  toDriveQuery (QObject n) = Ok out ->
  Filters.starred (filters out) = lastWrite None (flagsSeen starred n)
  /\ Filters.sharedWithMe (filters out)
     = lastWrite None (flagsSeen sharedWithMe n)
  /\ Filters.trashed (filters out) = lastWrite None (flagsSeen trashed n).
Proof.
  unfold toDriveQuery. intros H.
  destruct (emitTop n freshAcc) as [[q0 st]|e] eqn:E; [| discriminate H].
  injection H as <-.
  cbn [filters filtersOf Filters.starred Filters.sharedWithMe Filters.trashed].
  split; [| split].
  - apply (emitTop_writes starred starredFlag) in E; [exact E |].
    intros m s ex s' Hm. apply (leafExpressions_flags m s ex s' Hm).
  - apply (emitTop_writes sharedWithMe sharedWithMeFlag) in E;
      [exact E |].
    intros m s ex s' Hm. apply (leafExpressions_flags m s ex s' Hm).
  - apply (emitTop_writes trashed trashedFlag) in E; [exact E |].
    intros m s ex s' Hm. apply (leafExpressions_flags m s ex s' Hm).
Qed.

(** X12: each boolean flag of the filters holds the value that the last
    node met by the traversal gives to it, whatever combinators enclose that
    node and the earlier ones; it is absent when no compiled node sets the
    flag.  So [{ $or: [{ starred: true }, { starred: false }] }] reports
    [starred: false]. *)
Theorem flags_last_write_wins
    (n : DriveQueryObject) (out : Output)
    (H : toDriveQuery (QObject n) = Ok out) :
  Filters.starred (filters out) = lastWrite None (flagsSeen starred n)
  /\ Filters.sharedWithMe (filters out)
     = lastWrite None (flagsSeen sharedWithMe n)
  /\ Filters.trashed (filters out) = lastWrite None (flagsSeen trashed n).
Proof. exact (toDriveQuery_flags n out H). Qed.

Lemma flags_last_write_wins_witness :
  toDriveQuery (QObject (orOf [starredIs true; starredIs false]))
  = Ok (mkOutput (lit "starred = true or starred = false")
          (Filters.mk None None None None None (Some false) None None))
  /\ Filters.starred
       (filters (mkOutput (lit "starred = true or starred = false")
                   (Filters.mk None None None None None (Some false)
                               None None)))
     = lastWrite None (flagsSeen starred (orOf [starredIs true; starredIs false])).
Proof.
  assert (E : toDriveQuery (QObject (orOf [starredIs true; starredIs false]))
    = Ok (mkOutput (lit "starred = true or starred = false")
            (Filters.mk None None None None None (Some false) None None)))
    by (vm_compute; reflexivity).
  split; [exact E |].
  apply (flags_last_write_wins _ _ E).
Defined.

(* ================================================================= *)
(** ** What the filters and the query string never hold *)

Lemma forallb_flat_map {A B} (f : B -> bool) (g : A -> list B) (l : list A) :
  Forall (fun a => forallb f (g a) = true) l ->
  forallb f (flat_map g l) = true.
Proof.
  induction 1 as [|a l Ha Hl IH]; simpl; [reflexivity |].
  rewrite forallb_app, Ha, IH. reflexivity.
Qed.

Lemma referenced_notBlank (k : string) (n : DriveQueryObject) :
  forallb notBlank (referenced k n) = true.
Proof.
  induction n as [a o nt nm mt ft pid sr sh tr md ow raw Ha Ho Hnt]
    using DriveQueryObject_tree_ind.
  rewrite referenced_eq. cbn [and_ or_ not_].
  destruct a as [cs|]; [| destruct o as [cs|]; [| destruct nt as [c|]]].
  - apply forallb_flat_map. exact Ha.
  - apply forallb_flat_map. exact Ho.
  - exact Hnt.
  - unfold compiledValues. destruct (lookupField k _); [| reflexivity].
    apply forallb_filter.
Qed.

Lemma whenNonEmpty_listed (values : list jsstring) :
  forallb notBlank values = true -> listedValues (whenNonEmpty values).
Proof.
  destruct values as [|v values]; simpl; [exact (fun _ => I) |].
  intros H. split; [discriminate | exact H].
Qed.

Lemma toDriveQuery_listed (n : DriveQueryObject) (out : Output) :
  toDriveQuery (QObject n) = Ok out ->
  listedValues (Filters.nameIncludes (filters out))
  /\ listedValues (Filters.mimeTypeIncludes (filters out))
  /\ listedValues (Filters.fullTextIncludes (filters out))
  /\ listedValues (Filters.parentIdIncludes (filters out))
  /\ listedValues (Filters.ownerIncludes (filters out)).
Proof.
  unfold toDriveQuery. intros H.
  destruct (emitTop n freshAcc) as [[q0 st]|e] eqn:E; [| discriminate H].
  injection H as <-.
  assert (Hk : forall k, In k fieldKeys ->
                         forallb notBlank (includesOf k st) = true).
  { intros k Hk. rewrite (emitTop_includes k Hk n _ _ _ E).
    rewrite includesOf_freshAcc. apply referenced_notBlank. }
  cbn [filters filtersOf Filters.nameIncludes Filters.mimeTypeIncludes
       Filters.fullTextIncludes Filters.parentIdIncludes
       Filters.ownerIncludes].
  repeat split; apply whenNonEmpty_listed.
  - apply (Hk "name"%string). simpl; tauto.
  - apply (Hk "mimeType"%string). simpl; tauto.
  - apply (Hk "fullText"%string). simpl; tauto.
  - apply (Hk "parentId"%string). simpl; tauto.
  - apply (Hk "owner"%string). simpl; tauto.
Qed.

(** X13: the filters never list a blank value, and never hold an empty
    list: a field without compiled literal has no entry at all. *)
Theorem filters_hold_no_blank_value
    (n : DriveQueryObject) (out : Output)
    (H : toDriveQuery (QObject n) = Ok out) :
  listedValues (Filters.nameIncludes (filters out))
  /\ listedValues (Filters.mimeTypeIncludes (filters out))
  /\ listedValues (Filters.fullTextIncludes (filters out))
  /\ listedValues (Filters.parentIdIncludes (filters out))
  /\ listedValues (Filters.ownerIncludes (filters out)).
Proof. exact (toDriveQuery_listed n out H). Qed.

Lemma filters_hold_no_blank_value_witness :
  toDriveQuery
    (QObject (nameIs (inr (anyOp [[]; lit "  "; lit "valid"]))))
  = Ok (mkOutput (lit "name contains 'valid'") (onlyNames [lit "valid"]))
  /\ listedValues
       (Filters.nameIncludes
          (filters (mkOutput (lit "name contains 'valid'")
                      (onlyNames [lit "valid"])))).
Proof.
  assert (E : toDriveQuery
                (QObject (nameIs (inr (anyOp [[]; lit "  "; lit "valid"]))))
    = Ok (mkOutput (lit "name contains 'valid'") (onlyNames [lit "valid"])))
    by (vm_compute; reflexivity).
  split; [exact E |].
  apply (filters_hold_no_blank_value _ _ E).
Defined.

Lemma toDriveQuery_tidy (n : DriveQueryObject) (out : Output) :
  toDriveQuery (QObject n) = Ok out ->
  tidy (q out) = true /\ cleanQuery (q out) = q out.
Proof.
  unfold toDriveQuery. intros H.
  destruct (emitTop n freshAcc) as [[q0 st]|e]; [| discriminate H].
  injection H as <-. cbn [q].
  assert (Ht : tidy (cleanQuery q0) = true) by apply tidy_trim.
  split; [exact Ht | exact (cleanQuery_tidy _ Ht)].
Qed.

(** X14: the query string compiled from an object never starts or ends
    with whitespace, and cleaning it once more changes nothing. *)
Theorem query_string_is_trimmed
    (n : DriveQueryObject) (out : Output)
    (H : toDriveQuery (QObject n) = Ok out) :
  tidy (q out) = true /\ cleanQuery (q out) = q out.
Proof. exact (toDriveQuery_tidy n out H). Qed.

Lemma query_string_is_trimmed_witness :
  toDriveQuery (QObject (notOf emptyObject))
  = Ok (mkOutput (lit "not") noFilters)
  /\ tidy (q (mkOutput (lit "not") noFilters)) = true.
Proof.
  assert (E : toDriveQuery (QObject (notOf emptyObject))
              = Ok (mkOutput (lit "not") noFilters))
    by (vm_compute; reflexivity).
  split; [exact E |].
  apply (query_string_is_trimmed _ _ E).
Defined.

(* ================================================================= *)
(** ** Trees in which no child emits the empty string *)

Lemma solidText_tidy (s : jsstring) : solidText s = true -> tidy s = true.
Proof.
  unfold solidText. intros H. apply andb_prop in H as [H1 H2].
  exact (tidy_of_ends s H1 H2).
Qed.

Lemma solidText_of_tidy (s : jsstring) :
  tidy s = true -> notBlank s = true -> solidText s = true.
Proof.
  intros Ht Hn. destruct (tidy_ends s Ht) as [-> | [H1 H2]].
  - discriminate Hn.
  - unfold solidText. rewrite H1, H2. reflexivity.
Qed.

Lemma emitsText_eq (n : DriveQueryObject) :
  emitsText n
  = match and_ n with
    | Some _ => true
    | None =>
    match or_ n with
    | Some _ => true
    | None =>
    match not_ n with
    | Some child => emitsText child
    | None => leafYields n
    end end end.
Proof. destruct n; reflexivity. Qed.

Lemma existsb_push {A} (f : A -> bool) (arr : list A) (x : A) :
  existsb f (push arr x) = existsb f arr || f x.
Proof. unfold push. rewrite existsb_app. simpl. rewrite orb_false_r. reflexivity. Qed.

Lemma fieldLoop_yields (n : DriveQueryObject) (keys : list string) :
  Forall (fun k => In k fieldKeys) keys ->
  forall ex st ex' st',
    fieldLoop n keys ex st = Ok (ex', st') ->
    existsb notBlank ex
    || existsb (fun k => fieldYields (lookupField k n)) keys = true ->
    existsb notBlank ex' = true.
Proof.
  induction 1 as [|k keys Hk Hkeys IH]; intros ex st ex' st' H Hy.
  - injection H as <- _. cbn [existsb] in Hy. rewrite orb_false_r in Hy.
    exact Hy.
  - cbn [fieldLoop existsb] in H, Hy. destruct (lookupField k n) as [v|].
    + unfold bind in H. rewrite fieldExpr_spec in H.
      destruct (fieldText k (normalizedOp v)) as [text|] eqn:Et;
        [| discriminate H].
      apply (IH _ _ _ _ H).
      destruct (existsb (fun k0 => fieldYields (lookupField k0 n)) keys);
        [apply orb_true_r |].
      rewrite orb_false_r in Hy |- *.
      destruct (notBlank text) eqn:Hn.
      * rewrite existsb_push, Hn. apply orb_true_r.
      * destruct (existsb notBlank ex); [reflexivity |].
        cbn [orb] in Hy. unfold fieldYields in Hy.
        cbn [compiledValues] in Hy. rewrite existsb_filter in Hy.
        rewrite (fieldText_notBlank k _ text Hk Hy Et) in Hn.
        discriminate Hn.
    + apply (IH _ _ _ _ H).
      unfold fieldYields in Hy at 1. cbn [compiledValues existsb] in Hy.
      rewrite orb_false_l in Hy. exact Hy.
Qed.

Lemma flagText_notBlank (label : jsstring) (b : bool) :
  startsSolid label = true -> notBlank (label ++ boolText b) = true.
Proof.
  intros H. apply startsSolid_notBlank, startsSolid_app. exact H.
Qed.

Lemma leafExpressions_yields (n : DriveQueryObject) :
  leafYields n = true ->
  forall st ex st',
    leafExpressions n st = Ok (ex, st') -> existsb notBlank ex = true.
Proof.
  unfold leafYields, leafExpressions, dateYields. intros Hy st ex st' H.
  destruct (starred n) as [b1|], (sharedWithMe n) as [b2|],
           (trashed n) as [b3|], (modifiedTime n) as [d|];
    cbv beta iota delta [bind modify ret] in H;
    apply (fieldLoop_yields n fieldKeys fieldKeys_in) in H; try exact H;
    rewrite ?existsb_push, ?flagText_notBlank by reflexivity;
    cbn [isSome orb existsb] in Hy |- *;
    rewrite ?orb_true_r; try reflexivity; try exact Hy.
Qed.

Lemma emitLeaf_solid (n : DriveQueryObject) :
  leafYields n = true ->
  forall st s st', emitLeaf n st = Ok (s, st') -> solidText s = true.
Proof.
  intros Hy st s st' H.
  pose proof (emitLeaf_tidy n _ _ _ H) as Ht.
  apply solidText_of_tidy; [exact Ht |].
  unfold emitLeaf, bind in H.
  destruct (leafExpressions n st) as [[ex st1]|e] eqn:E; [| discriminate H].
  apply (leafExpressions_yields n Hy) in E.
  destruct ex as [|x [|y ex]]; [discriminate E | |].
  - cbn in H. injection H as <- _. cbn in E. rewrite orb_false_r in E.
    exact E.
  - cbn [length Nat.eqb andb Nat.ltb Nat.leb] in H. injection H as <- _.
    unfold notBlank.
    rewrite chain_isBlank.
    apply negb_true_iff.
    destruct (forallb isBlank (x :: y :: ex)) eqn:Hall; [| reflexivity].
    exfalso. clear - E Hall.
    induction (x :: y :: ex) as [|z l IH]; [discriminate E |].
    cbn in E, Hall. apply andb_prop in Hall as [Hz Hl].
    unfold notBlank in E at 1. rewrite Hz in E. exact (IH E Hl).
Qed.

Lemma p_solid (s : jsstring) : solidText (p s) = true.
Proof.
  apply solidText_of_tidy; [apply p_tidy | apply p_notBlank].
Qed.

Lemma not_solid (s : jsstring) :
  solidText s = true -> solidText (lit "not " ++ s) = true.
Proof.
  unfold solidText. intros H. apply andb_prop in H as [_ H].
  apply andb_true_intro. split; [reflexivity | apply endsSolid_app; exact H].
Qed.

Lemma mapM_emit_solid (children : list DriveQueryObject) :
  Forall emitsSolid children ->
  forallb emitsText children = true ->
  forall st parts st',
    mapM emit children st = Ok (parts, st') ->
    forallb solidText parts = true.
Proof.
  induction 1 as [|c children Hc Hcs IH]; intros Hall st parts st' H.
  - injection H as <- _. reflexivity.
  - cbn [forallb] in Hall. apply andb_prop in Hall as [Hhead Hrest].
    rewrite mapM_cons in H. unfold bind at 1 in H.
    destruct (emit c st) as [[s st1]|e] eqn:E; [| discriminate H].
    unfold bind at 1 in H.
    destruct (mapM emit children st1) as [[ss st2]|e] eqn:E2;
      [| discriminate H].
    injection H as <- _. cbn [forallb].
    rewrite (Hc Hhead _ _ _ E), (IH Hrest _ _ _ E2). reflexivity.
Qed.

Lemma emit_solid (n : DriveQueryObject) : emitsSolid n.
Proof.
  induction n as [a o nt nm mt ft pid sr sh tr md ow raw Ha Ho Hnt]
    using DriveQueryObject_tree_ind.
  intros Ht st s st' H. rewrite emitsText_eq in Ht. rewrite emit_eq in H.
  cbn [and_ or_ not_] in Ht, H.
  destruct a as [cs|]; [| destruct o as [cs|]; [| destruct nt as [c|]]].
  - unfold bind in H.
    destruct (mapM emit cs st) as [[parts st1]|e]; [| discriminate H].
    injection H as <- _. apply p_solid.
  - unfold bind in H.
    destruct (mapM emit cs st) as [[parts st1]|e]; [| discriminate H].
    injection H as <- _. apply p_solid.
  - unfold bind in H.
    destruct (emit c st) as [[s1 st1]|e] eqn:E; [| discriminate H].
    injection H as <- _. apply not_solid. exact (Hnt Ht _ _ _ E).
  - exact (emitLeaf_solid _ Ht _ _ _ H).
Qed.

Lemma emit_children_solid (children : list DriveQueryObject) :
  Forall emitsSolid children.
Proof. apply Forall_forall. intros c _. apply emit_solid. Qed.

Lemma join_solid (sep : jsstring) (parts : list jsstring) :
  forallb solidText parts = true -> parts <> [] ->
  solidText (join sep parts) = true.
Proof.
  induction parts as [|x parts IH]; intros H Hne; [contradiction |].
  cbn [forallb] in H. apply andb_prop in H as [Hx Hrest].
  destruct parts as [|y parts]; [exact Hx |].
  change (join sep (x :: y :: parts)) with (x ++ sep ++ join sep (y :: parts)).
  specialize (IH Hrest ltac:(discriminate)).
  unfold solidText in *. apply andb_prop in Hx as [Hx _].
  apply andb_prop in IH as [_ IH].
  rewrite (startsSolid_app _ _ Hx).
  rewrite (endsSolid_app x _ (endsSolid_app sep _ IH)). reflexivity.
Qed.

Lemma join_tidy (sep : jsstring) (parts : list jsstring) :
  forallb solidText parts = true -> tidy (join sep parts) = true.
Proof.
  intros H. destruct parts as [|x parts]; [reflexivity |].
  apply solidText_tidy, join_solid; [exact H | discriminate].
Qed.

Lemma emitTop_tidy (n : DriveQueryObject) :
  rootSolid n = true ->
  forall st s st', emitTop n st = Ok (s, st') -> tidy s = true.
Proof.
  unfold rootSolid, emitTop. intros Hr st s st' H.
  destruct (noKeys n); [injection H as <- _; reflexivity |].
  destruct (and_ n) as [cs|] eqn:Ea;
    [| destruct (or_ n) as [cs|] eqn:Eo;
       [| destruct (not_ n) as [c|] eqn:En]];
    unfold bind in H.
  - destruct (mapM emit cs st) as [[parts st1]|e] eqn:E; [| discriminate H].
    injection H as <- _. apply join_tidy.
    exact (mapM_emit_solid cs (emit_children_solid cs) Hr _ _ _ E).
  - destruct (mapM emit cs st) as [[parts st1]|e] eqn:E; [| discriminate H].
    injection H as <- _. apply join_tidy.
    exact (mapM_emit_solid cs (emit_children_solid cs) Hr _ _ _ E).
  - destruct (emit c st) as [[s1 st1]|e] eqn:E; [| discriminate H].
    injection H as <- _. apply solidText_tidy, not_solid.
    exact (emit_solid c Hr _ _ _ E).
  - destruct (emit n st) as [[r st1]|e] eqn:E; [| discriminate H].
    injection H as <- _. destruct (isBlank r); [reflexivity |].
    rewrite emit_eq, Ea, Eo, En in E. exact (emitLeaf_tidy _ _ _ _ E).
Qed.

Lemma toDriveQuery_rootSolid (n : DriveQueryObject) :
  rootSolid n = true ->
  toDriveQuery (QObject n)
  = match emitTop n freshAcc with
    | Ok (s, st) => Ok (mkOutput s (filtersOf st))
    | Throw e => Throw e
    end.
Proof.
  intros Hr. unfold toDriveQuery.
  destruct (emitTop n freshAcc) as [[s st]|e] eqn:E; [| reflexivity].
  rewrite (cleanQuery_tidy s (emitTop_tidy n Hr _ _ _ E)). reflexivity.
Qed.

Lemma emitTop_andOr (n : DriveQueryObject) (sep : jsstring)
    (children : list DriveQueryObject) (st : Acc) :
  andOrChildren n = Some (sep, children) ->
  emitTop n st = (parts <- mapM emit children ;; ret (join sep parts)) st.
Proof.
  intros H. unfold andOrChildren in H. unfold emitTop.
  assert (Hk : noKeys n = false).
  { unfold noKeys. destruct (and_ n), (or_ n); try discriminate H;
      reflexivity. }
  rewrite Hk.
  destruct (and_ n) as [cs|]; [| destruct (or_ n) as [cs|]];
    try discriminate H; injection H as <- <-; reflexivity.
Qed.

(** X15: where every child of a root [$and] or [$or] (or the child of a
    root [$not]) is an [$and] or [$or] node, a node without combinator that
    yields a fragment which is not blank, or a [$not] over a node of these
    forms, the cleanup removes nothing: the query string is the text that
    [emitTop] builds, and for a root [$and] or [$or] it is the emissions of
    the children joined by the keyword.  The same holds for every root
    without combinator. *)
Theorem cleanup_is_identity_on_solid_trees
    (n : DriveQueryObject) (H : rootSolid n = true) :
  toDriveQuery (QObject n)
  = match emitTop n freshAcc with
    | Ok (s, st) => Ok (mkOutput s (filtersOf st))
    | Throw e => Throw e
    end
  /\ (forall sep children,
        andOrChildren n = Some (sep, children) ->
        toDriveQuery (QObject n)
        = match mapM emit children freshAcc with
          | Ok (parts, st) => Ok (mkOutput (join sep parts) (filtersOf st))
          | Throw e => Throw e
          end).
Proof.
  split; [exact (toDriveQuery_rootSolid n H) |].
  intros sep children Hc. rewrite (toDriveQuery_rootSolid n H).
  rewrite (emitTop_andOr n sep children freshAcc Hc). unfold bind, ret.
  destruct (mapM emit children freshAcc) as [[parts st]|e]; reflexivity.
Qed.

Lemma cleanup_is_identity_on_solid_trees_witness :
  rootSolid and_not_name = true
  /\ toDriveQuery (QObject and_not_name)
     = match emitTop and_not_name freshAcc with
       | Ok (s, st) => Ok (mkOutput s (filtersOf st))
       | Throw e => Throw e
       end.
Proof.
  split; [reflexivity |].
  apply (cleanup_is_identity_on_solid_trees and_not_name). reflexivity.
Defined.

(* ================================================================= *)
(** ** The query strings of the search tools *)

Example folderClause_text :
  folderClause
  = lit "mimeType='application/vnd.google-apps.folder' and trashed = false".
Proof. reflexivity. Qed.

Lemma app_lit_assoc (body : jsstring) (tail : jsstring) :
  lit "(" ++ body ++ lit ") and " ++ tail
  = (lit "(" ++ body ++ lit ") and ") ++ tail.
Proof.
  rewrite <- !app_assoc. reflexivity.
Qed.

Lemma search_strings_share_user_part (query : DriveQuery) :
  match filesSearchQStr query, folderSearchQStr (Some query) with
  | Ok files, Ok folders =>
      exists user,
        userPart user
        /\ files = user ++ lit "trashed = false"
        /\ folders = user ++ folderClause
  | Throw e1, Throw e2 => e1 = e2
  | _, _ => False
  end.
Proof.
  assert (Hpar : forall body,
            exists user,
              userPart user
              /\ lit "(" ++ body ++ lit ") and trashed = false"
                 = user ++ lit "trashed = false"
              /\ lit "(" ++ body ++ lit ") and " ++ folderClause
                 = user ++ folderClause).
  { intros body. exists (lit "(" ++ body ++ lit ") and ").
    split; [right; exists body; reflexivity |].
    split; [| apply app_lit_assoc].
    rewrite <- !app_assoc. reflexivity. }
  destruct query as [s | n]; cbn [filesSearchQStr folderSearchQStr].
  - apply Hpar.
  - destruct (truthy (rawDriveQuery n)) as [raw|]; [apply Hpar |].
    destruct (toDriveQuery (QObject n)) as [out|e]; [| reflexivity].
    destruct (q out) as [|c body] eqn:Eq.
    + exists []. split; [left; reflexivity | split; reflexivity].
    + apply Hpar.
Qed.

(** X16: the statements that compute [qStr] in the two search handlers
    put the same text of the caller in front of their fixed clauses, and
    always end with these: [trashed = false] for files, the folder type and
    [trashed = false] for folders, also when the query itself asks for
    trashed files.  The caller's part is absent or put in parentheses.  The
    statements end by an exception in one handler exactly when they do in
    the other, and it is the same exception of [toDriveQuery]; what the
    [catch] block of each handler then makes of it is not part of this
    statement. *)
Theorem search_tools_always_add_fixed_clauses (query : DriveQuery) :
  match filesSearchQStr query, folderSearchQStr (Some query) with
  | Ok files, Ok folders =>
      exists user,
        userPart user
        /\ files = user ++ lit "trashed = false"
        /\ folders = user ++ folderClause
  | Throw e1, Throw e2 => e1 = e2
  | _, _ => False
  end.
Proof. exact (search_strings_share_user_part query). Qed.

Lemma truthy_Some (c : jschar) (s : jsstring) :
  truthy (Some (c :: s)) = Some (c :: s).
Proof. reflexivity. Qed.

(** X17: the search tools take a [rawDriveQuery] that is not empty as they
    take a string query: its text goes into the parentheses unchanged, the
    other keys of the object are not compiled, and no error is thrown.
    This is where the raw field is emitted, not in [toDriveQuery]. *)
Theorem raw_field_is_used_by_the_search_tools
    (n : DriveQueryObject) (raw : jsstring)
    (Hraw : rawDriveQuery n = Some raw) (Hne : raw <> []) :
  filesSearchQStr (QObject n)
  = Ok (lit "(" ++ raw ++ lit ") and trashed = false")
  /\ filesSearchQStr (QObject n) = filesSearchQStr (QString raw)
  /\ folderSearchQStr (Some (QObject n)) = folderSearchQStr (Some (QString raw)).
Proof.
  destruct raw as [|c raw]; [contradiction |].
  cbn [filesSearchQStr folderSearchQStr]. rewrite Hraw, truthy_Some.
  repeat split.
Qed.

Lemma raw_field_is_used_by_the_search_tools_witness :
  rawDriveQuery (setField "name" (inr noOperator) (rawOnly (lit "x = 'y'")))
  = Some (lit "x = 'y'")
  /\ lit "x = 'y'" <> []
  /\ filesSearchQStr
       (QObject (setField "name" (inr noOperator) (rawOnly (lit "x = 'y'"))))
     = Ok (lit "(x = 'y') and trashed = false").
Proof.
  split; [reflexivity | split; [discriminate |]].
  apply (raw_field_is_used_by_the_search_tools
           (setField "name" (inr noOperator) (rawOnly (lit "x = 'y'")))
           (lit "x = 'y'")); [reflexivity | discriminate].
Defined.

(* ================================================================= *)
(** ** The page size *)

Lemma Qle_bool_int (a b : Z) : Qle_bool (inject_Z a) (inject_Z b) = (a <=? b)%Z.
Proof.
  unfold Qle_bool, inject_Z. simpl. rewrite !Z.mul_1_r. reflexivity.
Qed.

Lemma clamp_int (z : Z) :
  mathMax (int 1) (mathMin (int 1000) (int z))
  = int (Z.max 1 (Z.min 1000 z)).
Proof.
  unfold int, mathMin. rewrite Qle_bool_int.
  destruct (1000 <=? z)%Z eqn:E1.
  - apply Z.leb_le in E1. unfold mathMax. rewrite Qle_bool_int.
    rewrite (Z.min_l 1000 z E1). reflexivity.
  - apply Z.leb_gt in E1. unfold mathMax. rewrite Qle_bool_int.
    rewrite (Z.min_r 1000 z) by lia.
    destruct (1 <=? z)%Z eqn:E2.
    + apply Z.leb_le in E2. rewrite (Z.max_r 1 z E2). reflexivity.
    + apply Z.leb_gt in E2. rewrite (Z.max_l 1 z) by lia. reflexivity.
Qed.

Lemma validPageSize_range (pageSize : option jsnumber) :
  exists z, (1 <= z <= 1000)%Z /\ validPageSize pageSize = int z.
Proof.
  unfold validPageSize.
  destruct pageSize as [[| | | v]|]; cbn [numberOr mathFloor].
  - exists 50%Z. split; [lia | reflexivity].
  - exists 1000%Z. split; [lia | reflexivity].
  - exists 1%Z. split; [lia | reflexivity].
  - destruct (Qeq_bool v 0).
    + exists 50%Z. split; [lia | reflexivity].
    + cbn [mathFloor]. change (Finite (inject_Z (Qfloor v))) with (int (Qfloor v)).
      rewrite clamp_int. eexists. split; [| reflexivity]. lia.
  - exists 50%Z. split; [lia | reflexivity].
Qed.

Lemma validPageSize_int (z : Z) :
  validPageSize (Some (int z))
  = int (if (z =? 0)%Z then 50 else Z.max 1 (Z.min 1000 z)).
Proof.
  unfold validPageSize. cbn [numberOr int].
  assert (Hz : Qeq_bool (inject_Z z) 0 = (z =? 0)%Z).
  { unfold Qeq_bool, inject_Z. simpl. rewrite Z.mul_1_r. reflexivity. }
  rewrite Hz. destruct (z =? 0)%Z; [reflexivity |].
  change (mathFloor (int z)) with (int (Qfloor (inject_Z z))).
  rewrite Qfloor_Z. apply clamp_int.
Qed.

(** X18: the page size handed to the Drive API is always a whole number
    from 1 to 1000, whatever number the caller gives, fractions, infinities
    and [NaN] included; a whole number in that range is passed on as it is,
    and a missing or zero page size becomes 50. *)
Theorem page_size_is_clamped (pageSize : option jsnumber) :
  (exists z, (1 <= z <= 1000)%Z /\ validPageSize pageSize = int z)
  /\ (forall z, (1 <= z <= 1000)%Z -> validPageSize (Some (int z)) = int z)
  /\ validPageSize None = int 50
  /\ validPageSize (Some (int 0)) = int 50.
Proof.
  split; [apply validPageSize_range |].
  split; [| split; reflexivity].
  intros z Hz. rewrite validPageSize_int.
  destruct (z =? 0)%Z eqn:E; [apply Z.eqb_eq in E; lia |].
  f_equal. lia.
Qed.

Lemma page_size_is_clamped_witness :
  (1 <= 200 <= 1000)%Z /\ validPageSize (Some (int 200)) = int 200.
Proof.
  split; [lia |].
  destruct (page_size_is_clamped None) as (_ & H & _).
  apply (H 200%Z). lia.
Defined.

(* ================================================================= *)
(** ** The items of a search result *)

Lemma jsstring_eqb_eq (a b : jsstring) : jsstring_eqb a b = true <-> a = b.
Proof.
  revert b. induction a as [|x a IH]; intros [|y b]; simpl;
    try (split; [discriminate | discriminate]); [tauto |].
  rewrite andb_true_iff, N.eqb_eq, IH. split.
  - intros [-> ->]. reflexivity.
  - intros H. injection H as -> ->. split; reflexivity.
Qed.



Lemma truthy_spec (o : option jsstring) (s : jsstring) :
  truthy o = Some s -> o = Some s /\ s <> [].
Proof.
  destruct o as [[|c t]|]; simpl; intros H; try discriminate H.
  injection H as <-. split; [reflexivity | discriminate].
Qed.

Lemma truthy_present (o : option jsstring) : presentString (truthy o).
Proof.
  destruct (truthy o) as [s|] eqn:E; [| exact I].
  apply truthy_spec in E. apply E.
Qed.

Lemma stringOr_nonempty (o : option jsstring) (fallback : jsstring) :
  fallback <> [] -> stringOr o fallback <> [].
Proof.
  intros H. unfold stringOr. destruct (truthy o) as [s|] eqn:E; [| exact H].
  apply truthy_spec in E. apply E.
Qed.

Lemma parentEntry_id (m : StringMap) (parentId : jsstring) :
  Parent.id (parentEntry m parentId) = parentId.
Proof.
  unfold parentEntry. destruct (jsstring_eqb parentId (lit "root")) eqn:E.
  - apply jsstring_eqb_eq in E. rewrite E. reflexivity.
  - reflexivity.
Qed.

Lemma toItem_shape (m : StringMap) (f : Api.File) :
  Item.id (toItem m f) <> []
  /\ Item.name (toItem m f) <> []
  /\ presentString (Item.mimeType (toItem m f))
  /\ presentString (Item.webViewLink (toItem m f))
  /\ presentString (Item.modifiedTime (toItem m f))
  /\ match Item.parents (toItem m f) with
     | Some shown => shown <> [] /\ Some (map Parent.id shown) = Api.parents f
     | None => Api.parents f = None \/ Api.parents f = Some []
     end
  /\ match Item.owners (toItem m f) with
     | Some shown =>
         shown <> []
         /\ option_map (@length _) (Api.owners f) = Some (length shown)
         /\ Forall (fun o => presentString (Api.displayName o)
                             /\ presentString (Api.emailAddress o)
                             /\ presentString (Api.kind o)
                             /\ presentString (Api.permissionId o)
                             /\ presentString (Api.photoLink o)) shown
     | None => Api.owners f = None \/ Api.owners f = Some []
     end.
Proof.
  assert (Hid : stringOr (Api.id f) (lit "unknown") <> [])
    by (apply stringOr_nonempty; discriminate).
  unfold toItem. cbn [Item.id Item.name Item.mimeType Item.webViewLink
                      Item.modifiedTime Item.parents Item.owners].
  split; [exact Hid |].
  split; [apply stringOr_nonempty; exact Hid |].
  split; [apply truthy_present |].
  split; [apply truthy_present |].
  split; [apply truthy_present |].
  split.
  - destruct (Api.parents f) as [[|x ps]|]; cbn [nonEmptyArray option_map].
    + right. reflexivity.
    + split; [discriminate |]. f_equal. rewrite map_map.
      rewrite (map_ext _ (fun x => x) (parentEntry_id m)), map_id.
      reflexivity.
    + left. reflexivity.
  - destruct (Api.owners f) as [[|x os]|]; cbn [nonEmptyArray option_map].
    + right. reflexivity.
    + split; [discriminate |]. split; [rewrite length_map; reflexivity |].
      apply Forall_map, Forall_forall. intros o _.
      cbn [ownerEntry Api.displayName Api.emailAddress Api.kind
           Api.permissionId Api.photoLink].
      repeat split; apply truthy_present.
    + left. reflexivity.
Qed.

(** X19: every item of a search result has an id and a name that are not
    empty ([unknown] stands for a missing id, the id for a missing name); no
    string property is present and empty; the parents and owners, where
    present, are as many as the API gave, the parents with the ids of the
    API in its order. *)
Theorem items_have_id_and_name (m : StringMap) (f : Api.File) :
  Item.id (toItem m f) <> []
  /\ Item.name (toItem m f) <> []
  /\ presentString (Item.mimeType (toItem m f))
  /\ presentString (Item.webViewLink (toItem m f))
  /\ presentString (Item.modifiedTime (toItem m f))
  /\ match Item.parents (toItem m f) with
     | Some shown => shown <> [] /\ Some (map Parent.id shown) = Api.parents f
     | None => Api.parents f = None \/ Api.parents f = Some []
     end
  /\ match Item.owners (toItem m f) with
     | Some shown =>
         shown <> []
         /\ option_map (@length _) (Api.owners f) = Some (length shown)
         /\ Forall (fun o => presentString (Api.displayName o)
                             /\ presentString (Api.emailAddress o)
                             /\ presentString (Api.kind o)
                             /\ presentString (Api.permissionId o)
                             /\ presentString (Api.photoLink o)) shown
     | None => Api.owners f = None \/ Api.owners f = Some []
     end.
Proof. exact (toItem_shape m f). Qed.











(* ================================================================= *)
(** ** The path of a folder *)






























(* ----------------------------------------------------------------- *)
(** *** The cleanup of the query string as a function of its own *)

(** X24: the cleanup changes nothing in a string that neither starts nor
    ends with whitespace: each alternative of its pattern asks for
    whitespace at one end of the string, so a leading or trailing [and] or
    [or] without it stays. *)
Theorem cleanup_needs_whitespace_at_an_end (s : jsstring)
    (Htidy : tidy s = true) :
  cleanQuery s = s.
Proof. exact (cleanQuery_tidy s Htidy). Qed.

Lemma cleanup_needs_whitespace_at_an_end_witness :
  cleanQuery (lit "and name contains 'a' or") = lit "and name contains 'a' or".
Proof.
  exact (cleanup_needs_whitespace_at_an_end (lit "and name contains 'a' or")
           eq_refl).
Defined.

(** X25: the cleaned string never starts or ends with whitespace, and
    cleaning it once more changes nothing. *)
Theorem cleanup_is_idempotent (s : jsstring) :
  tidy (cleanQuery s) = true
  /\ cleanQuery (cleanQuery s) = cleanQuery s.
Proof.
  assert (H : tidy (cleanQuery s) = true) by (unfold cleanQuery; apply tidy_trim).
  split; [exact H | exact (cleanQuery_tidy _ H)].
Qed.

(* ================================================================= *)
(** ** When the compiler throws *)

Lemma existsb_false_filter {A} (f : A -> bool) (l : list A) :
  existsb f l = false -> filter f l = [].
Proof.
  induction l as [|a l IH]; simpl; [reflexivity |].
  destruct (f a); simpl; [discriminate | exact IH].
Qed.

Lemma fieldText_blank (field : string) (op : FieldOperator) (text : jsstring) :
  existsb notBlank (selectedValues op) = false ->
  fieldText field op = Some text -> text = [].
Proof.
  intros Hex Htext.
  assert (Hres : forall values, existsb notBlank values = false ->
                                resultsOf field values = []).
  { intros values Hv. unfold resultsOf.
    rewrite (existsb_false_filter _ _ Hv). reflexivity. }
  unfold fieldText, selectedValues in *.
  destruct op as [[a|] [b|] [c|]]; cbn [any_ all_ none_] in *;
    try discriminate Htext;
    rewrite (Hres _ Hex) in Htext; injection Htext as <-; reflexivity.
Qed.

Lemma fieldLoop_nothing (n : DriveQueryObject) (keys : list string) :
  forallb (fun k => fieldHasKey (lookupField k n)) keys = true ->
  existsb (fun k => fieldYields (lookupField k n)) keys = false ->
  forall ex st, exists st', fieldLoop n keys ex st = Ok (ex, st').
Proof.
  induction keys as [|k keys IH]; intros Hall Hnone ex st.
  - exists st. reflexivity.
  - cbn [forallb existsb] in Hall, Hnone.
    apply andb_prop in Hall as [Hhead Hrest].
    apply orb_false_elim in Hnone as [Hk Hnone].
    cbn [fieldLoop]. destruct (lookupField k n) as [v|].
    + cbn [fieldHasKey optional] in Hhead.
      destruct (fieldText_hasOperatorKey k _ Hhead) as [text Htext].
      unfold bind. rewrite fieldExpr_spec, Htext.
      unfold fieldYields in Hk. cbn [compiledValues] in Hk.
      rewrite existsb_filter in Hk.
      rewrite (fieldText_blank k _ text Hk Htext).
      exact (IH Hrest Hnone ex _).
    + exact (IH Hrest Hnone ex st).
Qed.

Lemma emitLeaf_unknown (n : DriveQueryObject) :
  barren n = true -> forall st, emitLeaf n st = Throw (UnknownNode n).
Proof.
  unfold barren. intros H st.
  apply andb_prop in H as [H Hnothing].
  apply andb_prop in H as [H Hall].
  apply andb_prop in H as [_ Hkeys].
  apply negb_true_iff in Hkeys. apply negb_true_iff in Hnothing.
  apply orb_false_elim in Hnothing as [Hnothing Hfields].
  apply orb_false_elim in Hnothing as [Hnothing Hdate].
  apply orb_false_elim in Hnothing as [Hnothing Htrashed].
  apply orb_false_elim in Hnothing as [Hstarred Hshared].
  unfold emitLeaf, bind, leafExpressions.
  destruct (starred n); [discriminate Hstarred |].
  destruct (sharedWithMe n); [discriminate Hshared |].
  destruct (trashed n); [discriminate Htrashed |].
  destruct (modifiedTime n); [discriminate Hdate |].
  cbv beta iota zeta delta [bind ret].
  match goal with
  | |- context [fieldLoop n fieldKeys ?ex ?st0] =>
      destruct (fieldLoop_nothing n fieldKeys Hall Hfields ex st0)
        as [st' ->]
  end.
  rewrite Hkeys. reflexivity.
Qed.

Lemma emitLeaf_rejects (n : DriveQueryObject) :
  leafCompilable n = false -> forall st, exists e, emitLeaf n st = Throw e.
Proof.
  intros H st. unfold leafCompilable in H.
  destruct (forallb (fun k => fieldHasKey (lookupField k n)) fieldKeys)
    eqn:Hall.
  - cbn [andb] in H.
    assert (Hside :
              isSome (starred n) || isSome (sharedWithMe n)
              || isSome (trashed n) || isSome (modifiedTime n)
              || existsb (fun k => fieldYields (lookupField k n)) fieldKeys
              = false /\ noKeys n = false).
    { destruct (noKeys n); [discriminate H |].
      cbn [orb] in H. split; [exact H | reflexivity]. }
    destruct Hside as [Hnothing Hkeys].
    apply orb_false_elim in Hnothing as [Hnothing Hfields].
    apply orb_false_elim in Hnothing as [Hnothing Hdate].
    apply orb_false_elim in Hnothing as [Hnothing Htrashed].
    apply orb_false_elim in Hnothing as [Hstarred Hshared].
    exists (UnknownNode n).
    unfold emitLeaf, bind, leafExpressions.
    destruct (starred n); [discriminate Hstarred |].
    destruct (sharedWithMe n); [discriminate Hshared |].
    destruct (trashed n); [discriminate Htrashed |].
    destruct (modifiedTime n); [discriminate Hdate |].
    cbv beta iota zeta delta [bind ret].
    match goal with
    | |- context [fieldLoop n fieldKeys ?ex ?st0] =>
        destruct (fieldLoop_nothing n fieldKeys Hall Hfields ex st0)
          as [st' ->]
    end.
    rewrite Hkeys. reflexivity.
  - exists (UnknownFieldOperator noOperator). apply emitLeaf_throws.
    unfold hasKeylessOperator.
    clear H. induction fieldKeys as [|k keys IH]; [discriminate Hall |].
    cbn [forallb existsb] in Hall |- *.
    destruct (fieldHasKey (lookupField k n)); [| reflexivity].
    cbn [andb negb orb] in Hall |- *. exact (IH Hall).
Qed.

Lemma mapM_emit_rejects (children : list DriveQueryObject) :
  Forall (fun c => compilable c = false ->
                   forall st, exists e, emit c st = Throw e) children ->
  forallb compilable children = false ->
  forall st, exists e, mapM emit children st = Throw e.
Proof.
  induction 1 as [|c children Hc Hcs IH]; intros Hsome st;
    [discriminate Hsome |].
  cbn [forallb] in Hsome. rewrite mapM_cons. unfold bind.
  destruct (compilable c) eqn:Ec.
  - cbn [andb] in Hsome.
    destruct (emit c st) as [[s st1]|e]; [| exists e; reflexivity].
    destruct (IH Hsome st1) as [e ->]. exists e. reflexivity.
  - destruct (Hc eq_refl st) as [e ->]. exists e. reflexivity.
Qed.

Lemma emit_rejects (n : DriveQueryObject) :
  compilable n = false -> forall st, exists e, emit n st = Throw e.
Proof.
  induction n as [a o nt nm mt ft pid sr sh tr md ow raw Ha Ho Hnt]
    using DriveQueryObject_tree_ind.
  intros H st. rewrite compilable_eq in H. rewrite emit_eq.
  cbn [and_ or_ not_] in H |- *.
  destruct a as [cs|]; [| destruct o as [cs|]; [| destruct nt as [c|]]].
  - destruct (mapM_emit_rejects cs Ha H st) as [e E].
    unfold bind. rewrite E. exists e. reflexivity.
  - destruct (mapM_emit_rejects cs Ho H st) as [e E].
    unfold bind. rewrite E. exists e. reflexivity.
  - destruct (Hnt H st) as [e E].
    unfold bind. rewrite E. exists e. reflexivity.
  - exact (emitLeaf_rejects _ H st).
Qed.

Lemma emitTop_rejects (n : DriveQueryObject) :
  compilable n = false -> forall st, exists e, emitTop n st = Throw e.
Proof.
  intros H st. unfold emitTop.
  destruct (noKeys n) eqn:Hk.
  - apply noKeys_empty in Hk. subst n. discriminate H.
  - pose proof H as H'. rewrite compilable_eq in H.
    destruct (and_ n) as [cs|] eqn:Ea;
      [| destruct (or_ n) as [cs|] eqn:Eo;
         [| destruct (not_ n) as [c|] eqn:En]].
    + destruct (mapM_emit_rejects cs
                  (proj2 (Forall_forall _ _) (fun c _ => emit_rejects c))
                  H st) as [e E].
      unfold bind. rewrite E. exists e. reflexivity.
    + destruct (mapM_emit_rejects cs
                  (proj2 (Forall_forall _ _) (fun c _ => emit_rejects c))
                  H st) as [e E].
      unfold bind. rewrite E. exists e. reflexivity.
    + destruct (emit_rejects c H st) as [e E].
      unfold bind. rewrite E. exists e. reflexivity.
    + destruct (emit_rejects n H' st) as [e E].
      unfold bind. rewrite E. exists e. reflexivity.
Qed.

(** X26: the compiler returns exactly on the objects in which every node
    without combinator that it reaches is [{}] or fills [expressions], with
    an operator key on each of its leaf fields; on every other object it
    throws. *)
Theorem compile_returns_exactly_when_accepted (n : DriveQueryObject) :
  (compilable n = true <-> exists out, toDriveQuery (QObject n) = Ok out)
  /\ (compilable n = false <-> exists e, toDriveQuery (QObject n) = Throw e).
Proof.
  assert (Hok : compilable n = true ->
                exists out, toDriveQuery (QObject n) = Ok out).
  { intros H. unfold toDriveQuery.
    destruct (emitTop_ok n H freshAcc) as (s & st & ->).
    eexists. reflexivity. }
  assert (Hthrow : compilable n = false ->
                   exists e, toDriveQuery (QObject n) = Throw e).
  { intros H. unfold toDriveQuery.
    destruct (emitTop_rejects n H freshAcc) as [e ->].
    exists e. reflexivity. }
  split; split; try assumption.
  - intros [out E]. destruct (compilable n); [reflexivity |].
    destruct (Hthrow eq_refl) as [e E']. rewrite E' in E. discriminate E.
  - intros [e E]. destruct (compilable n); [| reflexivity].
    destruct (Hok eq_refl) as [out E']. rewrite E' in E. discriminate E.
Qed.

(** X27: a node that has a key but neither a combinator, a flag nor a
    date range, and whose leaf fields each have an operator key ([$any],
    [$all] or [$none]) but no value that is not blank, is rejected as an
    unknown node, at the root, as the first child of [$and] or [$or], and
    under [$not]; an operator whose array is empty or all blank is such a
    case.  (A leaf field without operator key is rejected before, as an
    unknown field operator.) *)
Theorem barren_node_is_unknown (n : DriveQueryObject)
    (rest : list DriveQueryObject) (Hbarren : barren n = true) :
  toDriveQuery (QObject n) = Throw (UnknownNode n)
  /\ toDriveQuery (QObject (andOf (n :: rest))) = Throw (UnknownNode n)
  /\ toDriveQuery (QObject (orOf (n :: rest))) = Throw (UnknownNode n)
  /\ toDriveQuery (QObject (notOf n)) = Throw (UnknownNode n).
Proof.
  assert (Hemit : forall st, emit n st = Throw (UnknownNode n)).
  { intros st. rewrite emit_leaf; [exact (emitLeaf_unknown n Hbarren st) |].
    unfold barren in Hbarren.
    destruct (hasCombinator n); [discriminate Hbarren | reflexivity]. }
  assert (Hkeys : noKeys n = false).
  { unfold barren in Hbarren.
    destruct (hasCombinator n); [discriminate Hbarren |].
    destruct (noKeys n); [discriminate Hbarren | reflexivity]. }
  assert (Hcomb : and_ n = None /\ or_ n = None /\ not_ n = None).
  { apply hasCombinator_false. unfold barren in Hbarren.
    destruct (hasCombinator n); [discriminate Hbarren | reflexivity]. }
  destruct Hcomb as (Ea & Eo & En).
  repeat split.
  - unfold toDriveQuery, emitTop. rewrite Hkeys, Ea, Eo, En.
    unfold bind. rewrite Hemit. reflexivity.
  - unfold toDriveQuery, emitTop. cbn [andOf noKeys and_ isSome orb negb].
    rewrite mapM_cons. unfold bind. rewrite Hemit. reflexivity.
  - unfold toDriveQuery, emitTop.
    cbn [orOf noKeys and_ or_ isSome orb negb].
    rewrite mapM_cons. unfold bind. rewrite Hemit. reflexivity.
  - unfold toDriveQuery, emitTop.
    cbn [notOf noKeys and_ or_ not_ isSome orb negb].
    unfold bind. rewrite Hemit. reflexivity.
Qed.

Lemma barren_node_is_unknown_witness :
  toDriveQuery (QObject name_any_blank) = Throw (UnknownNode name_any_blank)
  /\ toDriveQuery (QObject (andOf [name_any_blank; name_a]))
     = Throw (UnknownNode name_any_blank)
  /\ toDriveQuery (QObject (orOf [name_any_blank; name_a]))
     = Throw (UnknownNode name_any_blank)
  /\ toDriveQuery (QObject (notOf name_any_blank))
     = Throw (UnknownNode name_any_blank).
Proof. exact (barren_node_is_unknown name_any_blank [name_a] eq_refl). Defined.

(* ================================================================= *)
(** ** A plain string on a leaf field *)


Lemma alike_returned {A} (r r' : outcome A) :
  alike r r' -> returned r = returned r'.
Proof.
  destruct r as [a|[op|m]], r' as [a'|[op'|m']]; simpl; intros H;
    try contradiction; try reflexivity.
  rewrite H. reflexivity.
Qed.


Section Alike.
Variables n n' : DriveQueryObject.
Hypothesis Hsame : sameReading n n'.




End Alike.



(* ================================================================= *)
(** ** Calls in a store that outlasts them *)

Lemma readArray_old (h ext : Store) (a : nat) :
  a < length h -> readArray (h ++ ext) a = readArray h a.
Proof. intros H. unfold readArray. apply app_nth1. exact H. Qed.

Lemma readArray_new (h ext : Store) (i : nat) :
  readArray (h ++ ext) (length h + i) = nth i ext [].
Proof.
  unfold readArray. rewrite app_nth2 by lia. f_equal. lia.
Qed.

Lemma writeArray_new (h ext : Store) (i : nat) (arr : list jsstring) :
  writeArray (h ++ ext) (length h + i) arr = h ++ writeArray ext i arr.
Proof.
  induction h as [|x h IH]; [reflexivity |].
  cbn [app length Nat.add writeArray]. rewrite IH. reflexivity.
Qed.

Lemma newFrame_eq (h : Store) :
  newFrame h
  = (mkFrame (length h + 0) (length h + 1) (length h + 2) (length h + 3)
       (length h + 4),
     h ++ [[]; []; []; []; []]).
Proof.
  unfold newFrame, newArray. rewrite !length_app. cbn [length].
  rewrite <- !app_assoc. cbn [app]. f_equal. f_equal; lia.
Qed.

Lemma whenNonEmptyAt_read (h : Store) (a : nat) :
  option_map (readArray h) (whenNonEmptyAt h a) = whenNonEmpty (readArray h a).
Proof.
  unfold whenNonEmptyAt, whenNonEmpty.
  destruct (readArray h a) eqn:E; [reflexivity |].
  cbn [option_map]. rewrite E. reflexivity.
Qed.

Lemma toDriveQueryIn_spec (query : DriveQuery) (h : Store) :
  seenResult (toDriveQueryIn query h) = toDriveQuery query
  /\ exists created, snd (toDriveQueryIn query h) = h ++ created.
Proof.
  destruct query as [s | n].
  - split; [reflexivity |]. exists []. cbn. rewrite app_nil_r. reflexivity.
  - unfold toDriveQueryIn, toDriveQuery. rewrite newFrame_eq.
    assert (Hload : loadAcc (h ++ [[]; []; []; []; []])
                      (mkFrame (length h + 0) (length h + 1) (length h + 2)
                         (length h + 3) (length h + 4)) None None None
                    = freshAcc).
    { unfold loadAcc.
      cbn [nameIncludesAt mimeTypeIncludesAt fullTextIncludesAt
           parentIdIncludesAt ownerIncludesAt].
      rewrite !readArray_new. reflexivity. }
    rewrite Hload.
    destruct (emitTop n freshAcc) as [[q0 st]|e].
    + assert (Hstore : storeAcc (h ++ [[]; []; []; []; []])
                         (mkFrame (length h + 0) (length h + 1)
                            (length h + 2) (length h + 3) (length h + 4)) st
                       = h ++ [nameIncludes st; mimeTypeIncludes st;
                               fullTextIncludes st; parentIdIncludes st;
                               ownerIncludes st]).
      { unfold storeAcc.
        cbn [nameIncludesAt mimeTypeIncludesAt fullTextIncludesAt
             parentIdIncludesAt ownerIncludesAt].
        rewrite !writeArray_new. reflexivity. }
      rewrite Hstore. split.
      * unfold seenResult, readOutput, filtersAt, filtersOf.
        cbn [fst snd Ref.q Ref.filters Ref.nameIncludes Ref.mimeTypeIncludes
             Ref.fullTextIncludes Ref.parentIdIncludes Ref.ownerIncludes
             Ref.starred Ref.sharedWithMe Ref.trashed
             nameIncludesAt mimeTypeIncludesAt fullTextIncludesAt
             parentIdIncludesAt ownerIncludesAt].
        rewrite !whenNonEmptyAt_read, !readArray_new. reflexivity.
      * eexists. reflexivity.
    + split; [reflexivity |]. eexists. reflexivity.
Qed.

Lemma toDriveQueryIn_fresh (query : DriveQuery) (h : Store) (o : Ref.Output) :
  fst (toDriveQueryIn query h) = Ok o ->
  Forall (fun a => length h <= a) (arraysOf o).
Proof.
  destruct query as [s | n].
  - intros H. injection H as <-. constructor.
  - unfold toDriveQueryIn. rewrite newFrame_eq.
    destruct (emitTop n _) as [[q0 st]|e]; [| discriminate].
    cbn [fst]. intros H. injection H as <-.
    unfold arraysOf, filtersAt, whenNonEmptyAt.
    cbn [Ref.filters Ref.nameIncludes Ref.mimeTypeIncludes
         Ref.fullTextIncludes Ref.parentIdIncludes Ref.ownerIncludes
         nameIncludesAt mimeTypeIncludesAt fullTextIncludesAt
         parentIdIncludesAt ownerIncludesAt flat_map].
    repeat match goal with
           | |- context [match readArray ?s ?a with _ => _ end] =>
               destruct (readArray s a)
           end;
      cbn [app]; repeat constructor; lia.
Qed.

(* ================================================================= *)
(** ** The claims of the specification, continued *)

(** C9: [toDriveQuery] keeps nothing from one call to the next.  Called
    on equal inputs in any two stores, whatever earlier calls created there
    and whatever their callers did to the arrays they were given, it returns
    the same query string and filters, or throws the same error: the result
    is that of the call on fresh accumulators.  The call writes to no array
    that existed before it, so what earlier calls returned stays as it was,
    and the arrays it returns are new ones.  The text that the compilation
    of a node produces, or its error, is the same from any content of the
    accumulators. *)
Theorem toDriveQuery_deterministic
    (query1 query2 : DriveQuery) (h1 h2 : Store) (H : query1 = query2) :
  seenResult (toDriveQueryIn query1 h1) = seenResult (toDriveQueryIn query2 h2)
  /\ seenResult (toDriveQueryIn query1 h1) = toDriveQuery query1
  /\ (forall tamper : Store -> Store,
        seenResult (toDriveQueryIn query2
                      (tamper (snd (toDriveQueryIn query1 h1))))
        = seenResult (toDriveQueryIn query1 h1))
  /\ (forall a, a < length h1 ->
                readArray (snd (toDriveQueryIn query1 h1)) a = readArray h1 a)
  /\ (forall o, fst (toDriveQueryIn query1 h1) = Ok o ->
                Forall (fun a => length h1 <= a) (arraysOf o))
  /\ (forall n st, valueOf (emitTop n st) = valueOf (emitTop n freshAcc)).
Proof.
  subst query2.
  assert (Hany : forall h, seenResult (toDriveQueryIn query1 h)
                           = toDriveQuery query1).
  { intros h. exact (proj1 (toDriveQueryIn_spec query1 h)). }
  split; [rewrite !Hany; reflexivity |].
  split; [apply Hany |].
  split; [intros tamper; rewrite !Hany; reflexivity |].
  split; [| split].
  - intros a Ha.
    destruct (proj2 (toDriveQueryIn_spec query1 h1)) as [created ->].
    apply readArray_old. exact Ha.
  - intros o Ho. exact (toDriveQueryIn_fresh query1 h1 o Ho).
  - intros n st. apply accBlind_emitTop.
Qed.

Lemma toDriveQuery_deterministic_witness :
  QObject and_name_starred = QObject (andOf [name_a; starredIs true])
  /\ seenResult (toDriveQueryIn (QObject and_name_starred) [])
     = seenResult
         (toDriveQueryIn (QObject (andOf [name_a; starredIs true]))
            (pushAt (snd (toDriveQueryIn (QObject and_name_starred) []))
               0 (lit "b")))
  /\ seenResult
       (toDriveQueryIn (QObject (andOf [name_a; starredIs true]))
          (pushAt (snd (toDriveQueryIn (QObject and_name_starred) []))
             0 (lit "b")))
     = Ok (mkOutput (lit "name contains 'a' and starred = true")
             (Filters.mk (Some [lit "a"]) None None None None
                (Some true) None None))
  /\ readArray
       (snd (toDriveQueryIn (QObject (andOf [name_a; starredIs true]))
               (pushAt (snd (toDriveQueryIn (QObject and_name_starred) []))
                  0 (lit "b"))))
       0
     = [lit "a"; lit "b"].
Proof.
  split; [reflexivity |].
  split;
    [exact (proj1 (toDriveQuery_deterministic
                     (QObject and_name_starred)
                     (QObject (andOf [name_a; starredIs true]))
                     []
                     (pushAt (snd (toDriveQueryIn (QObject and_name_starred)
                                     [])) 0 (lit "b"))
                     eq_refl)) |].
  split; vm_compute; reflexivity.
Defined.



